(** * Responsive Privacy: the core transformer, the configuration resolver
      and the template helper [shouldShow]

    A shallow embedding of [packages/core/src/{types,defaults,config,
    transformer}.ts] and of the Astro helper [shouldShow], followed by the
    properties of the specification that concern them.

    Modelling conventions.
    - A JavaScript object used as a dictionary by the configuration
      ([collections], [fields], [attributes]) is a [gmap string _] over its
      own properties.  The code reads these objects with [o[k]], which
      also finds the members inherited from [Object.prototype]; such a
      read is [readProp], and its three outcomes (an own property, an
      inherited member, [undefined]) are kept apart wherever the code
      goes on with the value read.  Reading a member of [undefined]
      throws [TypeError]; a function that may throw returns a
      [Completion].
    - A content record ([Record<string, unknown>]) is the list of its own
      enumerable entries in the order [Object.entries] yields them; a
      well-formed record has no repeated key.  Assignment [o[k] = v]
      overwrites in place or appends, which is the enumeration order of
      JavaScript for the keys that [applyPrivacy] writes (it writes them in
      the enumeration order of its input); at the key [__proto__] the
      assignment runs the setter of [Object.prototype] and adds no
      property.  The record of a result is described by its own
      properties.
    - A number is an integer of [Z]; a privacy level is such a number, the
      TypeScript type [0 | 1 | 2 | 3 | 4] being erased at run time.
      [showNumber] prints an integer in decimal digits, as JavaScript does
      below 10^21.
    - A string is a [string] of bytes (UTF-8).
    - [console.warn] is an explicit log: a computation that may warn returns
      its value paired with the messages it printed, in order. *)

From Stdlib Require Import Ascii.
From stdpp Require Import gmap strings list fin_maps pretty.

Open Scope Z_scope.

(** ** Values *)

(** [unknown]: the values a content record may hold. *)
#[warnings="-register-all"]
Inductive JsValue : Type :=
  | VUndefined
  | VNull
  | VBool (b : bool)
  | VNum (n : Z)
  | VStr (s : string)
  | VArr (items : list JsValue)
  | VObj (props : list (string * JsValue)).

Abbreviation JsObject := (list (string * JsValue)).

(** The console monad: a value and the warnings printed while computing it. *)
Module Console.
Definition t (A : Type) : Type := (A * list string)%type.

Definition ret {A} (a : A) : t A := (a, []).

Definition bind {A B} (m : t A) (k : A → t B) : t B :=
  let (b, out) := k m.1 in (b, m.2 ++ out).

Definition warn (msg : string) : t unit := (tt, [msg]).

Definition value {A} (m : t A) : A := m.1.
Definition output {A} (m : t A) : list string := m.2.
End Console.

Notation "x ←ᶜ m ; k" := (Console.bind m (λ x, k))
  (at level 20, m at level 100, k at level 200, only parsing, right associativity).

(** How a call ends: with a value, or with the [TypeError] that reading a
    member of [undefined] throws. *)
Inductive Completion (A : Type) : Type :=
  | Normal (a : A)
  | TypeError.

Arguments Normal {A} a.
Arguments TypeError {A}.

(** Sequencing of calls that may throw: what was printed before the throw
    stays printed, what follows the throw is not run. *)
Definition tryBind {A B} (m : Console.t (Completion A))
    (k : A → Console.t (Completion B)) : Console.t (Completion B) :=
  c ←ᶜ m;
  match c with
  | Normal a => k a
  | TypeError => Console.ret TypeError
  end.

Notation "x ←ᵗ m ; k" := (tryBind m (λ x, k))
  (at level 20, m at level 100, k at level 200, only parsing, right associativity).

(** [l.map(f)] for an [f] that may warn and may throw. *)
Fixpoint tryMap {A B} (f : A → Console.t (Completion B)) (l : list A)
    : Console.t (Completion (list B)) :=
  match l with
  | [] => Console.ret (Normal [])
  | x :: rest =>
      y ←ᵗ f x;
      ys ←ᵗ tryMap f rest;
      Console.ret (Normal (y :: ys))
  end.

(** ** Property reads on configuration objects *)

(** The property names of [Object.prototype]. *)
Definition prototypeNames : list string :=
  [ "constructor"; "__defineGetter__"; "__defineSetter__"; "hasOwnProperty";
    "__lookupGetter__"; "__lookupSetter__"; "isPrototypeOf";
    "propertyIsEnumerable"; "toString"; "valueOf"; "__proto__";
    "toLocaleString" ].

Definition isPrototypeName (k : string) : bool := bool_decide (k ∈ prototypeNames).

(** The outcome of [o[k]] on an object literal: the own property, else the
    member of [Object.prototype] of that name, else [undefined]. *)
Inductive Read (A : Type) : Type :=
  | Own (a : A)
  | Inherited (name : string)
  | Undefined.

Arguments Own {A} a.
Arguments Inherited {A} name.
Arguments Undefined {A}.

Definition readProp {A} (o : gmap string A) (k : string) : Read A :=
  match o !! k with
  | Some a => Own a
  | None => if isPrototypeName k then Inherited k else Undefined
  end.

(** [!x] for the outcome of a read of an object-valued property: objects
    and functions are truthy. *)
Definition isAbsent {A} (x : Read A) : bool :=
  match x with Undefined => true | Own _ | Inherited _ => false end.

(** [!x] for the outcome of a read of a string-valued property: the empty
    string is falsy as well. *)
Definition isFalsy (x : Read string) : bool :=
  match x with
  | Undefined => true
  | Own s => bool_decide (s = EmptyString)
  | Inherited _ => false
  end.

(** The string that an inherited member converts to, as Node prints it:
    [Object.prototype] itself for [__proto__], a built-in function
    otherwise. *)
Definition inheritedToString (name : string) : string :=
  if decide (name = "__proto__") then "[object Object]"
  else if decide (name = "constructor") then "function Object() { [native code] }"
  else "function " +:+ name +:+ "() { [native code] }".

(** The value read from a field mapping, used as a property key and inside
    a template literal. *)
Definition toPropertyKey (x : Read string) : string :=
  match x with
  | Own s => s
  | Inherited name => inheritedToString name
  | Undefined => "undefined"
  end.

(** ** Records as ordered property lists *)

Module Obj.
(** [o[k]] *)
Fixpoint get (k : string) (o : JsObject) : option JsValue :=
  match o with
  | [] => None
  | (k', v) :: o' => if decide (k' = k) then Some v else get k o'
  end.

(** The own property [k] of [o] defined or redefined with value [v]. *)
Fixpoint set (k : string) (v : JsValue) (o : JsObject) : JsObject :=
  match o with
  | [] => [(k, v)]
  | (k', v') :: o' =>
      if decide (k' = k) then (k', v) :: o' else (k', v') :: set k v o'
  end.

(** [o[k] = v] on an object whose prototype is [Object.prototype], or
    the value of an earlier such assignment at [__proto__]: at the key
    [__proto__] the inherited setter runs and the own properties stay as
    they are. *)
Definition put (k : string) (v : JsValue) (o : JsObject) : JsObject :=
  if decide (k = "__proto__") then o else set k v o.

(** [Object.keys(o)] *)
Definition keys (o : JsObject) : list string := o.*1.

(** The entries of [source] defined on [target] one after the other. *)
Definition assign (target source : JsObject) : JsObject :=
  foldl (λ acc e, set e.1 e.2 acc) target source.

(** [{ ...o }]: every own entry is copied, [__proto__] included. *)
Definition spread (o : JsObject) : JsObject := assign [] o.

(** A record has each key once. *)
Definition wf (o : JsObject) : Prop := NoDup (keys o).
End Obj.

(** ** types.ts *)

Abbreviation PrivacyLevel := Z (only parsing).

Record PrivacyLevelDefinition := {
  pld_level : PrivacyLevel;
  pld_name : string;
  pld_description : string;
}.

Inductive RiskLevel := VeryHigh | High | Medium | Low.

Inductive AttributeCategory := Identity | Contact | Organizational | Activity.

Inductive RedactionStrategy := Omit | Replace.

Global Instance RedactionStrategy_eq_dec : EqDecision RedactionStrategy.
Proof. solve_decision. Defined.

(** Optional members ([redaction?], [redactedValue?], [complianceProtected?])
    are [option]s, [None] standing for an absent member. *)
Record AttributeDefinition := {
  ad_name : string;
  ad_category : AttributeCategory;
  ad_risk : RiskLevel;
  ad_threshold : PrivacyLevel;
  ad_redaction : option RedactionStrategy;
  ad_redactedValue : option string;
  ad_complianceProtected : option bool;
}.

Record CollectionConfig := {
  cc_fields : gmap string string;
}.

Record ResponsivePrivacyConfig := {
  cfg_levels : option (list PrivacyLevelDefinition);
  cfg_attributes : option (gmap string AttributeDefinition);
  cfg_collections : gmap string CollectionConfig;
}.

(** [Required<ResponsivePrivacyConfig>] *)
Record ResolvedConfig := {
  rc_levels : list PrivacyLevelDefinition;
  rc_attributes : gmap string AttributeDefinition;
  rc_collections : gmap string CollectionConfig;
}.

Record PrivacyContext := {
  ctx_currentLevel : PrivacyLevel;
  ctx_config : ResolvedConfig;
}.

(** The member [attributeId] of a field result holds what the field
    mapping yielded: a string, or a member inherited from
    [Object.prototype]. *)
Inductive AttributeRef : Type :=
  | AttrId (id : string)
  | InheritedMember (name : string).

Coercion AttrId : string >-> AttributeRef.

Global Instance AttributeRef_eq_dec : EqDecision AttributeRef.
Proof. solve_decision. Defined.

Record FieldResult := {
  fr_field : string;
  fr_attributeId : AttributeRef;
  fr_visible : bool;
  fr_value : JsValue;
  fr_redactionApplied : option RedactionStrategy;
}.

Record TransformResult := {
  tr_data : JsObject;
  tr_fields : list FieldResult;
  tr_hiddenFields : list string;
  tr_warnings : list string;
}.

(** ** defaults.ts *)

Definition DEFAULT_PRIVACY_LEVELS : list PrivacyLevelDefinition :=
  [ {| pld_level := 0; pld_name := "Complete Anonymity";
       pld_description := "Active threat, immediate danger. No attributes visible." |};
    {| pld_level := 1; pld_name := "Role-Only Visibility";
       pld_description := "Elevated threat environment. Only generic role and department visible." |};
    {| pld_level := 2; pld_name := "Professional Identity";
       pld_description := "Moderate threat, maintaining credibility. Name, role, and project attribution visible." |};
    {| pld_level := 3; pld_name := "Public Professional";
       pld_description := "Standard operations with security awareness. Full professional profile without direct contact." |};
    {| pld_level := 4; pld_name := "Full Transparency";
       pld_description := "No perceived threat, maximum accessibility. All attributes visible." |} ].

Definition mkAttr (name : string) (c : AttributeCategory) (r : RiskLevel)
    (threshold : PrivacyLevel) (redaction : option RedactionStrategy)
    (redactedValue : option string) (cp : option bool) : AttributeDefinition :=
  {| ad_name := name; ad_category := c; ad_risk := r; ad_threshold := threshold;
     ad_redaction := redaction; ad_redactedValue := redactedValue;
     ad_complianceProtected := cp |}.

Definition DEFAULT_ATTRIBUTES : gmap string AttributeDefinition :=
  list_to_map
  [ ("ID-01", mkAttr "Full Name" Identity High 2 (Some Replace) (Some "Staff Member") None);
    ("ID-02", mkAttr "Photo/Headshot" Identity High 2 (Some Omit) None None);
    ("ID-03", mkAttr "Job Title/Role" Identity Medium 1 None None None);
    ("ID-04", mkAttr "Biography/Background" Identity Medium 3 (Some Omit) None None);
    ("ID-05", mkAttr "Professional Credentials" Identity Low 3 None None None);
    ("CV-01", mkAttr "Email Address" Contact VeryHigh 4 (Some Replace)
                (Some "Contact the organization") None);
    ("CV-02", mkAttr "Phone Number" Contact VeryHigh 4 (Some Omit) None None);
    ("CV-03", mkAttr "Office Location/Address" Contact VeryHigh 4 (Some Omit) None None);
    ("CV-04", mkAttr "Social Media Links" Contact Medium 3 (Some Omit) None None);
    ("CV-05", mkAttr "Messaging Handles" Contact High 4 (Some Omit) None None);
    ("OR-01", mkAttr "Department/Team" Organizational Low 1 None None None);
    ("OR-02", mkAttr "Board Membership" Organizational Medium 3 None None (Some true));
    ("OR-03", mkAttr "Partner Organizations" Organizational Medium 3 None None None);
    ("OR-04", mkAttr "Project Associations" Organizational Low 2 None None None);
    ("OR-05", mkAttr "Advisory/Volunteer Status" Organizational Low 3 None None None);
    ("AD-01", mkAttr "Work Schedule/Availability" Activity High 4 (Some Omit) None None);
    ("AD-02", mkAttr "Event Participation" Activity Medium 3 (Some Omit) None None);
    ("AD-03", mkAttr "Publication Dates" Activity Low 2 None None None);
    ("AD-04", mkAttr "Project Timelines" Activity Medium 3 None None None);
    ("AD-05", mkAttr "Bylines/Authorship" Activity Medium 2 (Some Replace)
                (Some "Organization Staff") None) ].

(** ** Strings, numbers and the built-ins the code calls *)

(** The double quote character (code 34). *)
Definition dquote : string :=
  String (Ascii false true false false false true false false) EmptyString.

(** [`${n}`] for an integral number below 10^21 in absolute value, which
    JavaScript prints in decimal digits; the levels, the thresholds and the
    counts that the code prints are of that kind. *)
Definition showNumber (n : Z) : string := pretty n.

Definition code (c : ascii) : nat := nat_of_ascii c.

(** [StrWhiteSpaceChar] in one byte: TAB, LF, VT, FF, CR, SP. *)
Definition isWhiteSpace1 (c : ascii) : bool :=
  ((9 <=? code c) && (code c <=? 13) || (code c =? 32))%nat.

(** U+00A0 in UTF-8. *)
Definition isWhiteSpace2 (c1 c2 : ascii) : bool :=
  ((code c1 =? 194) && (code c2 =? 160))%nat.

(** U+1680, U+2000..U+200A, U+2028, U+2029, U+202F, U+205F, U+3000 and
    U+FEFF in UTF-8. *)
Definition isWhiteSpace3 (c1 c2 c3 : ascii) : bool :=
  ((code c1 =? 225) && (code c2 =? 154) && (code c3 =? 128)
   || (code c1 =? 226) && (code c2 =? 128)
      && ((128 <=? code c3) && (code c3 <=? 138)
          || (code c3 =? 168) || (code c3 =? 169) || (code c3 =? 175))
   || (code c1 =? 226) && (code c2 =? 129) && (code c3 =? 159)
   || (code c1 =? 227) && (code c2 =? 128) && (code c3 =? 128)
   || (code c1 =? 239) && (code c2 =? 187) && (code c3 =? 191))%nat.

(** Leading white space removed, as [parseInt] does first. *)
Fixpoint trimStart (s : string) : string :=
  match s with
  | String c1 s1 =>
      if isWhiteSpace1 c1 then trimStart s1
      else match s1 with
           | String c2 s2 =>
               if isWhiteSpace2 c1 c2 then trimStart s2
               else match s2 with
                    | String c3 s3 =>
                        if isWhiteSpace3 c1 c2 c3 then trimStart s3 else s
                    | EmptyString => s
                    end
           | EmptyString => s
           end
  | EmptyString => s
  end.

Definition digitValue (c : ascii) : option Z :=
  if ((48 <=? code c) && (code c <=? 57))%nat
  then Some (Z.of_nat (code c) - 48) else None.

(** The value of the longest prefix of decimal digits; [None] when the
    prefix is empty. *)
Fixpoint parseDigits (s : string) (acc : option Z) : option Z :=
  match s with
  | String c s' =>
      match digitValue c with
      | Some d => parseDigits s' (Some (10 * default 0 acc + d))
      | None => acc
      end
  | EmptyString => acc
  end.

(** [parseInt(s, 10)]; [None] is [NaN].  White space is skipped, one sign is
    read, then the longest run of digits; what follows the digits is
    ignored. *)
Definition parseInt10 (s : string) : option Z :=
  match trimStart s with
  | String "-"%char rest => Z.opp <$> parseDigits rest None
  | String "+"%char rest => parseDigits rest None
  | rest => parseDigits rest None
  end.

(** ** config.ts *)

Definition defineConfig (config : ResponsivePrivacyConfig) : ResponsivePrivacyConfig :=
  config.

(** [{ ...DEFAULT_ATTRIBUTES, ...(config.attributes ?? {}) }]: the later
    spread wins, so the operator's entries take precedence. *)
Definition resolveConfig (config : ResponsivePrivacyConfig) : ResolvedConfig :=
  let attributes := default ∅ (cfg_attributes config) ∪ DEFAULT_ATTRIBUTES in
  {| rc_levels := default DEFAULT_PRIVACY_LEVELS (cfg_levels config);
     rc_attributes := attributes;
     rc_collections := cfg_collections config |}.

Definition invalidLevelMessage (envVal : string) (fallback : PrivacyLevel) : string :=
  "[responsive-privacy] Invalid PRIVACY_LEVEL=" +:+ dquote +:+ envVal +:+ dquote
  +:+ ". Must be 0–4. Falling back to " +:+ showNumber fallback +:+ ".".

(** [env] is [process.env.PRIVACY_LEVEL] ([None] when unset or when there is
    no [process]); [fallback] is the optional parameter, 4 when omitted. *)
Definition readPrivacyLevel (env : option string) (fallback : option PrivacyLevel)
    : Console.t PrivacyLevel :=
  let fallback := default 4 fallback in
  match env with
  | None => Console.ret fallback
  | Some envVal =>
      if decide (envVal = EmptyString) then Console.ret fallback
      else
        let parsed := parseInt10 envVal in
        match parsed with
        | None =>
            _ ←ᶜ Console.warn (invalidLevelMessage envVal fallback);
            Console.ret fallback
        | Some n =>
            if (n <? 0) || (n >? 4) then
              _ ←ᶜ Console.warn (invalidLevelMessage envVal fallback);
              Console.ret fallback
            else Console.ret n
        end
  end.

(** [level ?? readPrivacyLevel()] *)
Definition levelOrEnv (env : option string) (level : option PrivacyLevel)
    : Console.t PrivacyLevel :=
  match level with
  | Some l => Console.ret l
  | None => readPrivacyLevel env None
  end.

Definition createContext (env : option string) (config : ResponsivePrivacyConfig)
    (level : option PrivacyLevel) : Console.t PrivacyContext :=
  currentLevel ←ᶜ levelOrEnv env level;
  Console.ret {| ctx_currentLevel := currentLevel; ctx_config := resolveConfig config |}.

(** ** transformer.ts *)

(** An inherited member is truthy and has no [threshold]; the comparison
    of a number with [undefined] is false. *)
Definition isAttributeVisible (attributeId : string) (currentLevel : PrivacyLevel)
    (attributes : gmap string AttributeDefinition) : bool :=
  match readProp attributes attributeId with
  | Undefined => true
  | Own attr => currentLevel >=? ad_threshold attr
  | Inherited _ => false
  end.

Definition defaultRedactedValue (attr : AttributeDefinition) : string :=
  "[" +:+ ad_name attr +:+ " hidden]".

Definition getRedactedValue (attr : AttributeDefinition) : JsValue :=
  let strategy := default Omit (ad_redaction attr) in
  match strategy with
  | Omit => VUndefined
  | Replace => VStr (default (defaultRedactedValue attr) (ad_redactedValue attr))
  end.

Definition isUndefined (v : JsValue) : bool :=
  match v with VUndefined => true | _ => false end.

(** Truthiness of an optional boolean member. *)
Definition truthy (b : option bool) : bool := default false b.

Definition unknownAttributeMessage (field attributeId : string) : string :=
  "[responsive-privacy] Field " +:+ dquote +:+ field +:+ dquote
  +:+ " mapped to unknown attribute " +:+ dquote +:+ attributeId +:+ dquote
  +:+ ". Passing through.".

Definition complianceMessage (attr : AttributeDefinition) (attributeId : string)
    (currentLevel : PrivacyLevel) : string :=
  "Compliance-protected attribute " +:+ dquote +:+ ad_name attr +:+ dquote
  +:+ " (" +:+ attributeId +:+ ") "
  +:+ "would be hidden at Level " +:+ showNumber currentLevel
  +:+ " (threshold: " +:+ showNumber (ad_threshold attr) +:+ "). "
  +:+ "Requires legal review before removal.".

(** The four accumulators of [applyPrivacy] and the console. *)
Record Acc := {
  acc_result : JsObject;
  acc_fields : list FieldResult;
  acc_hiddenFields : list string;
  acc_warnings : list string;
  acc_console : list string;
}.

Definition emptyAcc : Acc :=
  {| acc_result := []; acc_fields := []; acc_hiddenFields := [];
     acc_warnings := []; acc_console := [] |}.

(** The value of the variable [attributeId] as a field result stores it. *)
Definition attributeRef (attributeId : Read string) : AttributeRef :=
  match attributeId with
  | Own s => AttrId s
  | Inherited name => InheritedMember name
  | Undefined => AttrId EmptyString
  end.

(** One iteration of the loop of [applyPrivacy] over [[field, value]], for
    a collection configuration that has a [fields] mapping.
    [!attributeId] holds of an absent mapping and of the empty string.  An
    inherited member read from the catalog is truthy; its [threshold],
    [complianceProtected] and [redaction] are [undefined], so the field is
    not visible, no warning is pushed and the strategy is [omit]. *)
Definition applyField (collectionConfig : CollectionConfig) (ctx : PrivacyContext)
    (st : Acc) (entry : string * JsValue) : Acc :=
  let field := entry.1 in
  let value := entry.2 in
  let attributeId := readProp (cc_fields collectionConfig) field in
  if isFalsy attributeId then
    {| acc_result := Obj.put field value (acc_result st);
       acc_fields := acc_fields st ++
         [ {| fr_field := field; fr_attributeId := EmptyString;
              fr_visible := true; fr_value := value;
              fr_redactionApplied := None |} ];
       acc_hiddenFields := acc_hiddenFields st;
       acc_warnings := acc_warnings st;
       acc_console := acc_console st |}
  else
    match readProp (rc_attributes (ctx_config ctx)) (toPropertyKey attributeId) with
    | Undefined =>
        {| acc_result := Obj.put field value (acc_result st);
           acc_fields := acc_fields st ++
             [ {| fr_field := field; fr_attributeId := attributeRef attributeId;
                  fr_visible := true; fr_value := value;
                  fr_redactionApplied := None |} ];
           acc_hiddenFields := acc_hiddenFields st;
           acc_warnings := acc_warnings st;
           acc_console := acc_console st ++
             [ unknownAttributeMessage field (toPropertyKey attributeId) ] |}
    | Own attr =>
        let visible := ctx_currentLevel ctx >=? ad_threshold attr in
        if visible then
          {| acc_result := Obj.put field value (acc_result st);
             acc_fields := acc_fields st ++
               [ {| fr_field := field; fr_attributeId := attributeRef attributeId;
                    fr_visible := true; fr_value := value;
                    fr_redactionApplied := None |} ];
             acc_hiddenFields := acc_hiddenFields st;
             acc_warnings := acc_warnings st;
             acc_console := acc_console st |}
        else
          let warnings :=
            if truthy (ad_complianceProtected attr)
            then acc_warnings st ++
                   [ complianceMessage attr (toPropertyKey attributeId)
                       (ctx_currentLevel ctx) ]
            else acc_warnings st in
          let redactedValue := getRedactedValue attr in
          let strategy := default Omit (ad_redaction attr) in
          if bool_decide (strategy = Replace) && negb (isUndefined redactedValue)
          then
            {| acc_result := Obj.put field redactedValue (acc_result st);
               acc_fields := acc_fields st ++
                 [ {| fr_field := field; fr_attributeId := attributeRef attributeId;
                      fr_visible := false; fr_value := redactedValue;
                      fr_redactionApplied := Some Replace |} ];
               acc_hiddenFields := acc_hiddenFields st ++ [ field ];
               acc_warnings := warnings;
               acc_console := acc_console st |}
          else
            {| acc_result := acc_result st;
               acc_fields := acc_fields st ++
                 [ {| fr_field := field; fr_attributeId := attributeRef attributeId;
                      fr_visible := false; fr_value := VUndefined;
                      fr_redactionApplied := Some Omit |} ];
               acc_hiddenFields := acc_hiddenFields st ++ [ field ];
               acc_warnings := warnings;
               acc_console := acc_console st |}
    | Inherited _ =>
        {| acc_result := acc_result st;
           acc_fields := acc_fields st ++
             [ {| fr_field := field; fr_attributeId := attributeRef attributeId;
                  fr_visible := false; fr_value := VUndefined;
                  fr_redactionApplied := Some Omit |} ];
           acc_hiddenFields := acc_hiddenFields st ++ [ field ];
           acc_warnings := acc_warnings st;
           acc_console := acc_console st |}
    end.

Definition resultOf (st : Acc) : Console.t TransformResult :=
  ({| tr_data := acc_result st; tr_fields := acc_fields st;
      tr_hiddenFields := acc_hiddenFields st; tr_warnings := acc_warnings st |},
   acc_console st).

(** The loop of [applyPrivacy] and its [return], for a collection
    configuration that has a [fields] mapping. *)
Definition applyLoop (data : JsObject) (collectionConfig : CollectionConfig)
    (ctx : PrivacyContext) : Console.t TransformResult :=
  resultOf (foldl (applyField collectionConfig ctx) emptyAcc data).

(** [applyPrivacy] receives whatever truthy value [transformEntry] read.
    An inherited member has no [fields]: the first iteration reads
    [undefined[field]] and throws, before anything is printed; with no
    entry to iterate over, the empty result is returned. *)
Definition applyPrivacy (data : JsObject) (collectionConfig : Read CollectionConfig)
    (ctx : PrivacyContext) : Console.t (Completion TransformResult) :=
  match collectionConfig with
  | Own collectionConfig =>
      r ←ᶜ applyLoop data collectionConfig ctx;
      Console.ret (Normal r)
  | Inherited _ | Undefined =>
      match data with
      | [] => r ←ᶜ resultOf emptyAcc; Console.ret (Normal r)
      | _ :: _ => Console.ret TypeError
      end
  end.

(** [data[field]] as an expression, for a key of [data]: [undefined] for an
    absent key. *)
Definition readField (field : string) (data : JsObject) : JsValue :=
  default VUndefined (Obj.get field data).

Definition transformEntry (collectionName : string) (data : JsObject)
    (ctx : PrivacyContext) : Console.t (Completion TransformResult) :=
  let collectionConfig := readProp (rc_collections (ctx_config ctx)) collectionName in
  if isAbsent collectionConfig then
    Console.ret
      (Normal
         {| tr_data := Obj.spread data;
            tr_fields :=
              (λ field, {| fr_field := field; fr_attributeId := EmptyString;
                           fr_visible := true; fr_value := readField field data;
                           fr_redactionApplied := None |}) <$> Obj.keys data;
            tr_hiddenFields := [];
            tr_warnings := [] |})
  else applyPrivacy data collectionConfig ctx.

Definition transformCollection (collectionName : string) (entries : list JsObject)
    (ctx : PrivacyContext) : Console.t (Completion (list TransformResult)) :=
  tryMap (λ entry, transformEntry collectionName entry ctx) entries.

(** ** The Astro helper [shouldShow] *)

(** [collection.fields[fieldName]] throws when [collection] is an inherited
    member, whose [fields] is [undefined]. *)
Definition shouldShow (env : option string) (collectionName fieldName : string)
    (config : ResponsivePrivacyConfig) (level : option PrivacyLevel)
    : Console.t (Completion bool) :=
  lvl ←ᶜ levelOrEnv env level;
  ctx ←ᶜ createContext env config (Some lvl);
  match readProp (rc_collections (ctx_config ctx)) collectionName with
  | Undefined => Console.ret (Normal true)
  | Inherited _ => Console.ret TypeError
  | Own collection =>
      let attributeId := readProp (cc_fields collection) fieldName in
      if isFalsy attributeId then Console.ret (Normal true)
      else
        match readProp (rc_attributes (ctx_config ctx)) (toPropertyKey attributeId) with
        | Undefined => Console.ret (Normal true)
        | Own attr => Console.ret (Normal (ctx_currentLevel ctx >=? ad_threshold attr))
        | Inherited _ => Console.ret (Normal false)
        end
  end.

(** ** The configuration and the record of the test suite *)

Definition mkConfig (collections : list (string * list (string * string)))
    : ResponsivePrivacyConfig :=
  {| cfg_levels := None; cfg_attributes := None;
     cfg_collections :=
       list_to_map ((λ c, (c.1, {| cc_fields := list_to_map c.2 |})) <$> collections) |}.

Definition testConfig : ResponsivePrivacyConfig :=
  mkConfig
    [ ("team", [ ("name", "ID-01"); ("photo", "ID-02"); ("role", "ID-03");
                 ("bio", "ID-04"); ("email", "CV-01"); ("department", "OR-01") ]);
      ("posts", [ ("author", "ID-01"); ("byline", "AD-05");
                  ("publishDate", "AD-03") ]) ]%string.

Definition teamMember : JsObject :=
  [ ("name", VStr "Jane Smith");
    ("photo", VStr "/images/jane.jpg");
    ("role", VStr "Program Director");
    ("bio", VStr "Jane has 15 years of experience in humanitarian response.");
    ("email", VStr "jane@example.org");
    ("department", VStr "Programs");
    ("slug", VStr "jane-smith") ]%string.

Definition testContext (level : PrivacyLevel) : PrivacyContext :=
  Console.value (createContext None testConfig (Some level)).

(** ** Reading the loop entry by entry *)

(** What one entry contributes when nothing was accumulated before. *)
Definition delta (collectionConfig : CollectionConfig) (ctx : PrivacyContext)
    (entry : string * JsValue) : Acc :=
  applyField collectionConfig ctx emptyAcc entry.

(** The accumulators [st] followed by the contribution [d]. *)
Definition extend (st d : Acc) : Acc :=
  {| acc_result := Obj.assign (acc_result st) (acc_result d);
     acc_fields := acc_fields st ++ acc_fields d;
     acc_hiddenFields := acc_hiddenFields st ++ acc_hiddenFields d;
     acc_warnings := acc_warnings st ++ acc_warnings d;
     acc_console := acc_console st ++ acc_console d |}.

(** A message names [part] when [part] occurs in it. *)
Definition mentions (part message : string) : Prop :=
  ∃ before after, message = before +:+ part +:+ after.

(** ** Coverage, as the specification words it *)

(** The keys of the filtered record and the hidden field names are disjoint,
    their union is the set of keys of the input, and there is one field
    result per input field. *)
Definition disjointCoverage (data : JsObject) (r : TransformResult) : Prop :=
  (list_to_set (Obj.keys (tr_data r)) : gset string) ## list_to_set (tr_hiddenFields r)
  ∧ (list_to_set (Obj.keys (tr_data r)) : gset string) ∪ list_to_set (tr_hiddenFields r)
    = list_to_set (Obj.keys data)
  ∧ fr_field <$> tr_fields r = Obj.keys data.

(** The configuration of the [team] collection in [testConfig]. *)
Definition teamCollection : CollectionConfig :=
  {| cc_fields :=
       list_to_map
         [ ("name", "ID-01"); ("photo", "ID-02"); ("role", "ID-03");
           ("bio", "ID-04"); ("email", "CV-01"); ("department", "OR-01") ]%string |}.

(** The result carries a warning that names the field and the attribute
    id. *)
Definition warnsInResult (r : TransformResult) (field attributeId : string) : Prop :=
  ∃ w, w ∈ tr_warnings r ∧ mentions field w ∧ mentions attributeId w.

(** A configuration whose mapping points to an id that no catalog entry
    has. *)
Definition strayConfig : ResponsivePrivacyConfig :=
  mkConfig [ ("team", [ ("nickname", "XX-99") ]) ]%string.

Definition strayCollection : CollectionConfig :=
  {| cc_fields := list_to_map [ ("nickname", "XX-99") ]%string |}.

(** ** Auxiliary notions used in the statements *)

(** The field is mapped to a known attribute that is compliance protected
    and not visible at the level of the context. *)
Definition complianceHidden (collectionConfig : CollectionConfig)
    (ctx : PrivacyContext) (field : string) : bool :=
  let attributeId := readProp (cc_fields collectionConfig) field in
  if isFalsy attributeId then false
  else
    match readProp (rc_attributes (ctx_config ctx)) (toPropertyKey attributeId) with
    | Own attr =>
        truthy (ad_complianceProtected attr)
        && negb (ctx_currentLevel ctx >=? ad_threshold attr)
    | Inherited _ | Undefined => false
    end.


(** The string has a decimal digit somewhere. *)
Fixpoint hasDigit (s : string) : bool :=
  match s with
  | String c s' =>
      if ((48 <=? code c) && (code c <=? 57))%nat then true else hasDigit s'
  | EmptyString => false
  end.

(** On [envVal] the fallback is returned and a warning is logged. *)
Definition fallsBackWithWarning (envVal : string) (fallback : PrivacyLevel) : Prop :=
  Console.value (readPrivacyLevel (Some envVal) (Some fallback)) = fallback
  ∧ Console.output (readPrivacyLevel (Some envVal) (Some fallback)) ≠ [].

(** The configuration and the record of the compliance test. *)
Definition governanceConfig : ResponsivePrivacyConfig :=
  mkConfig [ ("governance", [ ("boardRole", "OR-02") ]) ]%string.

Definition governanceCollection : CollectionConfig :=
  {| cc_fields := list_to_map [ ("boardRole", "OR-02") ]%string |}.

Definition boardMembership : AttributeDefinition :=
  mkAttr "Board Membership" Organizational Medium 3 None None (Some true).



(** ** transformer.ts: [buildSummary] *)

(** The line feed (code 10). *)
Definition newline : string :=
  String (Ascii false true false true false false false false) EmptyString.

(** [lines.join(sep)] *)
Definition join (sep : string) (lines : list string) : string :=
  String.concat sep lines.

(** The decorations of the report, byte for byte as the source file has
    them. *)
Definition summaryIcon : string := "üîí".
Definition levelDash : string := "‚Äî".
Definition collectionIcon : string := "üìÅ".
Definition warningIcon : string := "‚ö†Ô∏è".

(** [levels.find((l) => l.level === currentLevel)] *)
Definition findLevel (levels : list PrivacyLevelDefinition) (currentLevel : PrivacyLevel)
    : option PrivacyLevelDefinition :=
  List.find (λ l, bool_decide (pld_level l = currentLevel)) levels.

(** [`${n}`] for a length or a sum of lengths. *)
Definition showCount (n : nat) : string := showNumber (Z.of_nat n).

(** [set.add(x)] on a [Set] listed in insertion order. *)
Definition setAdd (s : list string) (x : string) : list string :=
  if decide (x ∈ s) then s else s ++ [x].

Definition collectionLine (collection : string) (entries hidden : nat) : string :=
  "   " +:+ collectionIcon +:+ " " +:+ collection +:+ ": " +:+ showCount entries
  +:+ " entries, " +:+ showCount hidden +:+ " fields hidden".

Definition hiddenLine (names : list string) : string :=
  "      Hidden: " +:+ join ", " names.

Definition warningLine (w : string) : string :=
  "   " +:+ warningIcon +:+ "  " +:+ w.

Definition totalLine (totalHidden totalWarnings : nat) : string :=
  "   Total: " +:+ showCount totalHidden +:+ " fields hidden, "
  +:+ showCount totalWarnings +:+ " compliance warnings".

(** The lines and the two counters of [buildSummary]. *)
Record SummaryAcc := {
  sa_lines : list string;
  sa_totalHidden : nat;
  sa_totalWarnings : nat;
}.

(** One iteration of the loop of [buildSummary] over
    [[collection, transformResults]]. *)
Definition summarizeCollection (st : SummaryAcc)
    (entry : string * list TransformResult) : SummaryAcc :=
  let collection := entry.1 in
  let transformResults := entry.2 in
  let collectionHidden :=
    foldl (λ sum r, sum + length (tr_hiddenFields r))%nat 0%nat transformResults in
  let collectionWarnings :=
    foldl (λ sum r, sum + length (tr_warnings r))%nat 0%nat transformResults in
  let lines :=
    if (0 <? collectionHidden)%nat then
      let hiddenFieldNames :=
        foldl (λ s r, foldl setAdd s (tr_hiddenFields r)) [] transformResults in
      (sa_lines st
       ++ [ collectionLine collection (length transformResults) collectionHidden ])
      ++ [ hiddenLine hiddenFieldNames ]
    else sa_lines st in
  let lines :=
    foldl (λ ls r, foldl (λ ls w, ls ++ [ warningLine w ]) ls (tr_warnings r))
      lines transformResults in
  {| sa_lines := lines;
     sa_totalHidden := (sa_totalHidden st + collectionHidden)%nat;
     sa_totalWarnings := (sa_totalWarnings st + collectionWarnings)%nat |}.

Definition summaryHeader (ctx : PrivacyContext) : list string :=
  let level := findLevel (rc_levels (ctx_config ctx)) (ctx_currentLevel ctx) in
  [ newline +:+ summaryIcon +:+ " Responsive Privacy Build Summary";
    "   Level: " +:+ showNumber (ctx_currentLevel ctx) +:+ " " +:+ levelDash +:+ " "
    +:+ default "Unknown" (pld_name <$> level);
    "   " +:+ default EmptyString (pld_description <$> level) +:+ newline ].

(** The array [lines] of [buildSummary] when it is joined; [results] is the
    [Map] in its iteration order. *)
Definition summaryLines (results : list (string * list TransformResult))
    (ctx : PrivacyContext) : list string :=
  let st := foldl summarizeCollection
              {| sa_lines := summaryHeader ctx; sa_totalHidden := 0;
                 sa_totalWarnings := 0 |} results in
  ((sa_lines st ++ [ EmptyString ])
   ++ [ totalLine (sa_totalHidden st) (sa_totalWarnings st) ])
  ++ [ EmptyString ].

Definition buildSummary (results : list (string * list TransformResult))
    (ctx : PrivacyContext) : string :=
  join newline (summaryLines results ctx).

(** ** The other Astro helpers *)

(** A collection entry: its [data] and its other members ([id], [slug],
    ...), which the helpers copy as they are. *)
Record CollectionEntry := {
  ce_data : JsObject;
  ce_rest : JsObject;
}.

(** [T & { _privacy: TransformResult }] *)
Record FilteredEntry := {
  fe_rest : JsObject;
  fe_data : JsObject;
  fe_privacy : TransformResult;
}.

Definition attachPrivacy (entry : CollectionEntry) (result : TransformResult)
    : FilteredEntry :=
  {| fe_rest := ce_rest entry; fe_data := tr_data result; fe_privacy := result |}.

Definition filterEntry (env : option string) (collectionName : string)
    (entry : CollectionEntry) (config : ResponsivePrivacyConfig)
    (level : option PrivacyLevel) : Console.t (Completion FilteredEntry) :=
  lvl ←ᶜ levelOrEnv env level;
  ctx ←ᶜ createContext env config (Some lvl);
  result ←ᵗ transformEntry collectionName (ce_data entry) ctx;
  Console.ret (Normal (attachPrivacy entry result)).

Definition filterCollection (env : option string) (collectionName : string)
    (entries : list CollectionEntry) (config : ResponsivePrivacyConfig)
    (level : option PrivacyLevel) : Console.t (Completion (list FilteredEntry)) :=
  lvl ←ᶜ levelOrEnv env level;
  ctx ←ᶜ createContext env config (Some lvl);
  tryMap
    (λ entry,
       result ←ᵗ transformEntry collectionName (ce_data entry) ctx;
       Console.ret (Normal (attachPrivacy entry result)))
    entries.

Record PrivacyStatus := {
  ps_level : PrivacyLevel;
  ps_name : string;
  ps_description : string;
  ps_isReduced : bool;
}.

Definition getPrivacyStatus (env : option string) (config : ResponsivePrivacyConfig)
    (level : option PrivacyLevel) : Console.t PrivacyStatus :=
  lvl ←ᶜ levelOrEnv env level;
  ctx ←ᶜ createContext env config (Some lvl);
  let levelDef := findLevel (rc_levels (ctx_config ctx)) (ctx_currentLevel ctx) in
  Console.ret
    {| ps_level := ctx_currentLevel ctx;
       ps_name := default "Unknown" (pld_name <$> levelDef);
       ps_description := default EmptyString (pld_description <$> levelDef);
       ps_isReduced := ctx_currentLevel ctx <? 4 |}.

(** ** Auxiliary notions for the further properties *)

(** The entry of the filtered record that a field result stands for, if
    any: none for an omitted field. *)
Definition keptEntry (fr : FieldResult) : option (string * JsValue) :=
  if decide (fr_redactionApplied fr = Some Omit) then None
  else Some (fr_field fr, fr_value fr).

(** The context [ctx] at another level. *)
Definition atLevel (level : PrivacyLevel) (ctx : PrivacyContext) : PrivacyContext :=
  {| ctx_currentLevel := level; ctx_config := ctx_config ctx |}.

(** The lines that one collection adds to the report. *)
Definition collectionLines (entry : string * list TransformResult) : list string :=
  sa_lines (summarizeCollection
              {| sa_lines := []; sa_totalHidden := 0; sa_totalWarnings := 0 |} entry).

(** ** Auxiliary notions for compliance warnings *)

(** The numerals of the five levels. *)
Definition levelNumerals : list string := [ "0"; "1"; "2"; "3"; "4" ].

(** The field is hidden and the result carries a warning that names the
    attribute and its id. *)
Definition hiddenWithWarning (r : TransformResult) (field : string)
    (attr : AttributeDefinition) (attributeId : string) : Prop :=
  field ∈ tr_hiddenFields r
  ∧ ∃ w, w ∈ tr_warnings r ∧ mentions (ad_name attr) w ∧ mentions attributeId w.

(** A configuration whose catalog files a protected attribute under the
    empty id, and whose mapping points a field to that id. *)
Definition emptyIdConfig : ResponsivePrivacyConfig :=
  {| cfg_levels := None;
     cfg_attributes := Some {[ EmptyString := boardMembership ]};
     cfg_collections :=
       {[ "governance" := {| cc_fields := {[ "boardRole" := EmptyString ]} |} ]} |}.

Definition emptyIdCollection : CollectionConfig :=
  {| cc_fields := {[ "boardRole" := EmptyString ]} |}.

(** ** Auxiliary notions for the console and for lists of calls *)

(** The field is mapped to something truthy under which the catalog has
    nothing, own or inherited. *)
Definition isUnresolved (collectionConfig : CollectionConfig) (ctx : PrivacyContext)
    (field : string) : bool :=
  let attributeId := readProp (cc_fields collectionConfig) field in
  negb (isFalsy attributeId)
  && match readProp (rc_attributes (ctx_config ctx)) (toPropertyKey attributeId) with
     | Undefined => true
     | Own _ | Inherited _ => false
     end.

(** The values of a list of completions, unless one of them is a throw. *)
Fixpoint sequence {A} (l : list (Completion A)) : Completion (list A) :=
  match l with
  | [] => Normal []
  | TypeError :: _ => TypeError
  | Normal a :: rest =>
      match sequence rest with
      | Normal rs => Normal (a :: rs)
      | TypeError => TypeError
      end
  end.

(** * Properties *)

(** ** The assertions of the test suite, by evaluation *)

Example test_isAttributeVisible :
  isAttributeVisible "ID-03" 1 DEFAULT_ATTRIBUTES = true
  ∧ isAttributeVisible "OR-01" 1 DEFAULT_ATTRIBUTES = true
  ∧ isAttributeVisible "ID-01" 1 DEFAULT_ATTRIBUTES = false
  ∧ isAttributeVisible "ID-02" 1 DEFAULT_ATTRIBUTES = false
  ∧ isAttributeVisible "UNKNOWN-99" 0 DEFAULT_ATTRIBUTES = true.
Proof. by vm_compute. Qed.

Example test_level4 :
  ∃ r, Console.value (transformEntry "team" teamMember (testContext 4)) = Normal r
  ∧ tr_hiddenFields r = [] ∧ tr_data r = teamMember.
Proof. eexists. split; [by vm_compute|]. by vm_compute. Qed.

Example test_level2 :
  ∃ r, Console.value (transformEntry "team" teamMember (testContext 2)) = Normal r
  ∧ tr_hiddenFields r = ["bio"; "email"]
  ∧ tr_data r
    = [ ("name", VStr "Jane Smith"); ("photo", VStr "/images/jane.jpg");
        ("role", VStr "Program Director");
        ("email", VStr "Contact the organization");
        ("department", VStr "Programs"); ("slug", VStr "jane-smith") ].
Proof. eexists. split; [by vm_compute|]. by vm_compute. Qed.

Example test_level1 :
  ∃ r, Console.value (transformEntry "team" teamMember (testContext 1)) = Normal r
  ∧ tr_hiddenFields r = ["name"; "photo"; "bio"; "email"]
  ∧ tr_data r
    = [ ("name", VStr "Staff Member"); ("role", VStr "Program Director");
        ("email", VStr "Contact the organization");
        ("department", VStr "Programs"); ("slug", VStr "jane-smith") ].
Proof. eexists. split; [by vm_compute|]. by vm_compute. Qed.

Example test_level0 :
  ∃ r, Console.value (transformEntry "team" teamMember (testContext 0)) = Normal r
  ∧ tr_hiddenFields r = ["name"; "photo"; "role"; "bio"; "email"; "department"]
  ∧ tr_data r
    = [ ("name", VStr "Staff Member");
        ("email", VStr "Contact the organization");
        ("slug", VStr "jane-smith") ].
Proof. eexists. split; [by vm_compute|]. by vm_compute. Qed.

(** ** Records *)

Section obj_facts.
Implicit Types (o : JsObject) (k : string) (v : JsValue).

Lemma get_set o k k' v :
  Obj.get k' (Obj.set k v o) = if decide (k = k') then Some v else Obj.get k' o.
Proof.
  induction o as [|[k0 v0] o IH]; simpl.
  - repeat case_decide; congruence.
  - repeat (case_decide; simpl); try congruence.
Qed.

Lemma elem_of_keys_set o k k' v :
  k' ∈ Obj.keys (Obj.set k v o) ↔ k' = k ∨ k' ∈ Obj.keys o.
Proof.
  unfold Obj.keys. induction o as [|[k0 v0] o IH]; simpl.
  - rewrite list_elem_of_singleton, elem_of_nil. tauto.
  - case_decide; simpl; rewrite !elem_of_cons; [subst|rewrite IH]; tauto.
Qed.

Lemma set_fresh o k v : k ∉ Obj.keys o → Obj.set k v o = o ++ [(k, v)].
Proof.
  unfold Obj.keys. induction o as [|[k0 v0] o IH]; simpl; [done|].
  rewrite not_elem_of_cons. intros [Hne Hnin].
  case_decide; [congruence|]. by rewrite IH.
Qed.

Lemma get_is_Some o k : is_Some (Obj.get k o) ↔ k ∈ Obj.keys o.
Proof.
  unfold Obj.keys. induction o as [|[k0 v0] o IH]; simpl.
  - rewrite elem_of_nil. split; [by intros [? ?]|done].
  - rewrite elem_of_cons. case_decide; subst.
    + split; eauto.
    + rewrite IH. split; [tauto|]. intros [->|?]; done.
Qed.

Lemma get_None o k : Obj.get k o = None ↔ k ∉ Obj.keys o.
Proof. rewrite <-get_is_Some, eq_None_not_Some. done. Qed.

Lemma get_elem_of o k v : Obj.wf o → Obj.get k o = Some v ↔ (k, v) ∈ o.
Proof.
  unfold Obj.wf, Obj.keys. induction o as [|[k0 v0] o IH]; simpl.
  - intros _. rewrite elem_of_nil. done.
  - rewrite NoDup_cons, elem_of_cons. intros [Hnin Hnd].
    case_decide; subst.
    + split; [intros [= ->]; by left|].
      intros [[= ->]|Hin]; [done|].
      destruct Hnin. apply list_elem_of_fmap. by exists (k, v).
    + rewrite (IH Hnd). split; [tauto|]. intros [[= -> ->]|?]; done.
Qed.

Lemma assign_app o l1 l2 :
  Obj.assign o (l1 ++ l2) = Obj.assign (Obj.assign o l1) l2.
Proof. apply foldl_app. Qed.

Lemma elem_of_keys_assign o l k :
  k ∈ Obj.keys (Obj.assign o l) ↔ k ∈ Obj.keys o ∨ k ∈ Obj.keys l.
Proof.
  revert o. induction l as [|[k0 v0] l IH]; intros o; simpl.
  - unfold Obj.keys, Obj.assign. simpl. rewrite elem_of_nil. tauto.
  - unfold Obj.assign in *. simpl. rewrite IH, elem_of_keys_set.
    unfold Obj.keys. simpl. rewrite elem_of_cons. tauto.
Qed.

Lemma assign_fresh o l :
  NoDup (Obj.keys o ++ Obj.keys l) → Obj.assign o l = o ++ l.
Proof.
  revert o. induction l as [|[k0 v0] l IH]; intros o; simpl.
  - intros _. unfold Obj.assign. simpl. by rewrite app_nil_r.
  - intros Hnd. unfold Obj.assign in *. simpl.
    assert (k0 ∉ Obj.keys o) as Hk0.
    { apply NoDup_app in Hnd as (_ & Hd & _). intros Hin.
      apply (Hd _ Hin). unfold Obj.keys. simpl. by left. }
    rewrite (set_fresh _ _ _ Hk0), IH, <-app_assoc; [done|].
    unfold Obj.keys in *. rewrite fmap_app, <-app_assoc. exact Hnd.
Qed.

Lemma NoDup_keys_set o k v : Obj.wf o → Obj.wf (Obj.set k v o).
Proof.
  unfold Obj.wf, Obj.keys. induction o as [|[k0 v0] o IH]; simpl.
  - intros _. apply NoDup_singleton.
  - rewrite NoDup_cons. intros [Hnin Hnd].
    case_decide; simpl; rewrite NoDup_cons; [done|].
    split; [|by apply IH].
    intros Hin. apply (elem_of_keys_set o k k0 v) in Hin as [->|Hin]; done.
Qed.

Lemma NoDup_keys_assign o l : Obj.wf o → Obj.wf (Obj.assign o l).
Proof.
  revert o. induction l as [|[k0 v0] l IH]; intros o Hwf; [done|].
  unfold Obj.assign in *. simpl. apply IH. by apply NoDup_keys_set.
Qed.

(** Copying a record with [{ ...o }] yields an equal record. *)
Lemma spread_wf o : Obj.wf o → Obj.spread o = o.
Proof. intros Hwf. unfold Obj.spread. by rewrite assign_fresh. Qed.
End obj_facts.


(** Well-formedness of a given record, by evaluation. *)
Ltac solve_wf :=
  unfold Obj.wf, Obj.keys; apply (bool_decide_unpack _); vm_compute; exact I.

(** ** Property reads *)

Lemma readProp_Some {A} (o : gmap string A) k a : o !! k = Some a → readProp o k = Own a.
Proof. intros H. unfold readProp. by rewrite H. Qed.

Lemma readProp_Own {A} (o : gmap string A) k a : readProp o k = Own a ↔ o !! k = Some a.
Proof.
  unfold readProp. destruct (o !! k); [|destruct (isPrototypeName k)];
    split; congruence.
Qed.

Lemma readProp_Inherited {A} (o : gmap string A) k name :
  readProp o k = Inherited name ↔ o !! k = None ∧ isPrototypeName k = true ∧ name = k.
Proof.
  unfold readProp. destruct (o !! k); [|destruct (isPrototypeName k)].
  - split; [done|]. by intros (? & _).
  - split; [by intros [= <-]|]. by intros (_ & _ & ->).
  - split; [done|]. by intros (_ & ? & _).
Qed.

Lemma readProp_Undefined {A} (o : gmap string A) k :
  readProp o k = Undefined ↔ o !! k = None ∧ isPrototypeName k = false.
Proof.
  unfold readProp. destruct (o !! k); [|destruct (isPrototypeName k)].
  - split; [done|]. by intros (? & _).
  - split; [done|]. by intros (_ & ?).
  - done.
Qed.

Lemma readProp_None {A} (o : gmap string A) k :
  o !! k = None → isPrototypeName k = false → readProp o k = Undefined.
Proof. intros. by apply readProp_Undefined. Qed.

Lemma isFalsy_Own id : isFalsy (Own id) = false ↔ id ≠ EmptyString.
Proof. simpl. rewrite bool_decide_eq_false. done. Qed.

Lemma isFalsy_mapped (fields : gmap string string) f id :
  fields !! f = Some id → id ≠ EmptyString → isFalsy (readProp fields f) = false.
Proof. intros H ?. rewrite (readProp_Some _ _ _ H). by apply isFalsy_Own. Qed.

(** Whatever a field mapping yields, the key it is used as is not a name
    of [Object.prototype] unless it is an own string of the mapping. *)
Lemma inheritedToString_not_prototype name :
  isPrototypeName (inheritedToString name) = false.
Proof.
  unfold inheritedToString. repeat case_decide; [done|done|].
  apply bool_decide_eq_false. unfold prototypeNames.
  rewrite !elem_of_cons, elem_of_nil.
  intros Hin. repeat destruct Hin as [Hin|Hin]; try done;
    cbv in Hin; discriminate Hin.
Qed.

(** ** Records and assignment *)

Arguments Obj.put : simpl never.

Lemma put_nil k v :
  Obj.put k v [] = if decide (k = "__proto__") then [] else [(k, v)].
Proof. unfold Obj.put. by case_decide. Qed.

Lemma put_assign o k v : Obj.put k v o = Obj.assign o (Obj.put k v []).
Proof. unfold Obj.put. by case_decide. Qed.

Lemma keys_put_nil k v k' :
  k' ∈ Obj.keys (Obj.put k v []) ↔ k' = k ∧ k ≠ "__proto__".
Proof.
  rewrite put_nil. case_decide; unfold Obj.keys; simpl.
  - rewrite elem_of_nil. tauto.
  - rewrite list_elem_of_singleton. tauto.
Qed.

(** ** The loop of [applyPrivacy] *)

Section loop.
Context (cc : CollectionConfig) (ctx : PrivacyContext).

Implicit Types (st : Acc) (e : string * JsValue) (data : JsObject).

(** Case analysis following the branches of [applyField] on entry [e]. *)
Ltac field_cases e :=
  let attr := fresh "attr" in
  let name := fresh "name" in
  let Hmap := fresh "Hmap" in
  let Hattr := fresh "Hattr" in
  let Hvis := fresh "Hvis" in
  let Hred := fresh "Hred" in
  let Hcp := fresh "Hcp" in
  unfold delta, applyField;
  destruct (isFalsy (readProp (cc_fields cc) e.1)) eqn:Hmap;
  [ | destruct (readProp (rc_attributes (ctx_config ctx)) _) as [attr|name|] eqn:Hattr;
      [ destruct (ctx_currentLevel ctx >=? ad_threshold attr) eqn:Hvis;
        [ | unfold getRedactedValue;
            destruct (ad_redaction attr) as [[|]|] eqn:Hred;
            destruct (ad_complianceProtected attr) as [[|]|] eqn:Hcp ]
      | | ] ];
  simpl.

Lemma applyField_extend st e : applyField cc ctx st e = extend st (delta cc ctx e).
Proof.
  unfold extend. field_cases e; simpl; f_equal;
    rewrite ?app_nil_r, <-?put_assign; done.
Qed.

(** Each accumulator after the loop is what it was before, followed by the
    contributions of the entries in order. *)
Ltac by_contributions data :=
  let IH := fresh "IH" in
  let st := fresh "st" in
  induction data as [|? data IH]; intros st;
  [ simpl; by rewrite ?app_nil_r
  | rewrite bind_cons; cbn [foldl];
    rewrite IH, applyField_extend; cbn [extend acc_fields acc_hiddenFields
      acc_warnings acc_console]; by rewrite ?app_assoc ].

Lemma foldl_fields data st :
  acc_fields (foldl (applyField cc ctx) st data)
  = acc_fields st ++ (data ≫= (λ e, acc_fields (delta cc ctx e))).
Proof. revert st. by_contributions data. Qed.

Lemma foldl_hiddenFields data st :
  acc_hiddenFields (foldl (applyField cc ctx) st data)
  = acc_hiddenFields st ++ (data ≫= (λ e, acc_hiddenFields (delta cc ctx e))).
Proof. revert st. by_contributions data. Qed.

Lemma foldl_warnings data st :
  acc_warnings (foldl (applyField cc ctx) st data)
  = acc_warnings st ++ (data ≫= (λ e, acc_warnings (delta cc ctx e))).
Proof. revert st. by_contributions data. Qed.

Lemma foldl_console data st :
  acc_console (foldl (applyField cc ctx) st data)
  = acc_console st ++ (data ≫= (λ e, acc_console (delta cc ctx e))).
Proof. revert st. by_contributions data. Qed.

Lemma foldl_result data st :
  acc_result (foldl (applyField cc ctx) st data)
  = Obj.assign (acc_result st) (data ≫= (λ e, acc_result (delta cc ctx e))).
Proof.
  revert st. induction data as [|e data IH]; intros st; [done|].
  rewrite bind_cons, assign_app. cbn [foldl].
  by rewrite IH, applyField_extend.
Qed.

(** *** What one entry contributes, branch by branch *)

Lemma delta_unmapped f v :
  isFalsy (readProp (cc_fields cc) f) = true →
  delta cc ctx (f, v)
  = {| acc_result := Obj.put f v [];
       acc_fields := [ {| fr_field := f; fr_attributeId := EmptyString;
                          fr_visible := true; fr_value := v;
                          fr_redactionApplied := None |} ];
       acc_hiddenFields := []; acc_warnings := []; acc_console := [] |}.
Proof. intros H. unfold delta, applyField. cbn [fst snd]. by rewrite H. Qed.

Lemma delta_unknown f v :
  let attributeId := readProp (cc_fields cc) f in
  isFalsy attributeId = false →
  readProp (rc_attributes (ctx_config ctx)) (toPropertyKey attributeId) = Undefined →
  delta cc ctx (f, v)
  = {| acc_result := Obj.put f v [];
       acc_fields := [ {| fr_field := f; fr_attributeId := attributeRef attributeId;
                          fr_visible := true; fr_value := v;
                          fr_redactionApplied := None |} ];
       acc_hiddenFields := []; acc_warnings := [];
       acc_console := [ unknownAttributeMessage f (toPropertyKey attributeId) ] |}.
Proof.
  intros a Hmap Hattr. unfold delta, applyField. cbn [fst snd].
  fold a. by rewrite Hmap, Hattr.
Qed.

Lemma delta_visible f v attr :
  let attributeId := readProp (cc_fields cc) f in
  isFalsy attributeId = false →
  readProp (rc_attributes (ctx_config ctx)) (toPropertyKey attributeId) = Own attr →
  ad_threshold attr ≤ ctx_currentLevel ctx →
  delta cc ctx (f, v)
  = {| acc_result := Obj.put f v [];
       acc_fields := [ {| fr_field := f; fr_attributeId := attributeRef attributeId;
                          fr_visible := true; fr_value := v;
                          fr_redactionApplied := None |} ];
       acc_hiddenFields := []; acc_warnings := []; acc_console := [] |}.
Proof.
  intros a Hmap Hattr Hle. unfold delta, applyField. cbn [fst snd].
  fold a. rewrite Hmap, Hattr.
  by rewrite (proj2 (Z.geb_le _ _) Hle).
Qed.

Lemma delta_hidden f v attr :
  let attributeId := readProp (cc_fields cc) f in
  isFalsy attributeId = false →
  readProp (rc_attributes (ctx_config ctx)) (toPropertyKey attributeId) = Own attr →
  ctx_currentLevel ctx < ad_threshold attr →
  delta cc ctx (f, v)
  = {| acc_result :=
         if decide (default Omit (ad_redaction attr) = Replace)
         then Obj.put f (getRedactedValue attr) [] else [];
       acc_fields := [ {| fr_field := f; fr_attributeId := attributeRef attributeId;
                          fr_visible := false; fr_value := getRedactedValue attr;
                          fr_redactionApplied :=
                            Some (default Omit (ad_redaction attr)) |} ];
       acc_hiddenFields := [ f ];
       acc_warnings :=
         if truthy (ad_complianceProtected attr)
         then [ complianceMessage attr (toPropertyKey attributeId)
                  (ctx_currentLevel ctx) ]
         else [];
       acc_console := [] |}.
Proof.
  intros a Hmap Hattr Hlt. unfold delta, applyField. cbn [fst snd].
  fold a. rewrite Hmap, Hattr.
  assert ((ctx_currentLevel ctx >=? ad_threshold attr) = false) as ->.
  { rewrite Z.geb_leb. apply Z.leb_gt. done. }
  unfold getRedactedValue.
  destruct (ad_redaction attr) as [[|]|];
    destruct (truthy (ad_complianceProtected attr)); done.
Qed.

(** A field mapped to a name that the catalog inherits is hidden by
    omission, without a warning. *)
Lemma delta_inherited f v name :
  let attributeId := readProp (cc_fields cc) f in
  isFalsy attributeId = false →
  readProp (rc_attributes (ctx_config ctx)) (toPropertyKey attributeId)
  = Inherited name →
  delta cc ctx (f, v)
  = {| acc_result := [];
       acc_fields := [ {| fr_field := f; fr_attributeId := attributeRef attributeId;
                          fr_visible := false; fr_value := VUndefined;
                          fr_redactionApplied := Some Omit |} ];
       acc_hiddenFields := [ f ]; acc_warnings := []; acc_console := [] |}.
Proof.
  intros a Hmap Hattr. unfold delta, applyField. cbn [fst snd].
  fold a. by rewrite Hmap, Hattr.
Qed.

(** *** What one entry contributes, in every branch *)

Lemma delta_fields e :
  ∃ fr, acc_fields (delta cc ctx e) = [fr] ∧ fr_field fr = e.1.
Proof. field_cases e; eauto. Qed.

(** The three ways an entry is accounted for: kept as it is or with its
    mapped attribute visible; hidden and replaced; hidden and omitted. *)
Lemma delta_shape e :
  ∃ fr, acc_fields (delta cc ctx e) = [fr] ∧ fr_field fr = e.1
  ∧ ((fr_visible fr = true ∧ fr_redactionApplied fr = None
      ∧ fr_value fr = e.2
      ∧ acc_result (delta cc ctx e) = Obj.put e.1 e.2 []
      ∧ acc_hiddenFields (delta cc ctx e) = [])
     ∨ (fr_visible fr = false ∧ fr_redactionApplied fr = Some Replace
        ∧ acc_result (delta cc ctx e) = Obj.put e.1 (fr_value fr) []
        ∧ acc_hiddenFields (delta cc ctx e) = [e.1])
     ∨ (fr_visible fr = false ∧ fr_redactionApplied fr = Some Omit
        ∧ acc_result (delta cc ctx e) = []
        ∧ acc_hiddenFields (delta cc ctx e) = [e.1])).
Proof.
  field_cases e; eexists; (split; [reflexivity|]); simpl; (split; [done|]);
    first [ by left | by right; left | by right; right ].
Qed.

Lemma delta_kept_or_hidden_inv e k :
  k ∈ Obj.keys (acc_result (delta cc ctx e)) ∨ k ∈ acc_hiddenFields (delta cc ctx e) →
  k = e.1.
Proof.
  destruct (delta_shape e) as (fr & _ & _ & [(_ & _ & _ & -> & ->)
    |[(_ & _ & -> & ->)|(_ & _ & -> & ->)]]);
    rewrite ?keys_put_nil, ?list_elem_of_singleton; unfold Obj.keys; simpl;
    rewrite ?elem_of_nil; tauto.
Qed.

Lemma delta_kept_or_hidden e k :
  e.1 ≠ "__proto__" →
  k ∈ Obj.keys (acc_result (delta cc ctx e)) ∨ k ∈ acc_hiddenFields (delta cc ctx e)
  ↔ k = e.1.
Proof.
  intros Hp.
  destruct (delta_shape e) as (fr & _ & _ & [(_ & _ & _ & -> & ->)
    |[(_ & _ & -> & ->)|(_ & _ & -> & ->)]]);
    rewrite ?keys_put_nil, ?list_elem_of_singleton; unfold Obj.keys; simpl;
    rewrite ?elem_of_nil; tauto.
Qed.

Lemma delta_kept_and_hidden e k :
  e.1 ≠ "__proto__" →
  k ∈ Obj.keys (acc_result (delta cc ctx e)) ∧ k ∈ acc_hiddenFields (delta cc ctx e)
  ↔ k = e.1 ∧ ∃ fr, acc_fields (delta cc ctx e) = [fr] ∧ fr_visible fr = false
                   ∧ fr_redactionApplied fr = Some Replace.
Proof.
  intros Hp.
  destruct (delta_shape e) as (fr & Hfr & _ & [(Hv & Hr & _ & -> & ->)
    |[(Hv & Hr & -> & ->)|(Hv & Hr & -> & ->)]]);
    rewrite ?keys_put_nil, ?list_elem_of_singleton; unfold Obj.keys; simpl;
    rewrite ?elem_of_nil, Hfr.
  - split; [tauto|]. intros [_ (fr' & [= <-] & ? & ?)]. congruence.
  - split; [|tauto]. intros [[-> _] _]. split; eauto.
  - split; [tauto|]. intros [_ (fr' & [= <-] & ? & ?)]. congruence.
Qed.

Lemma delta_result_sublist e :
  Obj.keys (acc_result (delta cc ctx e)) `sublist_of` [e.1].
Proof.
  destruct (delta_shape e) as (fr & _ & _ & [(_ & _ & _ & -> & _)
    |[(_ & _ & -> & _)|(_ & _ & -> & _)]]);
    rewrite ?put_nil; try case_decide; unfold Obj.keys; simpl;
    first [ by apply sublist_skip | apply sublist_nil_l ].
Qed.

Lemma delta_hiddenFields_sublist e :
  acc_hiddenFields (delta cc ctx e) `sublist_of` [e.1].
Proof.
  destruct (delta_shape e) as (fr & _ & _ & [(_ & _ & _ & _ & ->)
    |[(_ & _ & _ & ->)|(_ & _ & _ & ->)]]);
    first [ by apply sublist_skip | apply sublist_nil_l ].
Qed.

(** *** The whole record *)

Lemma applyLoop_fields data :
  tr_fields (Console.value (applyLoop data cc ctx))
  = data ≫= (λ e, acc_fields (delta cc ctx e)).
Proof. unfold applyLoop. simpl. by rewrite foldl_fields. Qed.

Lemma applyLoop_hiddenFields data :
  tr_hiddenFields (Console.value (applyLoop data cc ctx))
  = data ≫= (λ e, acc_hiddenFields (delta cc ctx e)).
Proof. unfold applyLoop. simpl. by rewrite foldl_hiddenFields. Qed.

Lemma applyLoop_warnings data :
  tr_warnings (Console.value (applyLoop data cc ctx))
  = data ≫= (λ e, acc_warnings (delta cc ctx e)).
Proof. unfold applyLoop. simpl. by rewrite foldl_warnings. Qed.

Lemma applyLoop_console data :
  Console.output (applyLoop data cc ctx)
  = data ≫= (λ e, acc_console (delta cc ctx e)).
Proof. unfold applyLoop. simpl. by rewrite foldl_console. Qed.

Lemma kept_sublist data :
  Obj.keys (data ≫= (λ e, acc_result (delta cc ctx e))) `sublist_of` Obj.keys data.
Proof.
  unfold Obj.keys. induction data as [|e data IH]; [done|].
  rewrite bind_cons, fmap_app, fmap_cons.
  apply (sublist_app _ [e.1]); [apply delta_result_sublist|done].
Qed.

Lemma hidden_sublist data :
  (data ≫= (λ e, acc_hiddenFields (delta cc ctx e))) `sublist_of` Obj.keys data.
Proof.
  unfold Obj.keys. induction data as [|e data IH]; [done|].
  rewrite bind_cons, fmap_cons.
  apply (sublist_app _ [e.1]); [apply delta_hiddenFields_sublist|done].
Qed.

(** The filtered record lists what the entries contribute, in their order. *)
Lemma applyLoop_data data :
  Obj.wf data →
  tr_data (Console.value (applyLoop data cc ctx))
  = data ≫= (λ e, acc_result (delta cc ctx e)).
Proof.
  intros Hwf. unfold applyLoop. simpl. rewrite foldl_result. simpl.
  apply assign_fresh. simpl. eapply sublist_NoDup; [exact Hwf|apply kept_sublist].
Qed.

Lemma field_names data :
  fr_field <$> (data ≫= (λ e, acc_fields (delta cc ctx e))) = Obj.keys data.
Proof.
  unfold Obj.keys. induction data as [|e data IH]; [done|].
  rewrite bind_cons, fmap_app, IH.
  destruct (delta_fields e) as (fr & -> & Hfr). simpl. by rewrite Hfr.
Qed.

Lemma wf_entry_inj data (e1 e2 : string * JsValue) :
  Obj.wf data → e1 ∈ data → e2 ∈ data → e1.1 = e2.1 → e1 = e2.
Proof.
  destruct e1 as [k v1], e2 as [k' v2]. simpl. intros Hwf H1 H2 <-.
  apply (get_elem_of _ _ _ Hwf) in H1, H2. congruence.
Qed.

Lemma elem_of_keys (o : JsObject) k : k ∈ Obj.keys o ↔ ∃ e, e ∈ o ∧ e.1 = k.
Proof.
  unfold Obj.keys. rewrite list_elem_of_fmap. split; intros (e & ? & ?); eauto.
Qed.

Lemma elem_of_kept data k :
  Obj.wf data →
  k ∈ Obj.keys (tr_data (Console.value (applyLoop data cc ctx)))
  ↔ ∃ e, e ∈ data ∧ k ∈ Obj.keys (acc_result (delta cc ctx e)).
Proof.
  intros Hwf. rewrite (applyLoop_data _ Hwf), elem_of_keys. split.
  - intros (p & (e & Hp & He)%list_elem_of_bind & <-).
    exists e. split; [done|]. apply elem_of_keys. eauto.
  - intros (e & He & (p & Hp & <-)%elem_of_keys).
    exists p. split; [|done]. apply list_elem_of_bind. eauto.
Qed.

Lemma elem_of_hidden data k :
  k ∈ tr_hiddenFields (Console.value (applyLoop data cc ctx))
  ↔ ∃ e, e ∈ data ∧ k ∈ acc_hiddenFields (delta cc ctx e).
Proof.
  rewrite applyLoop_hiddenFields, list_elem_of_bind.
  split; intros (e & ? & ?); eauto.
Qed.

Lemma elem_of_fields data fr :
  fr ∈ tr_fields (Console.value (applyLoop data cc ctx))
  ↔ ∃ e, e ∈ data ∧ fr ∈ acc_fields (delta cc ctx e).
Proof.
  rewrite applyLoop_fields, list_elem_of_bind.
  split; intros (e & ? & ?); eauto.
Qed.

(** *** One entry of a record and the result for the record *)

Lemma get_kept data e k v' :
  Obj.wf data → e ∈ data → acc_result (delta cc ctx e) = [(k, v')] →
  Obj.get k (tr_data (Console.value (applyLoop data cc ctx))) = Some v'.
Proof.
  intros Hwf He Hres. rewrite (applyLoop_data _ Hwf).
  apply get_elem_of.
  - eapply sublist_NoDup; [exact Hwf|apply kept_sublist].
  - apply list_elem_of_bind. exists e. split; [|done]. rewrite Hres. by left.
Qed.

Lemma get_omitted data e :
  Obj.wf data → e ∈ data → acc_result (delta cc ctx e) = [] →
  Obj.get e.1 (tr_data (Console.value (applyLoop data cc ctx))) = None.
Proof.
  intros Hwf He Hres. apply get_None.
  intros (e' & He' & Hk)%elem_of_kept; [|done].
  assert (e' = e) as ->.
  { apply (wf_entry_inj data); try done.
    symmetry. apply (delta_kept_or_hidden_inv e' e.1). auto. }
  rewrite Hres in Hk. by apply elem_of_nil in Hk.
Qed.

(** The own property of the filtered record at the name of an entry is
    what the entry contributed. *)
Lemma get_contribution data e :
  Obj.wf data → e ∈ data →
  Obj.get e.1 (tr_data (Console.value (applyLoop data cc ctx)))
  = Obj.get e.1 (acc_result (delta cc ctx e)).
Proof.
  intros Hwf He.
  destruct (acc_result (delta cc ctx e)) as [|[k v'] rest] eqn:Hres.
  - by apply get_omitted.
  - assert (rest = [] ∧ k = e.1) as [-> ->].
    { pose proof (delta_result_sublist e) as Hsub. rewrite Hres in Hsub.
      unfold Obj.keys in Hsub. simpl in Hsub.
      pose proof (sublist_length _ _ Hsub) as Hlen. simpl in Hlen.
      destruct rest; [|simpl in Hlen; lia]. split; [done|].
      apply (delta_kept_or_hidden_inv e). left. rewrite Hres.
      unfold Obj.keys. simpl. by left. }
    rewrite (get_kept data e e.1 v' Hwf He Hres). simpl.
    by rewrite decide_True.
Qed.

Lemma in_hidden data e :
  e ∈ data → acc_hiddenFields (delta cc ctx e) = [e.1] →
  e.1 ∈ tr_hiddenFields (Console.value (applyLoop data cc ctx)).
Proof.
  intros He Hhid. apply elem_of_hidden. exists e. split; [done|].
  rewrite Hhid. by left.
Qed.

Lemma not_in_hidden data e :
  Obj.wf data → e ∈ data → acc_hiddenFields (delta cc ctx e) = [] →
  e.1 ∉ tr_hiddenFields (Console.value (applyLoop data cc ctx)).
Proof.
  intros Hwf He Hhid (e' & He' & Hk)%elem_of_hidden.
  assert (e' = e) as ->.
  { apply (wf_entry_inj data); try done.
    symmetry. apply (delta_kept_or_hidden_inv e' e.1). auto. }
  rewrite Hhid in Hk. by apply elem_of_nil in Hk.
Qed.

Lemma field_result_unique data e fr :
  Obj.wf data → e ∈ data → acc_fields (delta cc ctx e) = [fr] →
  fr ∈ tr_fields (Console.value (applyLoop data cc ctx))
  ∧ ∀ fr', fr' ∈ tr_fields (Console.value (applyLoop data cc ctx)) →
           fr_field fr' = e.1 → fr' = fr.
Proof.
  intros Hwf He Hfr. split.
  - apply elem_of_fields. exists e. split; [done|]. rewrite Hfr. by left.
  - intros fr' (e' & He' & Hin)%elem_of_fields Hf.
    destruct (delta_fields e') as (fr0 & Hfr0 & Hf0).
    rewrite Hfr0 in Hin. apply list_elem_of_singleton in Hin as ->.
    assert (e' = e) as -> by (apply (wf_entry_inj data); congruence).
    congruence.
Qed.

(** Every warning of the result is a compliance warning, raised by an entry
    whose attribute is protected and hidden. *)
Lemma delta_warnings_compliance e w :
  w ∈ acc_warnings (delta cc ctx e) →
  let attributeId := readProp (cc_fields cc) e.1 in
  ∃ attr, isFalsy attributeId = false
    ∧ readProp (rc_attributes (ctx_config ctx)) (toPropertyKey attributeId) = Own attr
    ∧ ad_complianceProtected attr = Some true
    ∧ ctx_currentLevel ctx < ad_threshold attr
    ∧ w = complianceMessage attr (toPropertyKey attributeId) (ctx_currentLevel ctx).
Proof.
  intros Hw a. subst a. revert Hw.
  field_cases e; rewrite ?elem_of_nil, ?list_elem_of_singleton; try done;
    intros ->; exists attr; split_and!; try done;
    apply Z.leb_gt; by rewrite <-Z.geb_leb.
Qed.

(** An entry raises one compliance warning when its field is mapped to a
    protected attribute that is hidden, and none otherwise. *)
Lemma delta_warnings_length e :
  length (acc_warnings (delta cc ctx e))
  = if complianceHidden cc ctx e.1 then 1%nat else 0%nat.
Proof.
  unfold complianceHidden. field_cases e; rewrite ?Hmap, ?Hattr; simpl;
    rewrite ?Hvis, ?Hcp, ?andb_false_r; done.
Qed.

Lemma delta_warnings_nil e :
  complianceHidden cc ctx e.1 = false → acc_warnings (delta cc ctx e) = [].
Proof.
  intros H. apply nil_length_inv. by rewrite delta_warnings_length, H.
Qed.

Lemma warnings_length data :
  length (tr_warnings (Console.value (applyLoop data cc ctx)))
  = length (filter (λ e, complianceHidden cc ctx e.1 = true) data).
Proof.
  rewrite applyLoop_warnings.
  induction data as [|e data IH]; [done|].
  rewrite bind_cons, length_app, IH, filter_cons, delta_warnings_length.
  destruct (complianceHidden cc ctx e.1); case_decide; done.
Qed.

End loop.

(** ** Calls that return and calls that throw *)

Lemma applyPrivacy_Own data cc ctx :
  applyPrivacy data (Own cc) ctx
  = (Normal (Console.value (applyLoop data cc ctx)),
     Console.output (applyLoop data cc ctx)).
Proof.
  unfold applyPrivacy, Console.bind, Console.ret, Console.value, Console.output.
  simpl. by rewrite app_nil_r.
Qed.

(** A configured collection is transformed by the loop. *)
Lemma transformEntry_configured c data ctx cc :
  rc_collections (ctx_config ctx) !! c = Some cc →
  transformEntry c data ctx
  = (Normal (Console.value (applyLoop data cc ctx)),
     Console.output (applyLoop data cc ctx)).
Proof.
  intros H. unfold transformEntry. rewrite (readProp_Some _ _ _ H).
  apply applyPrivacy_Own.
Qed.

(** A collection name that is neither configured nor a name of
    [Object.prototype] reaches the pass-through. *)
Lemma transformEntry_absent c data ctx :
  readProp (rc_collections (ctx_config ctx)) c = Undefined →
  transformEntry c data ctx
  = (Normal
       {| tr_data := Obj.spread data;
          tr_fields :=
            (λ field, {| fr_field := field; fr_attributeId := EmptyString;
                         fr_visible := true; fr_value := readField field data;
                         fr_redactionApplied := None |}) <$> Obj.keys data;
          tr_hiddenFields := [];
          tr_warnings := [] |}, []).
Proof. intros H. unfold transformEntry. by rewrite H. Qed.

(** A collection name that only [Object.prototype] knows: the call throws
    on every record that has a field, and prints nothing. *)
Lemma transformEntry_inherited c data ctx name :
  readProp (rc_collections (ctx_config ctx)) c = Inherited name →
  transformEntry c data ctx
  = (match data with
     | [] => Normal {| tr_data := []; tr_fields := []; tr_hiddenFields := [];
                       tr_warnings := [] |}
     | _ :: _ => TypeError
     end, []).
Proof. intros H. unfold transformEntry. rewrite H. by destruct data. Qed.

(** [transformEntry] throws exactly on a non-empty record of a collection
    whose name is inherited. *)
Lemma transformEntry_throws c data ctx :
  Console.value (transformEntry c data ctx) = TypeError
  ↔ (∃ name, readProp (rc_collections (ctx_config ctx)) c = Inherited name)
    ∧ data ≠ [].
Proof.
  destruct (readProp (rc_collections (ctx_config ctx)) c) as [cc|name|] eqn:Hc.
  - apply readProp_Own in Hc. rewrite (transformEntry_configured _ _ _ _ Hc).
    split; [done|]. by intros [[? ?] _].
  - rewrite (transformEntry_inherited _ _ _ _ Hc).
    destruct data; simpl; split; try done; eauto. by intros [_ ?].
  - rewrite (transformEntry_absent _ _ _ Hc). split; [done|]. by intros [[? ?] _].
Qed.

(** A call that throws has printed nothing. *)
Lemma transformEntry_throw_silent c data ctx name :
  readProp (rc_collections (ctx_config ctx)) c = Inherited name →
  Console.output (transformEntry c data ctx) = [].
Proof. intros H. by rewrite (transformEntry_inherited _ _ _ _ H). Qed.

(** ** The visibility rule *)

Lemma isAttributeVisible_unknown attributeId level
    (catalog : gmap string AttributeDefinition) :
  readProp catalog attributeId = Undefined →
  isAttributeVisible attributeId level catalog = true.
Proof. intros H. unfold isAttributeVisible. by rewrite H. Qed.

Lemma isAttributeVisible_known attributeId level
    (catalog : gmap string AttributeDefinition) attr :
  catalog !! attributeId = Some attr →
  isAttributeVisible attributeId level catalog = true ↔ ad_threshold attr ≤ level.
Proof.
  intros H. unfold isAttributeVisible. rewrite (readProp_Some _ _ _ H).
  apply Z.geb_le.
Qed.

Lemma isAttributeVisible_inherited attributeId level
    (catalog : gmap string AttributeDefinition) :
  catalog !! attributeId = None → isPrototypeName attributeId = true →
  isAttributeVisible attributeId level catalog = false.
Proof.
  intros H1 H2. unfold isAttributeVisible, readProp. by rewrite H1, H2.
Qed.

Lemma isAttributeVisible_mono attributeId (catalog : gmap string AttributeDefinition)
    (L1 L2 : PrivacyLevel) :
  L1 ≤ L2 →
  isAttributeVisible attributeId L1 catalog = true →
  isAttributeVisible attributeId L2 catalog = true.
Proof.
  intros Hle. unfold isAttributeVisible.
  destruct (readProp catalog attributeId) as [attr|name|]; [|done|done].
  rewrite !Z.geb_le. lia.
Qed.

(** C3.  The claim fails at an id that the catalog lacks and
    [Object.prototype] has.  The shipped catalog has no attribute
    [toString], yet [isAttributeVisible] answers [false] for it at level 4,
    and at every level: [attributes[attributeId]] finds the inherited method,
    which is truthy and has no [threshold].  The comment in the function
    and the test suite say that an unknown attribute is visible. *)
Theorem isAttributeVisible_inherited_name :
  DEFAULT_ATTRIBUTES !! "toString" = None
  ∧ isAttributeVisible "toString" 4 DEFAULT_ATTRIBUTES = false
  ∧ (∀ level : PrivacyLevel,
       isAttributeVisible "toString" level DEFAULT_ATTRIBUTES = false).
Proof.
  split_and!; [done|done|].
  intros level. by apply isAttributeVisible_inherited.
Qed.

(** C4. Visibility is monotonic in the level: for every catalog, every
    attribute id, bound in the catalog or not, and all levels [L1 < L2] of
    [0..4], an attribute visible at [L1] is visible at [L2]. *)
Theorem isAttributeVisible_monotone attributeId
    (catalog : gmap string AttributeDefinition) (L1 L2 : PrivacyLevel) :
  0 ≤ L1 → L1 < L2 → L2 ≤ 4 →
  isAttributeVisible attributeId L1 catalog = true →
  isAttributeVisible attributeId L2 catalog = true.
Proof. intros _ Hlt _. apply isAttributeVisible_mono. lia. Qed.

Lemma isAttributeVisible_monotone_witness :
  isAttributeVisible "ID-01" 3 DEFAULT_ATTRIBUTES = true.
Proof.
  apply (isAttributeVisible_monotone "ID-01" DEFAULT_ATTRIBUTES 2 3);
    [lia | lia | lia | reflexivity].
Defined.

(** ** Redaction *)

Lemma transformEntry_single c cc ctx f v :
  rc_collections (ctx_config ctx) !! c = Some cc →
  transformEntry c [(f, v)] ctx
  = (Normal (Console.value (resultOf (delta cc ctx (f, v)))),
     Console.output (resultOf (delta cc ctx (f, v)))).
Proof. intros H. by rewrite (transformEntry_configured _ _ _ _ H). Qed.

(** C5. Redaction is a function of the attribute alone.  With no strategy
    given it behaves as with [omit] and returns [undefined]; with [replace]
    it returns the configured replacement text when there is one, and the
    generated text "[<name> hidden]" otherwise.  The level plays no part:
    at any two levels below the threshold, a field mapped to the attribute
    is hidden with the same substitute, or omitted in both. *)
Theorem getRedactedValue_spec (attr : AttributeDefinition) :
  (ad_redaction attr = None → getRedactedValue attr = VUndefined)
  ∧ (ad_redaction attr = Some Omit → getRedactedValue attr = VUndefined)
  ∧ (∀ text, ad_redaction attr = Some Replace → ad_redactedValue attr = Some text →
       getRedactedValue attr = VStr text)
  ∧ (ad_redaction attr = Some Replace → ad_redactedValue attr = None →
       getRedactedValue attr = VStr ("[" +:+ ad_name attr +:+ " hidden]"))
  ∧ (∀ c cc config (L1 L2 : PrivacyLevel) f v id,
       rc_collections config !! c = Some cc →
       cc_fields cc !! f = Some id → id ≠ EmptyString →
       rc_attributes config !! id = Some attr →
       L1 < ad_threshold attr → L2 < ad_threshold attr →
       ∃ r1 r2,
         Console.value (transformEntry c [(f, v)]
                          {| ctx_currentLevel := L1; ctx_config := config |})
         = Normal r1
         ∧ Console.value (transformEntry c [(f, v)]
                            {| ctx_currentLevel := L2; ctx_config := config |})
           = Normal r2
         ∧ tr_data r1 = tr_data r2 ∧ tr_fields r1 = tr_fields r2
         ∧ tr_hiddenFields r1 = tr_hiddenFields r2
         ∧ tr_data r1 = (if isUndefined (getRedactedValue attr) then []
                         else Obj.put f (getRedactedValue attr) [])).
Proof.
  split_and!.
  - intros H. unfold getRedactedValue. by rewrite H.
  - intros H. unfold getRedactedValue. by rewrite H.
  - intros text H1 H2. unfold getRedactedValue. by rewrite H1, H2.
  - intros H1 H2. unfold getRedactedValue. by rewrite H1, H2.
  - intros c cc config L1 L2 f v id Hc Hmap Hid Hattr H1 H2.
    rewrite !(transformEntry_single c cc) by done.
    assert (Hm := isFalsy_mapped _ _ _ Hmap Hid).
    assert (∀ L, readProp
              (rc_attributes (ctx_config {| ctx_currentLevel := L; ctx_config := config |}))
              (toPropertyKey (readProp (cc_fields cc) f)) = Own attr) as Ha.
    { intros L. rewrite (readProp_Some _ _ _ Hmap). by apply readProp_Some. }
    rewrite !(delta_hidden _ _ f v attr) by done. simpl.
    do 2 eexists. split; [reflexivity|]. split; [reflexivity|]. simpl.
    split_and!; try done.
    unfold getRedactedValue. by destruct (ad_redaction attr) as [[|]|].
Qed.

Lemma getRedactedValue_spec_witness :
  getRedactedValue (mkAttr "Job Title/Role" Identity Medium 1 None None None)
  = VUndefined
  ∧ getRedactedValue (mkAttr "Full Name" Identity High 2 (Some Replace)
                        (Some "Staff Member") None) = VStr "Staff Member"
  ∧ getRedactedValue (mkAttr "Full Name" Identity High 2 (Some Replace) None None)
    = VStr "[Full Name hidden]".
Proof.
  split_and!.
  - exact (proj1 (getRedactedValue_spec
             (mkAttr "Job Title/Role" Identity Medium 1 None None None)) eq_refl).
  - exact (proj1 (proj2 (proj2 (getRedactedValue_spec
             (mkAttr "Full Name" Identity High 2 (Some Replace)
                (Some "Staff Member") None)))) "Staff Member" eq_refl eq_refl).
  - exact (proj1 (proj2 (proj2 (proj2 (getRedactedValue_spec
             (mkAttr "Full Name" Identity High 2 (Some Replace) None None)))))
             eq_refl eq_refl).
Defined.

(** ** Unconfigured collections *)

Lemma readField_wf data f v : Obj.wf data → (f, v) ∈ data → readField f data = v.
Proof.
  intros Hwf Hin. unfold readField. by rewrite (proj2 (get_elem_of _ _ _ Hwf) Hin).
Qed.

Lemma passthrough_fields data :
  Obj.wf data →
  (λ field, {| fr_field := field; fr_attributeId := EmptyString;
               fr_visible := true; fr_value := readField field data;
               fr_redactionApplied := None |}) <$> Obj.keys data
  = (λ e, {| fr_field := e.1; fr_attributeId := EmptyString;
             fr_visible := true; fr_value := e.2;
             fr_redactionApplied := None |}) <$> data.
Proof.
  intros Hwf. unfold Obj.keys. rewrite <-list_fmap_compose.
  apply list_fmap_ext. intros i [f v] Hi. simpl.
  rewrite (readField_wf data f v Hwf); [done|].
  by apply list_elem_of_lookup_2 in Hi.
Qed.

(** C7.  The claim fails at a collection name that the configuration lacks
    and [Object.prototype] has.  The configuration of the test suite has no
    collection [constructor]; [transformEntry] reads
    [collections['constructor']], finds the inherited function, takes the
    collection for configured and throws in [applyPrivacy] on the first field
    of the record, where the comment in the function says that an
    unconfigured collection passes through unchanged. *)
Theorem transformEntry_inherited_collection :
  rc_collections (ctx_config (testContext 0)) !! "constructor" = None
  ∧ Obj.wf teamMember
  ∧ transformEntry "constructor" teamMember (testContext 0) = (TypeError, [])
  ∧ (∀ level (data : JsObject), data ≠ [] →
       Console.value (transformEntry "constructor" data (testContext level))
       = TypeError).
Proof.
  split_and!; [done|solve_wf|done|].
  intros level data Hne. apply transformEntry_throws. split; [|done].
  exists "constructor". done.
Qed.

(** ** Coverage *)

(** C1, as stated, fails: at level 0 the field [name] of the record of the
    test suite is hidden by replacement, so it is both a key of the filtered
    record (holding "Staff Member") and a hidden field name; the [team]
    collection is configured. *)
Lemma coverage_not_disjoint :
  is_Some (rc_collections (ctx_config (testContext 0)) !! "team")
  ∧ Obj.wf teamMember
  ∧ ∃ r, Console.value (transformEntry "team" teamMember (testContext 0)) = Normal r
         ∧ ¬ disjointCoverage teamMember r.
Proof.
  split_and!.
  - vm_compute. eauto.
  - solve_wf.
  - eexists. split; [by vm_compute|].
    intros (Hdisj & _).
    apply (Hdisj "name"); apply elem_of_list_to_set, list_elem_of_In;
      vm_compute; auto.
Qed.

Lemma not_proto_entry (data : JsObject) e :
  "__proto__" ∉ Obj.keys data → e ∈ data → e.1 ≠ "__proto__".
Proof.
  intros Hp He Heq. apply Hp. apply elem_of_keys. eauto.
Qed.

(** C1, amended.  For a configured collection and a record without an own
    key [__proto__], [transformEntry] returns, and the keys of the filtered
    record together with the hidden field names are exactly the keys of the
    input, each listed once in either; there is one field result per input
    field, in the order of the input.  The two sets are not disjoint: a
    field is in both exactly when it was hidden by replacement.  A visible
    field is a key of the filtered record only, an omitted field a hidden
    field name only. *)
Theorem applyPrivacy_coverage c cc (data : JsObject) ctx :
  rc_collections (ctx_config ctx) !! c = Some cc →
  Obj.wf data →
  "__proto__" ∉ Obj.keys data →
  ∃ r, Console.value (transformEntry c data ctx) = Normal r ∧
  let kept : gset string := list_to_set (Obj.keys (tr_data r)) in
  let hidden : gset string := list_to_set (tr_hiddenFields r) in
  kept ∪ hidden = list_to_set (Obj.keys data)
  ∧ fr_field <$> tr_fields r = Obj.keys data
  ∧ NoDup (Obj.keys (tr_data r))
  ∧ NoDup (tr_hiddenFields r)
  ∧ (∀ k, k ∈ kept ∩ hidden ↔
       ∃ fr, fr ∈ tr_fields r ∧ fr_field fr = k ∧ fr_visible fr = false
             ∧ fr_redactionApplied fr = Some Replace)
  ∧ (∀ fr, fr ∈ tr_fields r → fr_visible fr = true →
       fr_field fr ∈ kept ∧ fr_field fr ∉ hidden)
  ∧ (∀ fr, fr ∈ tr_fields r → fr_redactionApplied fr = Some Omit →
       fr_field fr ∈ hidden ∧ fr_field fr ∉ kept).
Proof.
  intros Hc Hwf Hp.
  rewrite (transformEntry_configured _ _ _ _ Hc).
  eexists. split; [reflexivity|]. intros kept hidden. subst kept hidden.
  assert (∀ e, e ∈ data → e.1 ≠ "__proto__") as Hnp
    by (intros e; by apply not_proto_entry).
  assert (∀ e e' k, e ∈ data → e' ∈ data →
            k ∈ Obj.keys (acc_result (delta cc ctx e)) →
            k ∈ acc_hiddenFields (delta cc ctx e') → e = e') as Hsame.
  { intros e e' k He He' Hk Hk'.
    apply (wf_entry_inj data); try done.
    rewrite <-(delta_kept_or_hidden_inv cc ctx e k) by auto.
    by rewrite <-(delta_kept_or_hidden_inv cc ctx e' k) by auto. }
  split_and!.
  - apply set_eq. intros k.
    rewrite elem_of_union, !elem_of_list_to_set, elem_of_kept, elem_of_hidden by done.
    rewrite elem_of_keys. split.
    + intros [(e & He & Hk)|(e & He & Hk)]; exists e; split; try done;
        symmetry; apply (delta_kept_or_hidden_inv cc ctx e k); auto.
    + intros (e & He & <-).
      destruct (proj2 (delta_kept_or_hidden cc ctx e e.1 (Hnp e He)) eq_refl); eauto.
  - rewrite applyLoop_fields. apply field_names.
  - rewrite (applyLoop_data _ _ _ Hwf).
    eapply sublist_NoDup; [exact Hwf|apply kept_sublist].
  - rewrite applyLoop_hiddenFields.
    eapply sublist_NoDup; [exact Hwf|apply hidden_sublist].
  - intros k.
    rewrite elem_of_intersection, !elem_of_list_to_set, elem_of_kept, elem_of_hidden
      by done.
    split.
    + intros [(e & He & Hk) (e' & He' & Hk')].
      assert (e = e') as <- by eauto.
      destruct (proj1 (delta_kept_and_hidden cc ctx e k (Hnp e He)))
        as (-> & fr & Hfr & ? & ?); [done|].
      exists fr. split_and!; try done.
      * apply elem_of_fields. exists e. split; [done|]. rewrite Hfr. by left.
      * destruct (delta_fields cc ctx e) as (fr' & Hfr' & ?). congruence.
    + intros (fr & (e & He & Hin)%elem_of_fields & <- & Hv & Hr).
      destruct (delta_fields cc ctx e) as (fr' & Hfr' & Hf).
      rewrite Hfr' in Hin. apply list_elem_of_singleton in Hin as ->.
      destruct (proj2 (delta_kept_and_hidden cc ctx e (fr_field fr') (Hnp e He)));
        eauto 10.
  - intros fr (e & He & Hin)%elem_of_fields Hv.
    destruct (delta_shape cc ctx e)
      as (fr' & Hfr' & Hf & [(_ & _ & _ & Hres & Hhid)|[(? & _)|(? & _)]]);
      rewrite Hfr' in Hin; apply list_elem_of_singleton in Hin as ->;
      try congruence.
    rewrite put_nil, decide_False in Hres by auto.
    assert (fr_field fr' ∈ Obj.keys (tr_data (Console.value (applyLoop data cc ctx))))
      as Hkept.
    { apply elem_of_kept; [done|]. exists e. split; [done|].
      rewrite Hres, Hf. unfold Obj.keys. simpl. by left. }
    rewrite !elem_of_list_to_set. split; [done|].
    intros (e' & He' & Hk')%elem_of_hidden.
    apply elem_of_kept in Hkept as (e0 & He0 & Hk0); [|done].
    assert (e0 = e') as -> by eauto.
    assert (e' = e) as ->.
    { apply (wf_entry_inj data); try done.
      rewrite <-(delta_kept_or_hidden_inv cc ctx e' (fr_field fr')) by auto.
      done. }
    rewrite Hhid in Hk'. by apply elem_of_nil in Hk'.
  - intros fr (e & He & Hin)%elem_of_fields Hr.
    destruct (delta_shape cc ctx e)
      as (fr' & Hfr' & Hf & [(_ & ? & _)|[(_ & ? & _)|(_ & _ & Hres & Hhid)]]);
      rewrite Hfr' in Hin; apply list_elem_of_singleton in Hin as ->;
      try congruence.
    assert (fr_field fr' ∈ tr_hiddenFields (Console.value (applyLoop data cc ctx)))
      as Hhidden.
    { apply elem_of_hidden. exists e. split; [done|]. rewrite Hhid, Hf. by left. }
    rewrite !elem_of_list_to_set. split; [done|].
    intros (e' & He' & Hk')%elem_of_kept; [|done].
    apply elem_of_hidden in Hhidden as (e0 & He0 & Hk0).
    assert (e' = e0) as -> by eauto.
    assert (e0 = e) as ->.
    { apply (wf_entry_inj data); try done.
      rewrite <-(delta_kept_or_hidden_inv cc ctx e0 (fr_field fr')) by auto.
      done. }
    rewrite Hres in Hk'. by apply elem_of_nil in Hk'.
Qed.

Lemma applyPrivacy_coverage_witness :
  ∃ r, Console.value (transformEntry "team" teamMember (testContext 0)) = Normal r
       ∧ fr_field <$> tr_fields r = Obj.keys teamMember.
Proof.
  destruct (applyPrivacy_coverage "team" teamCollection teamMember (testContext 0))
    as (r & Hr & H).
  - vm_compute. reflexivity.
  - solve_wf.
  - apply (bool_decide_unpack _). vm_compute. exact I.
  - exists r. split; [exact Hr|]. exact (proj1 (proj2 H)).
Defined.

(** ** Messages *)

Lemma string_app_cons a (s1 s2 : string) :
  String a s1 +:+ s2 = String a (s1 +:+ s2).
Proof. reflexivity. Qed.

Lemma string_app_assoc (s1 s2 s3 : string) : (s1 +:+ s2) +:+ s3 = s1 +:+ s2 +:+ s3.
Proof.
  induction s1 as [|a s1 IH]; [done|]. by rewrite !string_app_cons, IH.
Qed.

Lemma mentions_head part after : mentions part (part +:+ after).
Proof. by exists EmptyString, after. Qed.

Lemma mentions_append_l before part message :
  mentions part message → mentions part (before +:+ message).
Proof.
  intros (b & a & ->). exists (before +:+ b), a. by rewrite string_app_assoc.
Qed.

Lemma mentions_head2 part1 part2 after :
  mentions (part1 +:+ part2) (part1 +:+ part2 +:+ after).
Proof. exists EmptyString, after. by rewrite string_app_assoc. Qed.

Ltac solve_mentions :=
  repeat first [ apply mentions_head | apply mentions_append_l ].

Lemma unknownAttributeMessage_names field attributeId :
  mentions field (unknownAttributeMessage field attributeId)
  ∧ mentions attributeId (unknownAttributeMessage field attributeId).
Proof. unfold unknownAttributeMessage. split; solve_mentions. Qed.

Lemma complianceMessage_names attr attributeId level :
  mentions (ad_name attr) (complianceMessage attr attributeId level)
  ∧ mentions attributeId (complianceMessage attr attributeId level)
  ∧ mentions (showNumber level) (complianceMessage attr attributeId level)
  ∧ mentions (showNumber (ad_threshold attr)) (complianceMessage attr attributeId level).
Proof. unfold complianceMessage. split_and!; solve_mentions. Qed.

(** The numeral of a level of the taxonomy is what [showNumber] prints. *)
Lemma levelNumerals_showNumber (n : Z) d :
  0 ≤ n → levelNumerals !! Z.to_nat n = Some d → showNumber n = d.
Proof.
  intros Hn Hd.
  assert (n = 0 ∨ n = 1 ∨ n = 2 ∨ n = 3 ∨ n = 4) as Hcases.
  { apply lookup_lt_Some in Hd. simpl in Hd. lia. }
  destruct Hcases as [-> | [-> | [-> | [-> | ->]]]]; vm_compute in Hd;
    injection Hd as <-; vm_compute; reflexivity.
Qed.

(** The compliance message shows the level after the word [Level] and the
    threshold after the word [threshold]. *)
Lemma complianceMessage_numbers attr attributeId level :
  mentions ("Level " +:+ showNumber level) (complianceMessage attr attributeId level)
  ∧ mentions ("threshold: " +:+ showNumber (ad_threshold attr))
      (complianceMessage attr attributeId level).
Proof.
  unfold complianceMessage. split.
  - change ("would be hidden at Level " +:+ ?x)
      with ("would be hidden at " +:+ "Level " +:+ x).
    do 8 apply mentions_append_l. apply mentions_head2.
  - change (" (threshold: " +:+ ?x) with (" (" +:+ "threshold: " +:+ x).
    do 10 apply mentions_append_l. apply mentions_head2.
Qed.

(** The two kinds of message differ from their first character on. *)
Lemma complianceMessage_ne_unknown attr attributeId level field attributeId' :
  complianceMessage attr attributeId level
  ≠ unknownAttributeMessage field attributeId'.
Proof.
  unfold complianceMessage, unknownAttributeMessage.
  rewrite !string_app_cons. discriminate.
Qed.

Lemma get_put_nil k v :
  Obj.get k (Obj.put k v []) = if decide (k = "__proto__") then None else Some v.
Proof. rewrite put_nil. case_decide; simpl; [done|]. by rewrite decide_True. Qed.

Lemma get_field cc ctx (data : JsObject) f v :
  Obj.wf data → (f, v) ∈ data →
  Obj.get f (tr_data (Console.value (applyLoop data cc ctx)))
  = Obj.get f (acc_result (delta cc ctx (f, v))).
Proof. intros Hwf Hin. exact (get_contribution cc ctx data (f, v) Hwf Hin). Qed.

(** ** Unresolved attribute ids *)

(** C2, as stated, fails: the field [nickname] is mapped to ["XX-99"], which
    the resolved catalog does not have, and the result carries no warning
    at all. *)
Lemma unresolved_not_in_warnings :
  let ctx := Console.value (createContext None strayConfig (Some 4)) in
  rc_collections (ctx_config ctx) !! "team" = Some strayCollection
  ∧ cc_fields strayCollection !! "nickname" = Some "XX-99"
  ∧ rc_attributes (ctx_config ctx) !! "XX-99" = None
  ∧ ∃ r, Console.value (transformEntry "team" [("nickname", VStr "JS")] ctx)
         = Normal r
         ∧ ¬ warnsInResult r "nickname" "XX-99".
Proof.
  split_and!; [by vm_compute..|].
  eexists. split; [by vm_compute|].
  intros (w & Hw & _). vm_compute in Hw. by apply elem_of_nil in Hw.
Qed.

(** C2, amended.  Take a field whose mapping points to a non-empty attribute
    id for which the resolved catalog has no entry and [Object.prototype] no
    member.  [transformEntry] returns, it throws nothing, and the field
    passes through unchanged: it keeps its value in the filtered record (a
    field named [__proto__] is not a key of it), its field result is visible
    and records the unresolved id, and it is not hidden.  The configuration
    warning, which names the field and the id, is printed on the console; it
    is not added to the warnings of the result, which holds compliance
    warnings only. *)
Theorem unresolved_attribute_passes_through c cc ctx (data : JsObject) f v id :
  rc_collections (ctx_config ctx) !! c = Some cc →
  Obj.wf data → (f, v) ∈ data →
  cc_fields cc !! f = Some id → id ≠ EmptyString →
  rc_attributes (ctx_config ctx) !! id = None →
  isPrototypeName id = false →
  let fr := {| fr_field := f; fr_attributeId := id; fr_visible := true;
               fr_value := v; fr_redactionApplied := None |} in
  ∃ r, Console.value (transformEntry c data ctx) = Normal r
  ∧ Obj.get f (tr_data r) = (if decide (f = "__proto__") then None else Some v)
  ∧ fr ∈ tr_fields r
  ∧ (∀ fr', fr' ∈ tr_fields r → fr_field fr' = f → fr' = fr)
  ∧ (f ∉ tr_hiddenFields r)
  ∧ unknownAttributeMessage f id ∈ Console.output (transformEntry c data ctx)
  ∧ mentions f (unknownAttributeMessage f id)
  ∧ mentions id (unknownAttributeMessage f id)
  ∧ (unknownAttributeMessage f id ∉ tr_warnings r)
  ∧ (∀ w, w ∈ tr_warnings r →
       ∃ attr id', w = complianceMessage attr id' (ctx_currentLevel ctx)).
Proof.
  intros Hc Hwf Hin Hmap Hid Hattr Hproto fr. subst fr.
  rewrite (transformEntry_configured _ _ _ _ Hc).
  eexists. split; [reflexivity|]. cbn [Console.output snd].
  assert (Hm := isFalsy_mapped _ _ _ Hmap Hid).
  pose proof (delta_unknown cc ctx f v Hm) as Hd.
  rewrite (readProp_Some _ _ _ Hmap) in Hd. cbn [toPropertyKey attributeRef] in Hd.
  specialize (Hd (readProp_None _ _ Hattr Hproto)).
  assert (∀ w, w ∈ tr_warnings (Console.value (applyLoop data cc ctx)) →
            ∃ attr id', w = complianceMessage attr id' (ctx_currentLevel ctx))
    as Hkind.
  { intros w. rewrite applyLoop_warnings.
    intros (e & Hw & _)%list_elem_of_bind.
    apply delta_warnings_compliance in Hw as (attr & _ & _ & _ & _ & ->).
    eauto. }
  split_and!.
  - rewrite (get_field cc ctx data f v) by done.
    rewrite Hd. apply get_put_nil.
  - apply (field_result_unique cc ctx data (f, v)); try done. by rewrite Hd.
  - apply (field_result_unique cc ctx data (f, v)); try done. by rewrite Hd.
  - apply (not_in_hidden cc ctx data (f, v)); try done. by rewrite Hd.
  - change (unknownAttributeMessage f id ∈ Console.output (applyLoop data cc ctx)).
    rewrite applyLoop_console. apply list_elem_of_bind.
    exists (f, v). split; [|done]. rewrite Hd. by left.
  - apply unknownAttributeMessage_names.
  - apply unknownAttributeMessage_names.
  - intros (attr & id' & Heq)%Hkind.
    symmetry in Heq. by apply complianceMessage_ne_unknown in Heq.
  - exact Hkind.
Qed.

Lemma unresolved_attribute_passes_through_witness :
  let ctx := Console.value (createContext None strayConfig (Some 4)) in
  ∃ r, Console.value (transformEntry "team" [("nickname", VStr "JS")] ctx) = Normal r
       ∧ unknownAttributeMessage "nickname" "XX-99"
         ∈ Console.output (transformEntry "team" [("nickname", VStr "JS")] ctx).
Proof.
  destruct (unresolved_attribute_passes_through "team" strayCollection
       (Console.value (createContext None strayConfig (Some 4)))
       [("nickname", VStr "JS")] "nickname" (VStr "JS") "XX-99") as (r & Hr & H).
  - vm_compute. reflexivity.
  - solve_wf.
  - by left.
  - vm_compute. reflexivity.
  - discriminate.
  - vm_compute. reflexivity.
  - vm_compute. reflexivity.
  - exists r. split; [exact Hr|]. exact (proj1 (proj2 (proj2 (proj2 (proj2 H))))).
Defined.

(** ** Two facts on concatenated contributions *)

Lemma bind_only {A B} (g : A → list B) (l : list A) x :
  NoDup l → x ∈ l → (∀ y, y ∈ l → y ≠ x → g y = []) → l ≫= g = g x.
Proof.
  induction l as [|a l IH]; [by intros _ ?%elem_of_nil|].
  rewrite NoDup_cons, elem_of_cons, bind_cons. intros [Hnin Hnd] [->|Hin] Hnil.
  - assert (l ≫= g = []) as ->; [|by rewrite app_nil_r].
    clear IH Hnd. induction l as [|b l IH]; [done|].
    rewrite bind_cons, IH, app_nil_r.
    + apply Hnil; [by right; left|]. intros ->. apply Hnin. by left.
    + intros Hin. apply Hnin. by right.
    + intros y Hy. apply Hnil. rewrite !elem_of_cons in *. tauto.
  - rewrite (Hnil a); [|by left|by intros ->].
    apply IH; try done. intros y Hy. apply Hnil. by right.
Qed.


(** ** Compliance warnings *)

(** C8, as stated, fails: the field [boardRole] is mapped to the empty id,
    under which the catalog files a compliance protected attribute of
    threshold 3; at level 1 the attribute is not visible, and yet the field
    is not hidden and the result has no warning.  [applyPrivacy] takes a
    mapping to the empty string for no mapping. *)
Lemma empty_id_not_warned :
  let ctx := Console.value (createContext None emptyIdConfig (Some 1)) in
  rc_collections (ctx_config ctx) !! "governance" = Some emptyIdCollection
  ∧ cc_fields emptyIdCollection !! "boardRole" = Some EmptyString
  ∧ rc_attributes (ctx_config ctx) !! EmptyString = Some boardMembership
  ∧ ad_complianceProtected boardMembership = Some true
  ∧ isAttributeVisible EmptyString (ctx_currentLevel ctx)
      (rc_attributes (ctx_config ctx)) = false
  ∧ ∃ r, Console.value
           (transformEntry "governance" [("boardRole", VStr "Board Chair")] ctx)
         = Normal r
         ∧ ¬ hiddenWithWarning r "boardRole" boardMembership EmptyString.
Proof.
  split_and!; [by vm_compute..|].
  eexists. split; [by vm_compute|].
  intros (Hh & _). vm_compute in Hh. by apply elem_of_nil in Hh.
Qed.

(** C8, amended.  A field mapped to a non-empty id of a compliance protected
    attribute that is not visible at the current level adds to the warnings
    of the result a message that names the attribute and its id, and shows
    the current level after the word [Level] and the threshold after the
    word [threshold], in the numerals of the taxonomy; the field is hidden
    all the same: it is among the hidden field names, its field result is
    not visible, and the filtered record holds the substitute of the
    attribute under its key, or lacks the key.  The result has as many
    warnings as the record has such fields; when the field is the only one,
    the message is the only warning. *)
Theorem compliance_warning c cc ctx (data : JsObject) f v id attr :
  rc_collections (ctx_config ctx) !! c = Some cc →
  Obj.wf data → (f, v) ∈ data →
  cc_fields cc !! f = Some id → id ≠ EmptyString →
  rc_attributes (ctx_config ctx) !! id = Some attr →
  ad_complianceProtected attr = Some true →
  ctx_currentLevel ctx < ad_threshold attr →
  let w := complianceMessage attr id (ctx_currentLevel ctx) in
  ∃ r, Console.value (transformEntry c data ctx) = Normal r
  ∧ w ∈ tr_warnings r
  ∧ hiddenWithWarning r f attr id
  ∧ mentions (ad_name attr) w ∧ mentions id w
  ∧ (∀ d, 0 ≤ ctx_currentLevel ctx →
       levelNumerals !! Z.to_nat (ctx_currentLevel ctx) = Some d →
       mentions ("Level " +:+ d) w)
  ∧ (∀ d, 0 ≤ ad_threshold attr →
       levelNumerals !! Z.to_nat (ad_threshold attr) = Some d →
       mentions ("threshold: " +:+ d) w)
  ∧ f ∈ tr_hiddenFields r
  ∧ (∃ fr, fr ∈ tr_fields r ∧ fr_field fr = f ∧ fr_visible fr = false)
  ∧ Obj.get f (tr_data r)
    = (if decide (default Omit (ad_redaction attr) = Replace)
       then (if decide (f = "__proto__") then None else Some (getRedactedValue attr))
       else None)
  ∧ length (tr_warnings r)
    = length (filter (λ e, complianceHidden cc ctx e.1 = true) data)
  ∧ ((∀ e, e ∈ data → complianceHidden cc ctx e.1 = true → e = (f, v)) →
     tr_warnings r = [w]).
Proof.
  intros Hc Hwf Hin Hmap Hid Hattr Hcp Hlt w. subst w.
  rewrite (transformEntry_configured _ _ _ _ Hc).
  eexists. split; [reflexivity|].
  assert (Hm := isFalsy_mapped _ _ _ Hmap Hid).
  pose proof (delta_hidden cc ctx f v attr Hm) as Hd.
  rewrite (readProp_Some _ _ _ Hmap) in Hd. cbn [toPropertyKey attributeRef] in Hd.
  specialize (Hd (readProp_Some _ _ _ Hattr) Hlt).
  rewrite Hcp in Hd. simpl in Hd.
  assert (complianceMessage attr id (ctx_currentLevel ctx)
          ∈ tr_warnings (Console.value (applyLoop data cc ctx))) as Hw.
  { rewrite applyLoop_warnings. apply list_elem_of_bind.
    exists (f, v). split; [|done]. rewrite Hd. by left. }
  assert (f ∈ tr_hiddenFields (Console.value (applyLoop data cc ctx))) as Hh.
  { apply (in_hidden cc ctx data (f, v)); [done|]. by rewrite Hd. }
  split_and!.
  - exact Hw.
  - split; [exact Hh|]. eexists. split; [exact Hw|].
    split; apply complianceMessage_names.
  - apply complianceMessage_names.
  - apply complianceMessage_names.
  - intros d H0 Hnum. rewrite <-(levelNumerals_showNumber _ _ H0 Hnum).
    apply complianceMessage_numbers.
  - intros d H0 Hnum. rewrite <-(levelNumerals_showNumber _ _ H0 Hnum).
    apply complianceMessage_numbers.
  - exact Hh.
  - eexists. split; [|split].
    + apply (field_result_unique cc ctx data (f, v)); try done. by rewrite Hd.
    + done.
    + done.
  - rewrite (get_field cc ctx data f v) by done. rewrite Hd.
    cbn [acc_result]. case_decide as Hr; [apply get_put_nil|done].
  - apply warnings_length.
  - intros Honly. rewrite applyLoop_warnings.
    rewrite (bind_only _ data (f, v)).
    + by rewrite Hd.
    + eapply NoDup_fmap_1. exact Hwf.
    + done.
    + intros e He Hne. apply delta_warnings_nil.
      destruct (complianceHidden cc ctx e.1) eqn:Hch; [|done].
      destruct Hne. by apply Honly.
Qed.

Lemma compliance_warning_witness :
  let ctx := Console.value (createContext None governanceConfig (Some 1)) in
  ∃ r, Console.value
         (transformEntry "governance" [("boardRole", VStr "Board Chair")] ctx)
       = Normal r
       ∧ tr_warnings r = [ complianceMessage boardMembership "OR-02" 1 ]
       ∧ mentions "Level 1" (complianceMessage boardMembership "OR-02" 1)
       ∧ mentions "threshold: 3" (complianceMessage boardMembership "OR-02" 1).
Proof.
  destruct (compliance_warning "governance" governanceCollection
       (Console.value (createContext None governanceConfig (Some 1)))
       [("boardRole", VStr "Board Chair")] "boardRole" (VStr "Board Chair")
       "OR-02" boardMembership) as (r & Hr & H).
  - vm_compute. reflexivity.
  - solve_wf.
  - by left.
  - vm_compute. reflexivity.
  - discriminate.
  - vm_compute. reflexivity.
  - reflexivity.
  - simpl. lia.
  - exists r. split; [exact Hr|]. split; [|split].
    + apply H. intros e ->%list_elem_of_singleton _. reflexivity.
    + exact (proj1 (proj2 (proj2 (proj2 (proj2 H)))) "1" ltac:(simpl; lia) eq_refl).
    + exact (proj1 (proj2 (proj2 (proj2 (proj2 (proj2 H))))) "3"
               ltac:(simpl; lia) eq_refl).
Defined.

(** ** A mapping to the empty string *)






(** ** The template helper *)

Lemma bind_value {A B} (m : Console.t A) (k : A → Console.t B) :
  Console.value (Console.bind m k) = Console.value (k (Console.value m)).
Proof. unfold Console.bind, Console.value. by destruct (k m.1). Qed.

Lemma createContext_value env config level :
  Console.value (createContext env config level)
  = {| ctx_currentLevel := Console.value (levelOrEnv env level);
       ctx_config := resolveConfig config |}.
Proof. unfold createContext. by rewrite bind_value. Qed.

(** [shouldShow] decides on the context that [createContext] builds from
    the same configuration and level. *)
Lemma shouldShow_value env c f config level :
  Console.value (shouldShow env c f config level)
  = let ctx := Console.value (createContext env config level) in
    match readProp (rc_collections (ctx_config ctx)) c with
    | Undefined => Normal true
    | Inherited _ => TypeError
    | Own collection =>
        let attributeId := readProp (cc_fields collection) f in
        if isFalsy attributeId then Normal true
        else
          match readProp (rc_attributes (ctx_config ctx)) (toPropertyKey attributeId) with
          | Undefined => Normal true
          | Own attr => Normal (ctx_currentLevel ctx >=? ad_threshold attr)
          | Inherited _ => Normal false
          end
    end.
Proof.
  unfold shouldShow. rewrite !bind_value, !createContext_value. simpl.
  repeat case_match; done.
Qed.

Lemma unconfigured_field_result c (data : JsObject) ctx f v :
  readProp (rc_collections (ctx_config ctx)) c = Undefined →
  Obj.wf data → (f, v) ∈ data →
  let fr := {| fr_field := f; fr_attributeId := EmptyString; fr_visible := true;
               fr_value := v; fr_redactionApplied := None |} in
  ∃ r, Console.value (transformEntry c data ctx) = Normal r
  ∧ fr ∈ tr_fields r ∧ ∀ fr', fr' ∈ tr_fields r → fr_field fr' = f → fr' = fr.
Proof.
  intros Hc Hwf Hin fr. subst fr. rewrite (transformEntry_absent _ _ _ Hc).
  eexists. split; [reflexivity|]. simpl. split.
  - apply list_elem_of_fmap. exists f. split.
    + by rewrite (readField_wf data f v).
    + apply elem_of_keys. by exists (f, v).
  - intros fr' (k & -> & _)%list_elem_of_fmap. simpl. intros ->.
    by rewrite (readField_wf data f v).
Qed.

(** The two functions on a record that has the field: either both throw,
    or both return, and then the one field result of the field carries the
    answer of [shouldShow]. *)
Lemma shouldShow_transformEntry env config (level : option PrivacyLevel) c f
    (data : JsObject) v :
  Obj.wf data → (f, v) ∈ data →
  let ctx := Console.value (createContext env config level) in
  (∃ r fr, Console.value (transformEntry c data ctx) = Normal r
     ∧ fr ∈ tr_fields r ∧ fr_field fr = f
     ∧ (∀ fr', fr' ∈ tr_fields r → fr_field fr' = f → fr' = fr)
     ∧ Console.value (shouldShow env c f config level) = Normal (fr_visible fr))
  ∨ (Console.value (transformEntry c data ctx) = TypeError
     ∧ Console.value (shouldShow env c f config level) = TypeError).
Proof.
  intros Hwf Hin ctx.
  rewrite shouldShow_value. fold ctx. cbv zeta.
  destruct (readProp (rc_collections (ctx_config ctx)) c) as [cc|name|] eqn:Hc.
  - left. apply readProp_Own in Hc.
    rewrite (transformEntry_configured _ _ _ _ Hc).
    assert (∀ fr b, acc_fields (delta cc ctx (f, v)) = [fr] → fr_field fr = f →
              Normal b = Normal (fr_visible fr) →
              ∃ r fr, (Normal (Console.value (applyLoop data cc ctx)) : Completion _)
                      = Normal r
                ∧ fr ∈ tr_fields r ∧ fr_field fr = f
                ∧ (∀ fr', fr' ∈ tr_fields r → fr_field fr' = f → fr' = fr)
                ∧ Normal b = Normal (fr_visible fr)) as Hfrom.
    { intros fr b Hfr Hf Hb. eexists _, fr. split; [reflexivity|].
      destruct (field_result_unique cc ctx data (f, v) fr); auto. }
    destruct (isFalsy (readProp (cc_fields cc) f)) eqn:Hm.
    + eapply Hfrom; [by rewrite delta_unmapped|done..].
    + destruct (readProp (rc_attributes (ctx_config ctx)) _) as [attr|name|] eqn:Hattr.
      * destruct (ctx_currentLevel ctx >=? ad_threshold attr) eqn:Hvis.
        -- apply Z.geb_le in Hvis.
           eapply Hfrom; [by rewrite (delta_visible cc ctx f v attr)|done..].
        -- rewrite Z.geb_leb in Hvis. apply Z.leb_gt in Hvis.
           eapply Hfrom; [by rewrite (delta_hidden cc ctx f v attr)|done..].
      * eapply Hfrom; [by rewrite (delta_inherited cc ctx f v name)|done..].
      * eapply Hfrom; [by rewrite (delta_unknown cc ctx f v)|done..].
  - right. rewrite (transformEntry_inherited _ _ _ _ Hc).
    destruct data; [by apply elem_of_nil in Hin|done].
  - left.
    destruct (unconfigured_field_result c data ctx f v Hc Hwf Hin) as (r & ? & ? & ?).
    eexists r, _. split_and!; done.
Qed.

(** C9. [shouldShow] agrees with the transformer.  For every configuration,
    level, collection name and field name, and every record that has the
    field: [shouldShow] answers [true] if and only if [transformEntry],
    under the context created from the same configuration and level,
    returns a result whose field result for the field is visible.  The two
    throw on the same inputs; when [transformEntry] returns, the result has
    exactly one field result for the field, and its [visible] flag is the
    answer of [shouldShow]. *)
Theorem shouldShow_agrees env config (level : option PrivacyLevel) c f
    (data : JsObject) v :
  Obj.wf data → (f, v) ∈ data →
  let ctx := Console.value (createContext env config level) in
  let shown := Console.value (shouldShow env c f config level) in
  let result := Console.value (transformEntry c data ctx) in
  (shown = Normal true
   ↔ ∃ r fr, result = Normal r ∧ fr ∈ tr_fields r ∧ fr_field fr = f
             ∧ fr_visible fr = true)
  ∧ (shown = TypeError ↔ result = TypeError)
  ∧ (∀ r, result = Normal r →
       ∃ fr, fr ∈ tr_fields r ∧ fr_field fr = f
         ∧ (∀ fr', fr' ∈ tr_fields r → fr_field fr' = f → fr' = fr)
         ∧ shown = Normal (fr_visible fr)).
Proof.
  intros Hwf Hin ctx shown result. subst shown result.
  destruct (shouldShow_transformEntry env config level c f data v Hwf Hin)
    as [(r & fr & Hr & Hfr & Hf & Huniq & Hs)|[Hr Hs]];
    fold ctx in Hr; rewrite Hr, Hs.
  - split_and!.
    + split.
      * intros [= Hv]. exists r, fr. by rewrite <-Hv.
      * intros (r' & fr' & [= <-] & Hfr' & Hf' & Hv').
        by rewrite <-(Huniq fr' Hfr' Hf'), Hv'.
    + done.
    + intros r' [= <-]. exists fr. done.
  - split_and!.
    + split; [done|]. by intros (r' & fr' & ? & _).
    + done.
    + done.
Qed.

Lemma shouldShow_agrees_witness :
  Console.value (shouldShow None "team" "email" testConfig (Some 2)) = Normal false
  ∧ (Console.value (shouldShow None "team" "name" testConfig (Some 2)) = Normal true
     ↔ ∃ r fr, Console.value
                 (transformEntry "team" teamMember
                    (Console.value (createContext None testConfig (Some 2))))
               = Normal r
         ∧ fr ∈ tr_fields r ∧ fr_field fr = "name" ∧ fr_visible fr = true).
Proof.
  split.
  - by vm_compute.
  - refine (proj1 (shouldShow_agrees None testConfig (Some 2) "team" "name" teamMember
                     (VStr "Jane Smith") _ _)).
    + solve_wf.
    + apply list_elem_of_In. vm_compute. auto 10.
Defined.

(** ** Reading the level *)

(** *** Decimal numerals read back *)

Lemma digitValue_char (d : N) :
  (d < 10)%N → digitValue (pretty_N_char d) = Some (Z.of_N d).
Proof.
  intros Hd.
  assert (d ∈ [0; 1; 2; 3; 4; 5; 6; 7; 8; 9]%N) as Hin.
  { rewrite !elem_of_cons, elem_of_nil. lia. }
  rewrite !elem_of_cons, elem_of_nil in Hin.
  repeat destruct Hin as [-> | Hin]; try done.
Qed.

Lemma mod_10_lt (x : N) : (x `mod` 10 < 10)%N.
Proof. apply N.mod_lt. done. Qed.

Lemma parseDigits_pretty_go (x : N) : ∀ s,
  parseDigits (pretty_N_go x s) None
  = parseDigits s (if decide (x = 0)%N then None else Some (Z.of_N x)).
Proof.
  induction (N.lt_wf_0 x) as [x _ IH]. intros s.
  destruct (decide (x = 0)%N) as [->|Hx].
  - by rewrite pretty_N_go_0.
  - rewrite pretty_N_go_step by lia.
    rewrite IH by (apply N.div_lt; lia).
    cbn [parseDigits]. rewrite (digitValue_char _ (mod_10_lt x)).
    f_equal. f_equal.
    pose proof (N.div_mod x 10 ltac:(done)) as Hdm.
    case_decide as H0; simpl; lia.
Qed.

Lemma pretty_go_head (x : N) : ∀ s,
  (0 < x)%N → ∃ d rest, (d < 10)%N ∧ pretty_N_go x s = String (pretty_N_char d) rest.
Proof.
  induction (N.lt_wf_0 x) as [x _ IH]. intros s Hx.
  rewrite pretty_N_go_step by done.
  destruct (decide (x `div` 10 = 0)%N) as [H0|H0].
  - rewrite H0, pretty_N_go_0. eexists _, _. split; [apply mod_10_lt|done].
  - apply IH; [apply N.div_lt; lia|by apply N.neq_0_lt_0].
Qed.

(** A string that starts with a digit is read from its first character. *)
Lemma parseInt10_digit_head (d : N) rest :
  (d < 10)%N →
  parseInt10 (String (pretty_N_char d) rest)
  = parseDigits (String (pretty_N_char d) rest) None.
Proof.
  intros Hd.
  assert (d ∈ [0; 1; 2; 3; 4; 5; 6; 7; 8; 9]%N) as Hin.
  { rewrite !elem_of_cons, elem_of_nil. lia. }
  rewrite !elem_of_cons, elem_of_nil in Hin.
  repeat destruct Hin as [-> | Hin]; try done;
    destruct rest as [|c2 [|c3 rest]]; reflexivity.
Qed.

Lemma parseInt10_minus rest :
  parseInt10 (String "-" rest) = Z.opp <$> parseDigits rest None.
Proof. destruct rest as [|c2 [|c3 rest]]; reflexivity. Qed.

Lemma parseInt10_pretty_N (x : N) : parseInt10 (pretty x) = Some (Z.of_N x).
Proof.
  unfold pretty, pretty_N. case_decide as Hx; [by subst|].
  destruct (pretty_go_head x EmptyString) as (d & rest & Hd & Heq); [lia|].
  rewrite Heq, (parseInt10_digit_head d rest Hd), <-Heq.
  rewrite parseDigits_pretty_go. by rewrite decide_False.
Qed.

(** [parseInt] reads the decimal numeral of every integer back. *)
Lemma parseInt10_showNumber (n : Z) : parseInt10 (showNumber n) = Some n.
Proof.
  unfold showNumber. destruct n as [|p|p].
  - reflexivity.
  - change (pretty (Z.pos p)) with (pretty (N.pos p)).
    by rewrite parseInt10_pretty_N.
  - change (pretty (Z.neg p)) with ("-" +:+ pretty (N.pos p)).
    rewrite string_app_cons, parseInt10_minus.
    change (parseDigits (EmptyString +:+ pretty (N.pos p)) None)
      with (parseDigits (pretty (N.pos p)) None).
    unfold pretty, pretty_N. rewrite decide_False by done.
    rewrite parseDigits_pretty_go. by rewrite decide_False.
Qed.

Lemma showNumber_nonempty (n : Z) : showNumber n ≠ EmptyString.
Proof.
  intros H. pose proof (parseInt10_showNumber n) as Hp. rewrite H in Hp.
  discriminate Hp.
Qed.

(** *** Strings without a digit *)

Lemma parseDigits_no_digit s acc : hasDigit s = false → parseDigits s acc = acc.
Proof.
  destruct s as [|c s]; [done|]. cbn [hasDigit parseDigits]. unfold digitValue.
  by destruct ((48 <=? code c)%nat && (code c <=? 57)%nat).
Qed.

Lemma hasDigit_tail c s : hasDigit (String c s) = false → hasDigit s = false.
Proof.
  cbn [hasDigit]. by destruct ((48 <=? code c)%nat && (code c <=? 57)%nat).
Qed.

Lemma hasDigit_trimStart (n : nat) : ∀ s,
  (String.length s ≤ n)%nat → hasDigit s = false → hasDigit (trimStart s) = false.
Proof.
  induction n as [|n IH]; intros s Hlen Hs.
  - destruct s; [done|simpl in Hlen; lia].
  - destruct s as [|c1 s1]; [done|].
    pose proof (hasDigit_tail _ _ Hs) as Hs1.
    cbn [trimStart]. destruct (isWhiteSpace1 c1).
    { apply IH; [simpl in Hlen; lia|done]. }
    destruct s1 as [|c2 s2]; [done|].
    pose proof (hasDigit_tail _ _ Hs1) as Hs2.
    destruct (isWhiteSpace2 c1 c2).
    { apply IH; [simpl in Hlen; lia|done]. }
    destruct s2 as [|c3 s3]; [done|].
    pose proof (hasDigit_tail _ _ Hs2) as Hs3.
    destruct (isWhiteSpace3 c1 c2 c3); [|done].
    apply IH; [simpl in Hlen; lia|done].
Qed.

(** [parseInt] reads no number in a string without a digit. *)
Lemma parseInt10_no_digit s : hasDigit s = false → parseInt10 s = None.
Proof.
  intros Hs. unfold parseInt10.
  pose proof (hasDigit_trimStart (String.length s) s (le_n _) Hs) as Ht.
  destruct (trimStart s) as [|c rest]; [done|].
  pose proof (hasDigit_tail _ _ Ht) as Hrest.
  destruct c as [[] [] [] [] [] [] [] []]; cbv beta iota;
    rewrite ?(parseDigits_no_digit _ None Ht), ?(parseDigits_no_digit _ None Hrest);
    reflexivity.
Qed.

(** *** [readPrivacyLevel] *)

(** [parseInt] reads a prefix: what follows the digits is ignored, and
    leading white space and a sign are accepted. *)
Lemma parseInt10_prefix :
  parseInt10 "3abc" = Some 3 ∧ parseInt10 "2.9" = Some 2
  ∧ parseInt10 " +4" = Some 4 ∧ parseInt10 "-1" = Some (-1)
  ∧ parseInt10 "abc" = None ∧ parseInt10 "" = None.
Proof. by vm_compute. Qed.

Lemma readPrivacyLevel_parsed s n fallback :
  s ≠ EmptyString → parseInt10 s = Some n →
  readPrivacyLevel (Some s) fallback
  = if (n <? 0) || (n >? 4)
    then (default 4 fallback, [invalidLevelMessage s (default 4 fallback)])
    else (n, []).
Proof.
  intros Hs Hp. unfold readPrivacyLevel. rewrite decide_False by done.
  rewrite Hp. by destruct ((n <? 0) || (n >? 4)).
Qed.

Lemma readPrivacyLevel_range env fallback :
  0 ≤ default 4 fallback ≤ 4 →
  0 ≤ Console.value (readPrivacyLevel env fallback) ≤ 4.
Proof.
  intros Hfb. unfold readPrivacyLevel. destruct env as [envVal|]; [|done].
  case_decide; [done|].
  destruct (parseInt10 envVal) as [n|]; [|done].
  destruct ((n <? 0) || (n >? 4)) eqn:Hn; [done|].
  apply orb_false_iff in Hn as [H0 H4]. rewrite Z.gtb_ltb in H4.
  apply Z.ltb_ge in H0, H4. done.
Qed.

(** C6, as stated, fails: the empty string has no digit, so it is not
    numeric, and on it the fallback is returned without any warning being
    logged. *)
Lemma empty_level_is_silent :
  hasDigit EmptyString = false ∧ ¬ fallsBackWithWarning EmptyString 2.
Proof.
  split; [done|]. intros [_ Hout]. by apply Hout.
Qed.

(** C6, amended.  [readPrivacyLevel] returns the fallback, 4 when none is
    given, without logging when the variable is unset or empty.  On the
    decimal numeral of an integer within 0..4 it returns that integer and
    logs nothing.  On the decimal numeral of an integer outside 0..4, and
    on a non-empty string without any decimal digit, it returns the
    fallback and logs one warning, which quotes the string.  The level
    returned is within 0..4 whenever the fallback is. *)
Theorem readPrivacyLevel_spec (fallback : option PrivacyLevel) :
  let fb := default 4 fallback in
  readPrivacyLevel None fallback = (fb, [])
  ∧ readPrivacyLevel (Some EmptyString) fallback = (fb, [])
  ∧ (∀ n, 0 ≤ n ≤ 4 → readPrivacyLevel (Some (showNumber n)) fallback = (n, []))
  ∧ (∀ n, n < 0 ∨ 4 < n →
       readPrivacyLevel (Some (showNumber n)) fallback
       = (fb, [invalidLevelMessage (showNumber n) fb]))
  ∧ (∀ s, s ≠ EmptyString → hasDigit s = false →
       readPrivacyLevel (Some s) fallback = (fb, [invalidLevelMessage s fb]))
  ∧ (∀ s, mentions (dquote +:+ s +:+ dquote) (invalidLevelMessage s fb))
  ∧ (∀ env, 0 ≤ fb ≤ 4 → 0 ≤ Console.value (readPrivacyLevel env fallback) ≤ 4)
  ∧ readPrivacyLevel None None = (4, [])
  ∧ readPrivacyLevel (Some "3") fallback = (3, [])
  ∧ readPrivacyLevel (Some "7") fallback = (fb, [invalidLevelMessage "7" fb])
  ∧ readPrivacyLevel (Some "-1") fallback = (fb, [invalidLevelMessage "-1" fb])
  ∧ readPrivacyLevel (Some "high") fallback = (fb, [invalidLevelMessage "high" fb]).
Proof.
  intros fb. subst fb.
  split_and!; try done.
  - intros n Hn.
    rewrite (readPrivacyLevel_parsed _ n)
      by (apply showNumber_nonempty || apply parseInt10_showNumber).
    assert ((n <? 0) || (n >? 4) = false) as ->; [|done].
    rewrite Z.gtb_ltb. apply orb_false_iff. split; apply Z.ltb_ge; lia.
  - intros n Hn.
    rewrite (readPrivacyLevel_parsed _ n)
      by (apply showNumber_nonempty || apply parseInt10_showNumber).
    assert ((n <? 0) || (n >? 4) = true) as ->; [|done].
    rewrite Z.gtb_ltb. apply orb_true_iff.
    destruct Hn; [left|right]; by apply Z.ltb_lt.
  - intros s Hs Hd. unfold readPrivacyLevel. rewrite decide_False by done.
    by rewrite (parseInt10_no_digit s Hd).
  - intros s. unfold invalidLevelMessage.
    change ("[responsive-privacy] Invalid PRIVACY_LEVEL=" +:+ ?x)
      with ("[responsive-privacy] Invalid PRIVACY_LEVEL=" +:+ x).
    apply mentions_append_l.
    exists EmptyString, (". Must be 0–4. Falling back to "
                        +:+ showNumber (default 4 fallback) +:+ ".").
    by rewrite !string_app_assoc.
  - intros env. apply readPrivacyLevel_range.
Qed.

(** * Further properties of the transformer *)

Ltac solve_in := apply list_elem_of_In; vm_compute; auto 10.

Lemma Normal_inj {A} (a b : A) : Normal a = Normal b → a = b.
Proof. by intros [= ->]. Qed.

Lemma value_pair {A} (a : A) (out : list string) : Console.value (a, out) = a.
Proof. done. Qed.

Lemma output_pair {A} (a : A) (out : list string) : Console.output (a, out) = out.
Proof. done. Qed.

(** ** One field of a configured collection *)

(** X1. A field mapped to a non-empty id of a known attribute whose
    threshold is above the current level is hidden: [transformEntry]
    returns, the field is among the hidden field names, its field result is
    not visible and carries the substitute and the strategy, and the
    filtered record holds the substitute under its key when the strategy is
    [replace] (a field named [__proto__] is not a key of it) and lacks the
    key otherwise.  The original value is under the key only if it is the
    substitute itself. *)
Theorem hidden_field c cc ctx (data : JsObject) f v id attr :
  rc_collections (ctx_config ctx) !! c = Some cc →
  Obj.wf data → (f, v) ∈ data →
  cc_fields cc !! f = Some id → id ≠ EmptyString →
  rc_attributes (ctx_config ctx) !! id = Some attr →
  ctx_currentLevel ctx < ad_threshold attr →
  let fr := {| fr_field := f; fr_attributeId := id; fr_visible := false;
               fr_value := getRedactedValue attr;
               fr_redactionApplied := Some (default Omit (ad_redaction attr)) |} in
  ∃ r, Console.value (transformEntry c data ctx) = Normal r
  ∧ f ∈ tr_hiddenFields r
  ∧ fr ∈ tr_fields r
  ∧ (∀ fr', fr' ∈ tr_fields r → fr_field fr' = f → fr' = fr)
  ∧ (ad_redaction attr = Some Replace →
       Obj.get f (tr_data r)
       = if decide (f = "__proto__") then None else Some (getRedactedValue attr))
  ∧ (ad_redaction attr ≠ Some Replace → Obj.get f (tr_data r) = None)
  ∧ (Obj.get f (tr_data r) = Some v → v = getRedactedValue attr).
Proof.
  intros Hc Hwf Hin Hmap Hid Hattr Hlt fr. subst fr.
  rewrite (transformEntry_configured _ _ _ _ Hc).
  eexists. split; [reflexivity|].
  assert (Hm := isFalsy_mapped _ _ _ Hmap Hid).
  pose proof (delta_hidden cc ctx f v attr Hm) as Hd.
  rewrite (readProp_Some _ _ _ Hmap) in Hd. cbn [toPropertyKey attributeRef] in Hd.
  specialize (Hd (readProp_Some _ _ _ Hattr) Hlt).
  assert (ad_redaction attr = Some Replace →
          Obj.get f (tr_data (Console.value (applyLoop data cc ctx)))
          = if decide (f = "__proto__") then None else Some (getRedactedValue attr))
    as Hrep.
  { intros Hr. rewrite (get_field cc ctx data f v) by done.
    rewrite Hd, Hr. cbn [acc_result].
    change (default Omit (Some Replace)) with Replace.
    rewrite decide_True by done. apply get_put_nil. }
  assert (ad_redaction attr ≠ Some Replace →
          Obj.get f (tr_data (Console.value (applyLoop data cc ctx))) = None)
    as Homit.
  { intros Hr. rewrite (get_field cc ctx data f v) by done.
    rewrite Hd. by destruct (ad_redaction attr) as [[|]|]. }
  split_and!; try done.
  - apply (in_hidden cc ctx data (f, v)); [done|]. by rewrite Hd.
  - apply (field_result_unique cc ctx data (f, v)); try done. by rewrite Hd.
  - apply (field_result_unique cc ctx data (f, v)); try done. by rewrite Hd.
  - destruct (decide (ad_redaction attr = Some Replace)) as [Hr|Hr].
    + rewrite (Hrep Hr). case_decide; congruence.
    + by rewrite (Homit Hr).
Qed.

Lemma hidden_field_witness :
  ∃ r, Console.value (transformEntry "team" teamMember (testContext 1)) = Normal r
       ∧ Obj.get "name" (tr_data r) = Some (VStr "Staff Member").
Proof.
  destruct (hidden_field "team" teamCollection (testContext 1) teamMember "name"
       (VStr "Jane Smith") "ID-01"
       (mkAttr "Full Name" Identity High 2 (Some Replace) (Some "Staff Member") None))
    as (r & Hr & H).
  - vm_compute. reflexivity.
  - solve_wf.
  - solve_in.
  - vm_compute. reflexivity.
  - discriminate.
  - vm_compute. reflexivity.
  - simpl. lia.
  - exists r. split; [exact Hr|].
    exact (proj1 (proj2 (proj2 (proj2 H))) eq_refl).
Defined.

(** X2. A field mapped to a known attribute whose threshold is at most the
    current level passes through: [transformEntry] returns, the filtered
    record holds the value of the field (a field named [__proto__] is not a
    key of it), its field result is visible, records the attribute id and
    no redaction, and the field is not hidden. *)
Theorem visible_field c cc ctx (data : JsObject) f v id attr :
  rc_collections (ctx_config ctx) !! c = Some cc →
  Obj.wf data → (f, v) ∈ data →
  cc_fields cc !! f = Some id → id ≠ EmptyString →
  rc_attributes (ctx_config ctx) !! id = Some attr →
  ad_threshold attr ≤ ctx_currentLevel ctx →
  let fr := {| fr_field := f; fr_attributeId := id; fr_visible := true;
               fr_value := v; fr_redactionApplied := None |} in
  ∃ r, Console.value (transformEntry c data ctx) = Normal r
  ∧ Obj.get f (tr_data r) = (if decide (f = "__proto__") then None else Some v)
  ∧ fr ∈ tr_fields r
  ∧ (∀ fr', fr' ∈ tr_fields r → fr_field fr' = f → fr' = fr)
  ∧ (f ∉ tr_hiddenFields r).
Proof.
  intros Hc Hwf Hin Hmap Hid Hattr Hle fr. subst fr.
  rewrite (transformEntry_configured _ _ _ _ Hc).
  eexists. split; [reflexivity|].
  assert (Hm := isFalsy_mapped _ _ _ Hmap Hid).
  pose proof (delta_visible cc ctx f v attr Hm) as Hd.
  rewrite (readProp_Some _ _ _ Hmap) in Hd. cbn [toPropertyKey attributeRef] in Hd.
  specialize (Hd (readProp_Some _ _ _ Hattr) Hle).
  split_and!.
  - rewrite (get_field cc ctx data f v) by done. rewrite Hd. apply get_put_nil.
  - apply (field_result_unique cc ctx data (f, v)); try done. by rewrite Hd.
  - apply (field_result_unique cc ctx data (f, v)); try done. by rewrite Hd.
  - apply (not_in_hidden cc ctx data (f, v)); try done. by rewrite Hd.
Qed.

Lemma visible_field_witness :
  ∃ r, Console.value (transformEntry "team" teamMember (testContext 1)) = Normal r
       ∧ Obj.get "role" (tr_data r) = Some (VStr "Program Director").
Proof.
  destruct (visible_field "team" teamCollection (testContext 1) teamMember "role"
       (VStr "Program Director") "ID-03"
       (mkAttr "Job Title/Role" Identity Medium 1 None None None))
    as (r & Hr & H & _).
  - vm_compute. reflexivity.
  - solve_wf.
  - solve_in.
  - vm_compute. reflexivity.
  - discriminate.
  - vm_compute. reflexivity.
  - simpl. lia.
  - exists r. split; [exact Hr|exact H].
Defined.

(** X3. A field for which the mapping of the collection yields [undefined]
    (the mapping does not mention it, and [Object.prototype] has no member
    of its name) passes through at every level: [transformEntry] returns,
    the filtered record holds the value of the field, its field result is
    visible with the empty attribute id, and it is not hidden.  A field
    that the mapping does not mention and that bears the name of a member
    of [Object.prototype] is not such a field: the inherited member is
    taken for its attribute id. *)
Theorem unmapped_field c cc ctx (data : JsObject) f v :
  rc_collections (ctx_config ctx) !! c = Some cc →
  Obj.wf data → (f, v) ∈ data →
  readProp (cc_fields cc) f = Undefined →
  let fr := {| fr_field := f; fr_attributeId := EmptyString; fr_visible := true;
               fr_value := v; fr_redactionApplied := None |} in
  ∃ r, Console.value (transformEntry c data ctx) = Normal r
  ∧ Obj.get f (tr_data r) = Some v
  ∧ fr ∈ tr_fields r
  ∧ (∀ fr', fr' ∈ tr_fields r → fr_field fr' = f → fr' = fr)
  ∧ (f ∉ tr_hiddenFields r)
  ∧ (∀ f' v' name, (f', v') ∈ data →
       readProp (cc_fields cc) f' = Inherited name →
       ∃ fr', fr' ∈ tr_fields r ∧ fr_field fr' = f'
              ∧ fr_attributeId fr' = InheritedMember name).
Proof.
  intros Hc Hwf Hin Hmap fr. subst fr.
  rewrite (transformEntry_configured _ _ _ _ Hc).
  eexists. split; [reflexivity|].
  assert (isFalsy (readProp (cc_fields cc) f) = true) as Hm by (by rewrite Hmap).
  pose proof (delta_unmapped cc ctx f v Hm) as Hd.
  assert (f ≠ "__proto__") as Hp.
  { intros ->. by apply readProp_Undefined in Hmap as [_ ?]. }
  split_and!.
  - rewrite (get_field cc ctx data f v) by done. rewrite Hd. cbn [acc_result].
    rewrite get_put_nil. by rewrite decide_False.
  - apply (field_result_unique cc ctx data (f, v)); try done. by rewrite Hd.
  - apply (field_result_unique cc ctx data (f, v)); try done. by rewrite Hd.
  - apply (not_in_hidden cc ctx data (f, v)); try done. by rewrite Hd.
  - intros f' v' name Hin' Hinh.
    destruct (delta_fields cc ctx (f', v')) as (fr' & Hfr' & Hf').
    exists fr'. split; [|split; [done|]].
    + apply (field_result_unique cc ctx data (f', v')); done.
    + revert Hfr'. unfold delta, applyField. cbn [fst snd]. rewrite Hinh.
      cbn [isFalsy].
      destruct (readProp (rc_attributes (ctx_config ctx)) _) as [attr| |];
        [destruct (ctx_currentLevel ctx >=? ad_threshold attr);
         [|destruct (bool_decide _ && _)]|..];
        simpl; by intros [= <-].
Qed.

Lemma unmapped_field_witness :
  ∃ r, Console.value (transformEntry "team" teamMember (testContext 0)) = Normal r
       ∧ Obj.get "slug" (tr_data r) = Some (VStr "jane-smith").
Proof.
  destruct (unmapped_field "team" teamCollection (testContext 0) teamMember "slug"
              (VStr "jane-smith")) as (r & Hr & H & _).
  - vm_compute. reflexivity.
  - solve_wf.
  - solve_in.
  - vm_compute. reflexivity.
  - exists r. split; [exact Hr|exact H].
Defined.

(** ** The result as a whole *)

(** Case analysis following the branches of [applyField] on entry [e]. *)
Ltac entry_cases cc ctx e :=
  let attr := fresh "attr" in
  let name := fresh "name" in
  let Hmap := fresh "Hmap" in
  let Hattr := fresh "Hattr" in
  let Hvis := fresh "Hvis" in
  let Hred := fresh "Hred" in
  let Hcp := fresh "Hcp" in
  unfold delta, applyField;
  destruct (isFalsy (readProp (cc_fields cc) e.1)) eqn:Hmap;
  [ | destruct (readProp (rc_attributes (ctx_config ctx)) _) as [attr|name|] eqn:Hattr;
      [ destruct (ctx_currentLevel ctx >=? ad_threshold attr) eqn:Hvis;
        [ | unfold getRedactedValue;
            destruct (ad_redaction attr) as [[|]|] eqn:Hred;
            destruct (ad_complianceProtected attr) as [[|]|] eqn:Hcp ]
      | | ] ];
  simpl.

Lemma unconfigured_result c (data : JsObject) ctx :
  readProp (rc_collections (ctx_config ctx)) c = Undefined → Obj.wf data →
  Console.value (transformEntry c data ctx)
  = Normal
      {| tr_data := data;
         tr_fields :=
           (λ field, {| fr_field := field; fr_attributeId := EmptyString;
                        fr_visible := true; fr_value := readField field data;
                        fr_redactionApplied := None |}) <$> Obj.keys data;
         tr_hiddenFields := []; tr_warnings := [] |}.
Proof.
  intros Hc Hwf. rewrite (transformEntry_absent _ _ _ Hc). simpl.
  by rewrite spread_wf.
Qed.

(** The three readings of a collection name. *)
Lemma transformEntry_cases c (data : JsObject) ctx :
  Obj.wf data →
  (∃ cc, rc_collections (ctx_config ctx) !! c = Some cc
     ∧ transformEntry c data ctx
       = (Normal (Console.value (applyLoop data cc ctx)),
          Console.output (applyLoop data cc ctx)))
  ∨ (readProp (rc_collections (ctx_config ctx)) c = Undefined
     ∧ transformEntry c data ctx
       = (Normal
            {| tr_data := data;
               tr_fields :=
                 (λ field, {| fr_field := field; fr_attributeId := EmptyString;
                              fr_visible := true; fr_value := readField field data;
                              fr_redactionApplied := None |}) <$> Obj.keys data;
               tr_hiddenFields := []; tr_warnings := [] |}, []))
  ∨ (∃ name, readProp (rc_collections (ctx_config ctx)) c = Inherited name
     ∧ transformEntry c data ctx
       = (match data with
          | [] => Normal {| tr_data := []; tr_fields := []; tr_hiddenFields := [];
                            tr_warnings := [] |}
          | _ :: _ => TypeError
          end, [])).
Proof.
  intros Hwf.
  destruct (readProp (rc_collections (ctx_config ctx)) c) as [cc|name|] eqn:Hc.
  - left. apply readProp_Own in Hc. exists cc. split; [done|].
    by apply transformEntry_configured.
  - right. right. exists name. split; [done|].
    by apply (transformEntry_inherited _ _ _ name).
  - right. left. split; [done|]. rewrite (transformEntry_absent _ _ _ Hc).
    by rewrite spread_wf.
Qed.

Lemma bind_singleton_id {A} (l : list A) : l ≫= (λ x, [x]) = l.
Proof. induction l as [|x l IH]; [done|]. by rewrite bind_cons, IH. Qed.

Lemma bind_sublist {A B} (g1 g2 : A → list B) (l : list A) :
  (∀ x, x ∈ l → g1 x `sublist_of` g2 x) → (l ≫= g1) `sublist_of` (l ≫= g2).
Proof.
  induction l as [|x l IH]; intros H; [done|].
  rewrite !bind_cons. apply sublist_app; [apply H; by left|].
  apply IH. intros y Hy. apply H. by right.
Qed.

(** X4. Whatever the collection name, a call of [transformEntry] that
    returns has neither invented nor reordered keys: the keys of the
    filtered record and the hidden field names are each a subsequence of
    the keys of the input, and the field results name the keys of the
    input, one by one, in their order.  The call throws exactly when the
    record has a field and the collection name is not configured and is
    the name of a member of [Object.prototype]. *)
Theorem transformEntry_keeps_order c (data : JsObject) ctx :
  Obj.wf data →
  (∀ r, Console.value (transformEntry c data ctx) = Normal r →
     Obj.keys (tr_data r) `sublist_of` Obj.keys data
     ∧ tr_hiddenFields r `sublist_of` Obj.keys data
     ∧ fr_field <$> tr_fields r = Obj.keys data)
  ∧ (Console.value (transformEntry c data ctx) = TypeError
     ↔ rc_collections (ctx_config ctx) !! c = None
       ∧ isPrototypeName c = true ∧ data ≠ []).
Proof.
  intros Hwf. split.
  - intros r.
    destruct (transformEntry_cases c data ctx Hwf)
      as [(cc & Hc & ->)|[(Hc & ->)|(name & Hc & ->)]]; rewrite value_pair.
    + intros <-%Normal_inj.
      rewrite (applyLoop_data _ _ _ Hwf), applyLoop_hiddenFields, applyLoop_fields.
      split_and!; [apply kept_sublist|apply hidden_sublist|apply field_names].
    + intros <-%Normal_inj. simpl. split_and!.
      * done.
      * apply sublist_nil_l.
      * rewrite <-list_fmap_compose. apply list_fmap_id.
    + destruct data; [|done]. intros <-%Normal_inj. done.
  - rewrite transformEntry_throws. split.
    + intros [(name & (? & ? & _)%readProp_Inherited) ?]. done.
    + intros (H1 & H2 & H3). split; [|done]. exists c.
      apply readProp_Inherited. done.
Qed.

Lemma transformEntry_keeps_order_witness :
  tr_hiddenFields (Console.value (applyLoop teamMember teamCollection (testContext 2)))
  `sublist_of` Obj.keys teamMember.
Proof.
  refine (proj1 (proj2 (proj1
    (transformEntry_keeps_order "team" teamMember (testContext 2) _) _ _))).
  - solve_wf.
  - vm_compute. reflexivity.
Defined.

Lemma delta_result_provenance cc ctx (e p : string * JsValue) :
  p ∈ acc_result (delta cc ctx e) →
  p = e
  ∨ ∃ attr,
      isFalsy (readProp (cc_fields cc) e.1) = false
      ∧ readProp (rc_attributes (ctx_config ctx))
          (toPropertyKey (readProp (cc_fields cc) e.1)) = Own attr
      ∧ ctx_currentLevel ctx < ad_threshold attr
      ∧ ad_redaction attr = Some Replace
      ∧ p = (e.1, getRedactedValue attr).
Proof.
  destruct e as [f v].
  entry_cases cc ctx (f, v); rewrite ?put_nil; try case_decide;
    rewrite ?list_elem_of_singleton, ?elem_of_nil; try done;
    intros ->; auto; right; exists attr; split_and!; try done;
    try (rewrite Z.geb_leb in Hvis; by apply Z.leb_gt);
    unfold getRedactedValue; by rewrite Hred.
Qed.

(** X5. Every entry of the filtered record is an entry of the input, or
    holds the substitute of the attribute that its key is mapped to, that
    attribute being hidden at the current level with the [replace]
    strategy: no other value is ever written.  A key that the mapping does
    not have and [Object.prototype] has is mapped to the attribute that the
    catalog files under the text of the inherited member. *)
Theorem filtered_values_provenance c (data : JsObject) ctx r k v' :
  Obj.wf data →
  Console.value (transformEntry c data ctx) = Normal r →
  (k, v') ∈ tr_data r →
  (k, v') ∈ data
  ∨ (∃ cc id attr, rc_collections (ctx_config ctx) !! c = Some cc
      ∧ cc_fields cc !! k = Some id
      ∧ rc_attributes (ctx_config ctx) !! id = Some attr
      ∧ ctx_currentLevel ctx < ad_threshold attr
      ∧ ad_redaction attr = Some Replace
      ∧ v' = getRedactedValue attr)
  ∨ (∃ cc attr, rc_collections (ctx_config ctx) !! c = Some cc
      ∧ cc_fields cc !! k = None ∧ isPrototypeName k = true
      ∧ rc_attributes (ctx_config ctx) !! inheritedToString k = Some attr
      ∧ ctx_currentLevel ctx < ad_threshold attr
      ∧ ad_redaction attr = Some Replace
      ∧ v' = getRedactedValue attr).
Proof.
  intros Hwf.
  destruct (transformEntry_cases c data ctx Hwf)
    as [(cc & Hc & ->)|[(Hc & ->)|(name & Hc & ->)]]; rewrite value_pair.
  - intros <-%Normal_inj. rewrite (applyLoop_data _ _ _ Hwf).
    intros (e & Hp & He)%list_elem_of_bind.
    apply delta_result_provenance in Hp
      as [->|(attr & Hm & Ha & ? & ? & [= -> ->])]; [by left|].
    right.
    destruct (readProp (cc_fields cc) e.1) as [id|name|] eqn:Hmap; [| |done].
    + left. apply readProp_Own in Hmap, Ha. exists cc, id, attr. done.
    + right. apply readProp_Inherited in Hmap as (? & ? & ->).
      apply readProp_Own in Ha. exists cc, attr. done.
  - intros <-%Normal_inj. simpl. by left.
  - destruct data; [|done]. intros <-%Normal_inj. simpl. by intros ?%elem_of_nil.
Qed.

Lemma filtered_values_provenance_witness :
  ("email", VStr "Contact the organization") ∈ teamMember
  ∨ (∃ cc id attr,
      rc_collections (ctx_config (testContext 2)) !! "team" = Some cc
      ∧ cc_fields cc !! "email" = Some id
      ∧ rc_attributes (ctx_config (testContext 2)) !! id = Some attr
      ∧ ctx_currentLevel (testContext 2) < ad_threshold attr
      ∧ ad_redaction attr = Some Replace
      ∧ VStr "Contact the organization" = getRedactedValue attr)
  ∨ (∃ cc attr, rc_collections (ctx_config (testContext 2)) !! "team" = Some cc
      ∧ cc_fields cc !! "email" = None ∧ isPrototypeName "email" = true
      ∧ rc_attributes (ctx_config (testContext 2)) !! inheritedToString "email"
        = Some attr
      ∧ ctx_currentLevel (testContext 2) < ad_threshold attr
      ∧ ad_redaction attr = Some Replace
      ∧ VStr "Contact the organization" = getRedactedValue attr).
Proof.
  apply (filtered_values_provenance "team" teamMember (testContext 2)
           (Console.value (applyLoop teamMember teamCollection (testContext 2)))).
  - solve_wf.
  - vm_compute. reflexivity.
  - solve_in.
Defined.

Lemma delta_audit cc ctx (e : string * JsValue) :
  e.1 ≠ "__proto__" →
  acc_hiddenFields (delta cc ctx e)
  = fr_field <$> filter (λ fr, fr_visible fr = false) (acc_fields (delta cc ctx e))
  ∧ acc_result (delta cc ctx e) = omap keptEntry (acc_fields (delta cc ctx e))
  ∧ (length (acc_warnings (delta cc ctx e))
     ≤ length (acc_hiddenFields (delta cc ctx e)))%nat
  ∧ ∀ fr, fr ∈ acc_fields (delta cc ctx e) →
          (fr_visible fr = true ↔ fr_redactionApplied fr = None).
Proof.
  destruct e as [f v]. intros Hp. simpl in Hp.
  entry_cases cc ctx (f, v); rewrite ?put_nil, ?decide_False by done;
    (split_and!; [done|done|simpl; lia|]);
    intros fr ->%list_elem_of_singleton; done.
Qed.

(** X6. For a record without an own key [__proto__], the field results of
    a call that returns account for the rest of the result: the hidden
    field names are the names of the field results that are not visible, in
    order; the filtered record lists the field and value of every field
    result that is not an omission, in order; a field result is visible
    exactly when it records no redaction; and there are at most as many
    warnings as hidden fields. *)
Theorem fields_account_for_result c (data : JsObject) ctx r :
  Obj.wf data →
  "__proto__" ∉ Obj.keys data →
  Console.value (transformEntry c data ctx) = Normal r →
  tr_hiddenFields r
  = fr_field <$> filter (λ fr, fr_visible fr = false) (tr_fields r)
  ∧ tr_data r = omap keptEntry (tr_fields r)
  ∧ (∀ fr, fr ∈ tr_fields r →
       (fr_visible fr = true ↔ fr_redactionApplied fr = None))
  ∧ (length (tr_warnings r) ≤ length (tr_hiddenFields r))%nat.
Proof.
  intros Hwf Hproto.
  assert (∀ e, e ∈ data → e.1 ≠ "__proto__") as Hnp
    by (intros e; by apply not_proto_entry).
  destruct (transformEntry_cases c data ctx Hwf)
    as [(cc & Hc & ->)|[(Hc & ->)|(name & Hc & ->)]]; rewrite value_pair.
  - intros <-%Normal_inj.
    rewrite (applyLoop_data _ _ _ Hwf), applyLoop_hiddenFields,
      applyLoop_fields, applyLoop_warnings.
    clear Hproto. split_and!.
    + clear Hwf. induction data as [|e data IH]; [done|].
      rewrite !bind_cons, filter_app, fmap_app, <-IH
        by (intros e' He'; apply Hnp; by right).
      by rewrite (proj1 (delta_audit cc ctx e (Hnp e ltac:(by left)))).
    + clear Hwf. induction data as [|e data IH]; [done|].
      rewrite !bind_cons, omap_app, <-IH
        by (intros e' He'; apply Hnp; by right).
      by rewrite (proj1 (proj2 (delta_audit cc ctx e (Hnp e ltac:(by left))))).
    + intros fr (e & Hfr & He)%list_elem_of_bind.
      by apply (delta_audit cc ctx e (Hnp e He)).
    + clear Hwf. induction data as [|e data IH]; [done|].
      rewrite !bind_cons, !length_app.
      pose proof (proj1 (proj2 (proj2 (delta_audit cc ctx e (Hnp e ltac:(by left)))))).
      specialize (IH ltac:(intros e' He'; apply Hnp; by right)). lia.
  - intros <-%Normal_inj. simpl. clear Hproto Hnp. split_and!.
    + induction (Obj.keys data) as [|k ks IH]; [done|].
      rewrite fmap_cons, filter_cons. by case_decide.
    + unfold Obj.wf, Obj.keys in *.
      induction data as [|[k v] data IH]; [done|].
      apply NoDup_cons in Hwf as [Hk Hwf].
      rewrite !fmap_cons. cbn [omap list_omap keptEntry]. simpl.
      unfold readField at 1. simpl. rewrite decide_True by done. simpl.
      f_equal. rewrite (IH Hwf) at 1. f_equal.
      apply list_fmap_ext. intros i k' Hk'. f_equal.
      unfold readField. simpl. rewrite decide_False; [done|].
      intros ->. apply Hk. by apply list_elem_of_lookup_2 in Hk'.
    + intros fr (k & -> & _)%list_elem_of_fmap. done.
    + lia.
  - destruct data; [|done]. intros <-%Normal_inj. simpl.
    split_and!; [done|done|by intros fr ?%elem_of_nil|lia].
Qed.

Lemma fields_account_for_result_witness :
  let r := Console.value (applyLoop teamMember teamCollection (testContext 1)) in
  tr_data r = omap keptEntry (tr_fields r).
Proof.
  refine (proj1 (proj2
    (fields_account_for_result "team" teamMember (testContext 1) _ _ _ _))).
  - solve_wf.
  - apply (bool_decide_unpack _). vm_compute. exact I.
  - vm_compute. reflexivity.
Defined.

(** ** Visibility across the exported functions and across levels *)

(** X7. The transformer and [isAttributeVisible] decide alike: for a field
    with a non-empty mapping, [transformEntry] returns, the [visible] flag
    of the field result of the field is the answer of [isAttributeVisible]
    for the mapped id, the current level and the resolved catalog, and the
    field is hidden exactly when that answer is [false]. *)
Theorem visible_flag_is_isAttributeVisible c cc ctx (data : JsObject) f v id :
  rc_collections (ctx_config ctx) !! c = Some cc →
  Obj.wf data → (f, v) ∈ data →
  cc_fields cc !! f = Some id → id ≠ EmptyString →
  let answer := isAttributeVisible id (ctx_currentLevel ctx)
                  (rc_attributes (ctx_config ctx)) in
  ∃ r, Console.value (transformEntry c data ctx) = Normal r
  ∧ (∃ fr, fr ∈ tr_fields r ∧ fr_field fr = f ∧ fr_attributeId fr = id
           ∧ fr_visible fr = answer)
  ∧ (f ∈ tr_hiddenFields r ↔ answer = false).
Proof.
  intros Hc Hwf Hin Hmap Hid answer. subst answer.
  rewrite (transformEntry_configured _ _ _ _ Hc). unfold isAttributeVisible.
  eexists. split; [reflexivity|].
  assert (∀ fr, acc_fields (delta cc ctx (f, v)) = [fr] →
            fr ∈ tr_fields (Console.value (applyLoop data cc ctx))) as Hmem.
  { intros fr Hfr. by apply (field_result_unique cc ctx data (f, v)). }
  assert (Hm := isFalsy_mapped _ _ _ Hmap Hid).
  pose proof (delta_visible cc ctx f v) as Hdv.
  pose proof (delta_hidden cc ctx f v) as Hdh.
  pose proof (delta_unknown cc ctx f v) as Hdu.
  pose proof (delta_inherited cc ctx f v) as Hdi.
  rewrite (readProp_Some _ _ _ Hmap) in Hdv, Hdh, Hdu, Hdi.
  cbn [toPropertyKey attributeRef] in Hdv, Hdh, Hdu, Hdi.
  rewrite (readProp_Some _ _ _ Hmap) in Hm.
  destruct (readProp (rc_attributes (ctx_config ctx)) id) as [attr|name|] eqn:Hattr.
  - destruct (ctx_currentLevel ctx >=? ad_threshold attr) eqn:Hvis.
    + pose proof Hvis as Hle. apply Z.geb_le in Hle.
      pose proof (Hdv attr Hm eq_refl Hle) as Hd.
      split.
      * eexists. split; [apply Hmem; by rewrite Hd|done].
      * split; [|done]. intros Hh.
        by apply (not_in_hidden cc ctx data (f, v)) in Hh; [|done|done|rewrite Hd].
    + pose proof Hvis as Hlt. rewrite Z.geb_leb in Hlt. apply Z.leb_gt in Hlt.
      pose proof (Hdh attr Hm eq_refl Hlt) as Hd.
      split.
      * eexists. split; [apply Hmem; by rewrite Hd|done].
      * split; [done|]. intros _.
        apply (in_hidden cc ctx data (f, v)); [done|]. by rewrite Hd.
  - pose proof (Hdi name Hm eq_refl) as Hd.
    split.
    + eexists. split; [apply Hmem; by rewrite Hd|done].
    + split; [done|]. intros _.
      apply (in_hidden cc ctx data (f, v)); [done|]. by rewrite Hd.
  - pose proof (Hdu Hm eq_refl) as Hd.
    split.
    + eexists. split; [apply Hmem; by rewrite Hd|done].
    + split; [|done]. intros Hh.
      by apply (not_in_hidden cc ctx data (f, v)) in Hh; [|done|done|rewrite Hd].
Qed.

Lemma visible_flag_is_isAttributeVisible_witness :
  ∃ r, Console.value (transformEntry "team" teamMember (testContext 2)) = Normal r
  ∧ ("bio" ∈ tr_hiddenFields r
     ↔ isAttributeVisible "ID-04" (ctx_currentLevel (testContext 2))
         (rc_attributes (ctx_config (testContext 2))) = false).
Proof.
  destruct (visible_flag_is_isAttributeVisible "team" teamCollection (testContext 2)
       teamMember "bio"
       (VStr "Jane has 15 years of experience in humanitarian response.")
       "ID-04") as (r & Hr & _ & H).
  - vm_compute. reflexivity.
  - solve_wf.
  - solve_in.
  - vm_compute. reflexivity.
  - discriminate.
  - exists r. split; [exact Hr|exact H].
Defined.

Lemma delta_disclosed cc ctx (e : string * JsValue) :
  e.1 ≠ "__proto__" →
  (∀ id attr, rc_attributes (ctx_config ctx) !! id = Some attr →
              ad_threshold attr ≤ ctx_currentLevel ctx) →
  (∀ id, cc_fields cc !! e.1 = Some id →
         rc_attributes (ctx_config ctx) !! id = None → isPrototypeName id = false) →
  acc_result (delta cc ctx e) = [e]
  ∧ acc_hiddenFields (delta cc ctx e) = []
  ∧ acc_warnings (delta cc ctx e) = []
  ∧ ∀ fr, fr ∈ acc_fields (delta cc ctx e) → fr_visible fr = true.
Proof.
  intros Hp Hall Hnames. destruct e as [f v]. simpl in Hp, Hnames.
  entry_cases cc ctx (f, v); rewrite ?put_nil, ?decide_False by done;
    try (apply readProp_Own in Hattr; apply Hall in Hattr;
         apply Z.geb_le in Hattr; congruence).
  1-2, 4: (split_and!; [done..|]); intros fr ->%list_elem_of_singleton; done.
  exfalso. apply readProp_Inherited in Hattr as (Hn & Hpn & ->).
  cbn [fst] in Hn, Hpn, Hmap.
  destruct (readProp (cc_fields cc) f) as [id|name'|] eqn:Hm;
    cbn [toPropertyKey] in Hn, Hpn.
  - apply readProp_Own in Hm. by rewrite (Hnames id Hm Hn) in Hpn.
  - by rewrite inheritedToString_not_prototype in Hpn.
  - done.
Qed.

Lemma bind_nil {A B} (g : A → list B) (l : list A) :
  (∀ x, x ∈ l → g x = []) → l ≫= g = [].
Proof.
  induction l as [|x l IH]; [done|]. intros H.
  rewrite bind_cons, (H x) by (by left). apply IH. intros y Hy. apply H. by right.
Qed.

Lemma bind_self {A} (g : A → list A) (l : list A) :
  (∀ x, x ∈ l → g x = [x]) → l ≫= g = l.
Proof.
  induction l as [|x l IH]; [done|]. intros H.
  rewrite bind_cons, (H x) by (by left). simpl. f_equal.
  apply IH. intros y Hy. apply H. by right.
Qed.

(** What the loop returns when nothing is withheld. *)
Lemma applyLoop_disclosed cc ctx (data : JsObject) :
  Obj.wf data →
  "__proto__" ∉ Obj.keys data →
  (∀ id attr, rc_attributes (ctx_config ctx) !! id = Some attr →
              ad_threshold attr ≤ ctx_currentLevel ctx) →
  (∀ f id, cc_fields cc !! f = Some id →
           rc_attributes (ctx_config ctx) !! id = None → isPrototypeName id = false) →
  let r := Console.value (applyLoop data cc ctx) in
  tr_data r = data
  ∧ tr_hiddenFields r = []
  ∧ tr_warnings r = []
  ∧ ∀ fr, fr ∈ tr_fields r → fr_visible fr = true.
Proof.
  intros Hwf Hproto Hall Hnames r. subst r.
  assert (∀ e, e ∈ data →
            acc_result (delta cc ctx e) = [e]
            ∧ acc_hiddenFields (delta cc ctx e) = []
            ∧ acc_warnings (delta cc ctx e) = []
            ∧ ∀ fr, fr ∈ acc_fields (delta cc ctx e) → fr_visible fr = true) as Hd.
  { intros e He. apply delta_disclosed; [by apply (not_proto_entry data)|done|].
    intros id. apply Hnames. }
  rewrite (applyLoop_data _ _ _ Hwf), applyLoop_hiddenFields,
    applyLoop_fields, applyLoop_warnings.
  split_and!.
  - apply bind_self. intros e He. by apply Hd.
  - apply bind_nil. intros e He. by apply Hd.
  - apply bind_nil. intros e He. by apply Hd.
  - intros fr (e & Hfr & He)%list_elem_of_bind. by apply (Hd e He).
Qed.

(** X8. Take a record without an own key [__proto__] and a collection none
    of whose fields is mapped to a name that the catalog lacks and
    [Object.prototype] has.  When no attribute of the resolved catalog has
    a threshold above the current level, a call of [transformEntry] that
    returns withholds nothing: the filtered record is the input, no field
    is hidden, there is no warning, and every field result is visible. *)
Theorem full_disclosure c (data : JsObject) ctx r :
  Obj.wf data →
  "__proto__" ∉ Obj.keys data →
  (∀ id attr, rc_attributes (ctx_config ctx) !! id = Some attr →
              ad_threshold attr ≤ ctx_currentLevel ctx) →
  (∀ cc f id, rc_collections (ctx_config ctx) !! c = Some cc →
              cc_fields cc !! f = Some id →
              rc_attributes (ctx_config ctx) !! id = None →
              isPrototypeName id = false) →
  Console.value (transformEntry c data ctx) = Normal r →
  tr_data r = data
  ∧ tr_hiddenFields r = []
  ∧ tr_warnings r = []
  ∧ ∀ fr, fr ∈ tr_fields r → fr_visible fr = true.
Proof.
  intros Hwf Hproto Hall Hnames.
  destruct (transformEntry_cases c data ctx Hwf)
    as [(cc & Hc & ->)|[(Hc & ->)|(name & Hc & ->)]]; rewrite value_pair.
  - intros <-%Normal_inj. apply applyLoop_disclosed; try done.
    intros f id. by apply (Hnames cc).
  - intros <-%Normal_inj. simpl. split_and!; try done.
    intros fr (k & -> & _)%list_elem_of_fmap. done.
  - destruct data; [|done]. intros <-%Normal_inj. simpl.
    split_and!; try done. by intros fr ?%elem_of_nil.
Qed.

Lemma full_disclosure_witness :
  tr_data (Console.value (applyLoop teamMember teamCollection (testContext 4)))
  = teamMember.
Proof.
  refine (proj1 (full_disclosure "team" teamMember (testContext 4) _ _ _ _ _ _)).
  - solve_wf.
  - apply (bool_decide_unpack _). vm_compute. exact I.
  - change (map_Forall (λ _ attr, ad_threshold attr ≤ 4)
              (rc_attributes (ctx_config (testContext 4)))).
    apply (bool_decide_unpack _). vm_compute. exact I.
  - intros cc f id Hc. injection Hc as <-. revert f id.
    change (map_Forall
              (λ _ id, rc_attributes (ctx_config (testContext 4)) !! id = None →
                       isPrototypeName id = false)
              (cc_fields teamCollection)).
    apply (bool_decide_unpack _). vm_compute. exact I.
  - vm_compute. reflexivity.
Defined.

Lemma DEFAULT_ATTRIBUTES_thresholds id attr :
  DEFAULT_ATTRIBUTES !! id = Some attr → 1 ≤ ad_threshold attr ≤ 4.
Proof.
  revert id attr.
  change (map_Forall (λ _ attr, 1 ≤ ad_threshold attr ≤ 4) DEFAULT_ATTRIBUTES).
  apply (bool_decide_unpack _). vm_compute. exact I.
Qed.

Lemma resolveConfig_lookup config id :
  rc_attributes (resolveConfig config) !! id
  = match cfg_attributes config ≫= (λ user, user !! id) with
    | Some attr => Some attr
    | None => DEFAULT_ATTRIBUTES !! id
    end.
Proof.
  unfold resolveConfig. simpl. rewrite lookup_union.
  destruct (cfg_attributes config) as [user|]; simpl.
  - destruct (user !! id), (DEFAULT_ATTRIBUTES !! id); done.
  - rewrite lookup_empty. by destruct (DEFAULT_ATTRIBUTES !! id).
Qed.

(** X9. With the shipped catalog, level 4 withholds nothing and level 0
    hides every catalogued field.  Take a record without an own key
    [__proto__], a configuration whose own attribute definitions have
    thresholds of at most 4, and a collection none of whose fields is
    mapped to a name of [Object.prototype].  At level 4 a call of
    [transformEntry] that returns gives the input as the filtered record,
    with no hidden field and no warning; and at level 0 the call on a
    configured collection returns, and a field mapped to an id of the
    shipped catalog that the configuration does not redefine is hidden, its
    value being omitted or replaced by the substitute of the attribute. *)
Theorem shipped_catalog_ceiling_and_floor env config c (data : JsObject) :
  Obj.wf data →
  "__proto__" ∉ Obj.keys data →
  (∀ user id attr, cfg_attributes config = Some user → user !! id = Some attr →
                   ad_threshold attr ≤ 4) →
  (∀ cc f id, cfg_collections config !! c = Some cc → cc_fields cc !! f = Some id →
              isPrototypeName id = false) →
  (∀ r4, Console.value (transformEntry c data
           (Console.value (createContext env config (Some 4)))) = Normal r4 →
     tr_data r4 = data ∧ tr_hiddenFields r4 = [] ∧ tr_warnings r4 = [])
  ∧ (∀ cc f v id attr,
       cfg_collections config !! c = Some cc → (f, v) ∈ data →
       cc_fields cc !! f = Some id →
       cfg_attributes config ≫= (λ user, user !! id) = None →
       DEFAULT_ATTRIBUTES !! id = Some attr →
       ∃ r0, Console.value (transformEntry c data
               (Console.value (createContext env config (Some 0)))) = Normal r0
       ∧ f ∈ tr_hiddenFields r0
       ∧ Obj.get f (tr_data r0)
         = if decide (ad_redaction attr = Some Replace)
           then Some (getRedactedValue attr) else None).
Proof.
  intros Hwf Hproto Huser Hnames. rewrite !createContext_value. simpl.
  split.
  - set (ctx := {| ctx_currentLevel := 4; ctx_config := resolveConfig config |}).
    assert (∀ id attr, rc_attributes (ctx_config ctx) !! id = Some attr →
                       ad_threshold attr ≤ ctx_currentLevel ctx) as Hall.
    { intros id attr. unfold ctx. cbn [ctx_config ctx_currentLevel].
      rewrite resolveConfig_lookup.
      destruct (cfg_attributes config) as [user|] eqn:Hu; simpl.
      - destruct (user !! id) as [a|] eqn:Ha.
        + intros [= <-]. by apply (Huser user id).
        + intros H. by apply DEFAULT_ATTRIBUTES_thresholds in H as [_ ?].
      - intros H. by apply DEFAULT_ATTRIBUTES_thresholds in H as [_ ?]. }
    intros r4.
    destruct (transformEntry_cases c data ctx Hwf)
      as [(cc & Hc & ->)|[(Hc & ->)|(name & Hc & ->)]]; rewrite value_pair.
    + intros <-%Normal_inj.
      destruct (applyLoop_disclosed cc ctx data) as (? & ? & ? & _); try done.
      intros f id Hm _. by apply (Hnames cc f id).
    + by intros <-%Normal_inj.
    + destruct data; [|done]. by intros <-%Normal_inj.
  - intros cc f v id attr Hc Hin Hmap Hnone Hdef.
    set (ctx := {| ctx_currentLevel := 0; ctx_config := resolveConfig config |}).
    assert (rc_collections (ctx_config ctx) !! c = Some cc) as Hc' by done.
    assert (rc_attributes (ctx_config ctx) !! id = Some attr) as Hattr.
    { unfold ctx. cbn [ctx_config]. by rewrite resolveConfig_lookup, Hnone. }
    assert (id ≠ EmptyString) as Hid by (by intros ->).
    assert (ctx_currentLevel ctx < ad_threshold attr) as Hlt.
    { apply DEFAULT_ATTRIBUTES_thresholds in Hdef. simpl. lia. }
    assert (f ≠ "__proto__") as Hf by (by apply (not_proto_entry data (f, v))).
    rewrite (transformEntry_configured _ _ _ _ Hc').
    eexists. split; [reflexivity|].
    assert (Hm := isFalsy_mapped _ _ _ Hmap Hid).
    pose proof (delta_hidden cc ctx f v attr Hm) as Hd.
    rewrite (readProp_Some _ _ _ Hmap) in Hd. cbn [toPropertyKey attributeRef] in Hd.
    specialize (Hd (readProp_Some _ _ _ Hattr) Hlt).
    split.
    + apply (in_hidden cc ctx data (f, v)); [done|]. by rewrite Hd.
    + rewrite (get_field cc ctx data f v) by done. rewrite Hd. cbn [acc_result].
      destruct (ad_redaction attr) as [[|]|]; try done.
      change (default Omit (Some Replace)) with Replace.
      rewrite !decide_True by done. rewrite get_put_nil. by rewrite decide_False.
Qed.

Lemma shipped_catalog_ceiling_and_floor_witness :
  tr_data (Console.value (applyLoop teamMember teamCollection
             (Console.value (createContext None testConfig (Some 4)))))
  = teamMember.
Proof.
  refine (proj1 (proj1
    (shipped_catalog_ceiling_and_floor None testConfig "team" teamMember _ _ _ _)
    _ _)).
  - solve_wf.
  - apply (bool_decide_unpack _). vm_compute. exact I.
  - intros user id attr H. discriminate H.
  - intros cc f id Hc. vm_compute in Hc. injection Hc as <-. revert f id.
    change (map_Forall (λ _ id, isPrototypeName id = false)
              (cc_fields teamCollection)).
    apply (bool_decide_unpack _). vm_compute. exact I.
  - vm_compute. reflexivity.
Defined.

Lemma keys_bind {A} (g : A → JsObject) (l : list A) :
  Obj.keys (l ≫= g) = l ≫= (λ x, Obj.keys (g x)).
Proof.
  unfold Obj.keys. induction l as [|x l IH]; [done|].
  by rewrite !bind_cons, fmap_app, IH.
Qed.

Lemma delta_level_mono cc ctx (L1 L2 : PrivacyLevel) (e : string * JsValue) :
  L1 ≤ L2 →
  acc_hiddenFields (delta cc (atLevel L2 ctx) e)
    `sublist_of` acc_hiddenFields (delta cc (atLevel L1 ctx) e)
  ∧ Obj.keys (acc_result (delta cc (atLevel L1 ctx) e))
      `sublist_of` Obj.keys (acc_result (delta cc (atLevel L2 ctx) e))
  ∧ (length (acc_warnings (delta cc (atLevel L2 ctx) e))
     ≤ length (acc_warnings (delta cc (atLevel L1 ctx) e)))%nat.
Proof.
  intros Hle. destruct e as [f v]. unfold delta, applyField, atLevel. simpl.
  destruct (isFalsy (readProp (cc_fields cc) f)); [done|].
  destruct (readProp (rc_attributes (ctx_config ctx)) _) as [attr|name|];
    [|done|done].
  destruct (L1 >=? ad_threshold attr) eqn:H1;
    destruct (L2 >=? ad_threshold attr) eqn:H2; simpl.
  - done.
  - apply Z.geb_le in H1. rewrite Z.geb_leb in H2. apply Z.leb_gt in H2. lia.
  - unfold getRedactedValue. rewrite ?put_nil.
    destruct (decide (f = "__proto__"));
      destruct (ad_redaction attr) as [[|]|];
      destruct (truthy (ad_complianceProtected attr)); simpl;
      (split_and!; [apply sublist_nil_l| |lia]);
      first [done | apply sublist_nil_l].
  - unfold getRedactedValue.
    destruct (ad_redaction attr) as [[|]|];
      destruct (truthy (ad_complianceProtected attr)); done.
Qed.

Lemma readProp_collections_atLevel L ctx c :
  readProp (rc_collections (ctx_config (atLevel L ctx))) c
  = readProp (rc_collections (ctx_config ctx)) c.
Proof. done. Qed.

(** X10. Raising the level never hides more.  For one configuration and
    record and two levels [L1 ≤ L2], [transformEntry] throws at both levels
    or at neither; when it returns, the hidden field names at [L2] are a
    subsequence of those at [L1], the keys of the filtered record at [L1]
    are a subsequence of those at [L2], and there are at most as many
    warnings at [L2] as at [L1]. *)
Theorem raising_level_hides_less c (data : JsObject) ctx (L1 L2 : PrivacyLevel) :
  Obj.wf data → L1 ≤ L2 →
  let result1 := Console.value (transformEntry c data (atLevel L1 ctx)) in
  let result2 := Console.value (transformEntry c data (atLevel L2 ctx)) in
  (result1 = TypeError ↔ result2 = TypeError)
  ∧ ((∃ r1, result1 = Normal r1) ↔ (∃ r2, result2 = Normal r2))
  ∧ ∀ r1 r2, result1 = Normal r1 → result2 = Normal r2 →
      tr_hiddenFields r2 `sublist_of` tr_hiddenFields r1
      ∧ Obj.keys (tr_data r1) `sublist_of` Obj.keys (tr_data r2)
      ∧ (length (tr_warnings r2) ≤ length (tr_warnings r1))%nat.
Proof.
  intros Hwf Hle result1 result2. subst result1 result2.
  destruct (transformEntry_cases c data (atLevel L1 ctx) Hwf)
    as [(cc & Hc & ->)|[(Hc & ->)|(name & Hc & ->)]].
  - rewrite (transformEntry_configured c data (atLevel L2 ctx) cc) by done.
    rewrite !value_pair. split; [done|]. split; [split; eauto|].
    intros r1 r2 <-%Normal_inj <-%Normal_inj.
    rewrite !(applyLoop_data _ _ _ Hwf), !applyLoop_hiddenFields,
      !applyLoop_warnings, !keys_bind.
    split_and!.
    + apply bind_sublist. intros e _. by apply delta_level_mono.
    + apply bind_sublist. intros e _. by apply delta_level_mono.
    + clear Hwf. induction data as [|e data IH]; [done|].
      rewrite !bind_cons, !length_app.
      pose proof (proj2 (proj2 (delta_level_mono cc ctx L1 L2 e Hle))). lia.
  - rewrite (unconfigured_result c data (atLevel L2 ctx)) by done.
    rewrite value_pair. split; [done|]. split; [split; eauto|].
    by intros r1 r2 <-%Normal_inj <-%Normal_inj.
  - rewrite (transformEntry_inherited c data (atLevel L2 ctx) name) by done.
    rewrite !value_pair. split; [done|]. split; [done|].
    destruct data; [|done]. by intros r1 r2 <-%Normal_inj <-%Normal_inj.
Qed.

Lemma raising_level_hides_less_witness :
  tr_hiddenFields (Console.value (applyLoop teamMember teamCollection
                     (atLevel 2 (testContext 0))))
  `sublist_of`
  tr_hiddenFields (Console.value (applyLoop teamMember teamCollection
                     (atLevel 1 (testContext 0)))).
Proof.
  refine (proj1 (proj2 (proj2
    (raising_level_hides_less "team" teamMember (testContext 0) 1 2 _ _)) _ _ _ _)).
  - solve_wf.
  - lia.
  - vm_compute. reflexivity.
  - vm_compute. reflexivity.
Defined.

(** ** The console *)

Lemma delta_console cc ctx (e : string * JsValue) :
  acc_console (delta cc ctx e)
  = if isUnresolved cc ctx e.1
    then [ unknownAttributeMessage e.1 (toPropertyKey (readProp (cc_fields cc) e.1)) ]
    else [].
Proof.
  destruct e as [f v]. unfold isUnresolved.
  entry_cases cc ctx (f, v); rewrite ?Hattr; done.
Qed.

Lemma applyLoop_console_unresolved cc ctx (data : JsObject) :
  Console.output (applyLoop data cc ctx)
  = (λ e, unknownAttributeMessage e.1 (toPropertyKey (readProp (cc_fields cc) e.1)))
    <$> filter (λ e, isUnresolved cc ctx e.1 = true) data.
Proof.
  rewrite applyLoop_console.
  induction data as [|e data IH]; [done|].
  rewrite bind_cons, filter_cons, IH, delta_console.
  destruct (isUnresolved cc ctx e.1); case_decide; done.
Qed.

(** X11. [transformEntry] prints on the console only about unresolved
    attribute ids.  For a configured collection it prints one
    unknown-attribute message for each field of the record for which the
    mapping yields something truthy under which the catalog has nothing,
    own or inherited, in the order of the fields; the message shows the
    field and what the mapping yielded.  So a message is printed exactly
    when there is such a field.  For a field mapped to a non-empty id this
    means that the catalog lacks the id and that the id is no name of
    [Object.prototype].  Nothing is printed for a collection without
    configuration, whether the call returns or throws. *)
Theorem console_only_unresolved c (data : JsObject) ctx :
  let out := Console.output (transformEntry c data ctx) in
  (∀ cc, rc_collections (ctx_config ctx) !! c = Some cc →
     out = (λ e, unknownAttributeMessage e.1
                   (toPropertyKey (readProp (cc_fields cc) e.1)))
           <$> filter (λ e, isUnresolved cc ctx e.1 = true) data)
  ∧ (∀ m, m ∈ out ↔
       ∃ cc f v, rc_collections (ctx_config ctx) !! c = Some cc
         ∧ (f, v) ∈ data ∧ isUnresolved cc ctx f = true
         ∧ m = unknownAttributeMessage f (toPropertyKey (readProp (cc_fields cc) f)))
  ∧ (∀ cc f id, cc_fields cc !! f = Some id → id ≠ EmptyString →
       (isUnresolved cc ctx f = true
        ↔ rc_attributes (ctx_config ctx) !! id = None ∧ isPrototypeName id = false)
       ∧ toPropertyKey (readProp (cc_fields cc) f) = id)
  ∧ (rc_collections (ctx_config ctx) !! c = None → out = []).
Proof.
  intros out. subst out.
  assert (rc_collections (ctx_config ctx) !! c = None →
          Console.output (transformEntry c data ctx) = []) as Hnone.
  { intros Hc.
    destruct (readProp (rc_collections (ctx_config ctx)) c) as [cc|name|] eqn:Hr.
    - apply readProp_Own in Hr. congruence.
    - by rewrite (transformEntry_inherited _ _ _ _ Hr).
    - by rewrite (transformEntry_absent _ _ _ Hr). }
  split_and!.
  - intros cc Hc. rewrite (transformEntry_configured _ _ _ _ Hc), output_pair.
    apply applyLoop_console_unresolved.
  - intros m. destruct (rc_collections (ctx_config ctx) !! c) as [cc|] eqn:Hc.
    + rewrite (transformEntry_configured _ _ _ _ Hc), output_pair.
      rewrite applyLoop_console_unresolved, list_elem_of_fmap. split.
      * intros ([f v] & -> & [? ?]%list_elem_of_filter).
        exists cc, f, v. done.
      * intros (cc' & f & v & [= <-] & ? & ? & ->).
        exists (f, v). split; [done|]. by apply list_elem_of_filter.
    + rewrite (Hnone eq_refl), elem_of_nil.
      split; [done|]. by intros (? & ? & ? & ? & _).
  - intros cc f id Hmap Hid. unfold isUnresolved.
    rewrite (readProp_Some _ _ _ Hmap). cbn [toPropertyKey isFalsy].
    rewrite bool_decide_eq_false_2 by done. cbn [negb andb].
    split; [|done].
    destruct (readProp (rc_attributes (ctx_config ctx)) id) as [attr|name|] eqn:Ha.
    + apply readProp_Own in Ha. split; [done|]. intros [? _]. congruence.
    + apply readProp_Inherited in Ha as (? & ? & _).
      split; [done|]. intros [_ ?]. congruence.
    + by apply readProp_Undefined in Ha.
  - exact Hnone.
Qed.

(** ** [transformCollection] *)

Lemma bind_output {A B} (m : Console.t A) (k : A → Console.t B) :
  Console.output (Console.bind m k)
  = Console.output m ++ Console.output (k (Console.value m)).
Proof. unfold Console.bind, Console.output, Console.value. by destruct (k m.1). Qed.

Lemma tryBind_value {A B} (m : Console.t (Completion A))
    (k : A → Console.t (Completion B)) :
  Console.value (tryBind m k)
  = match Console.value m with
    | Normal a => Console.value (k a)
    | TypeError => TypeError
    end.
Proof. unfold tryBind. rewrite bind_value. by destruct (Console.value m). Qed.

Lemma tryBind_output {A B} (m : Console.t (Completion A))
    (k : A → Console.t (Completion B)) :
  Console.output (tryBind m k)
  = Console.output m
    ++ match Console.value m with
       | Normal a => Console.output (k a)
       | TypeError => []
       end.
Proof. unfold tryBind. rewrite bind_output. by destruct (Console.value m). Qed.

Lemma tryMap_value {A B} (f : A → Console.t (Completion B)) (l : list A) :
  Console.value (tryMap f l) = sequence ((λ x, Console.value (f x)) <$> l).
Proof.
  induction l as [|x l IH]; [done|].
  cbn [tryMap]. rewrite tryBind_value, fmap_cons. cbn [sequence].
  destruct (Console.value (f x)); [|done].
  rewrite tryBind_value, IH. by destruct (sequence _).
Qed.

(** When no call throws, or when no call prints, the output of the calls
    in turn is all their outputs. *)
Lemma tryMap_output {A B} (f : A → Console.t (Completion B)) (l : list A) :
  (∀ x, x ∈ l → Console.value (f x) ≠ TypeError)
  ∨ (∀ x, x ∈ l → Console.output (f x) = []) →
  Console.output (tryMap f l) = l ≫= (λ x, Console.output (f x)).
Proof.
  induction l as [|x l IH]; [done|]. intros H.
  cbn [tryMap]. rewrite tryBind_output, bind_cons. f_equal.
  assert (l ≫= (λ x, Console.output (f x)) = Console.output (tryMap f l)) as Hl.
  { symmetry. apply IH. destruct H as [H|H]; [left|right];
      intros y Hy; apply H; by right. }
  destruct (Console.value (f x)) eqn:Hx.
  - rewrite tryBind_output. rewrite Hl.
    destruct (Console.value (tryMap f l)); simpl; by rewrite ?app_nil_r.
  - destruct H as [H|H]; [by destruct (H x ltac:(by left))|].
    symmetry. apply bind_nil. intros y Hy. apply H. by right.
Qed.

Lemma sequence_Normal {A} (l : list (Completion A)) rs :
  sequence l = Normal rs ↔ l = Normal <$> rs.
Proof.
  revert rs. induction l as [|[a|] l IH]; intros rs; simpl.
  - split; [by intros [= <-]|]. by destruct rs.
  - destruct (sequence l) as [rs'|] eqn:Hs.
    + split.
      * intros [= <-]. rewrite fmap_cons. f_equal. by apply IH.
      * destruct rs as [|r rs]; [done|]. rewrite fmap_cons. intros [= -> Hl].
        f_equal. f_equal. apply IH in Hl. congruence.
    + split; [done|]. destruct rs as [|r rs]; [done|].
      rewrite fmap_cons. intros [= -> Hl]. apply IH in Hl. congruence.
  - split; [done|]. by destruct rs.
Qed.

Lemma sequence_TypeError {A} (l : list (Completion A)) :
  sequence l = TypeError ↔ TypeError ∈ l.
Proof.
  induction l as [|[a|] l IH]; simpl.
  - split; [done|]. by intros ?%elem_of_nil.
  - rewrite elem_of_cons. destruct (sequence l).
    + split; [done|]. intros [?|Hin]; [done|]. by apply IH in Hin.
    + split; [|done]. intros _. right. by apply IH.
  - split; [|done]. intros _. by left.
Qed.

Lemma sequence_app {A} (l1 l2 : list (Completion A)) rs1 rs2 :
  sequence l1 = Normal rs1 → sequence l2 = Normal rs2 →
  sequence (l1 ++ l2) = Normal (rs1 ++ rs2).
Proof.
  rewrite !sequence_Normal. intros -> ->. by rewrite fmap_app.
Qed.

(** Within one collection, either no call of [transformEntry] throws or no
    call prints. *)
Lemma transformEntry_throw_or_print c ctx (entries : list JsObject) :
  (∀ entry, entry ∈ entries →
     Console.value (transformEntry c entry ctx) ≠ TypeError)
  ∨ (∀ entry, entry ∈ entries → Console.output (transformEntry c entry ctx) = []).
Proof.
  destruct (readProp (rc_collections (ctx_config ctx)) c) as [cc|name|] eqn:Hc.
  - left. intros entry _. apply readProp_Own in Hc.
    by rewrite (transformEntry_configured _ _ _ _ Hc).
  - right. intros entry _. by apply (transformEntry_throw_silent _ _ _ name).
  - left. intros entry _. by rewrite (transformEntry_absent _ _ _ Hc).
Qed.

(** X12. [transformCollection] is [transformEntry] on each record in turn:
    its results are those of the records, in order and as many, each
    independent of the other records, unless the call for some record
    throws, and then it throws; the console output is that of the records,
    one after the other; so transforming two lists one after the other is
    transforming their concatenation. *)
Theorem transformCollection_entrywise c (entries more : list JsObject) ctx :
  let run := λ l, transformCollection c l ctx in
  Console.value (run entries)
  = sequence ((λ entry, Console.value (transformEntry c entry ctx)) <$> entries)
  ∧ (∀ rs, Console.value (run entries) = Normal rs
       ↔ (λ entry, Console.value (transformEntry c entry ctx)) <$> entries
         = Normal <$> rs)
  ∧ (Console.value (run entries) = TypeError
     ↔ ∃ entry, entry ∈ entries
         ∧ Console.value (transformEntry c entry ctx) = TypeError)
  ∧ Console.output (run entries)
    = entries ≫= (λ entry, Console.output (transformEntry c entry ctx))
  ∧ (∀ rs, Console.value (run entries) = Normal rs → length rs = length entries)
  ∧ (∀ rs ms, Console.value (run entries) = Normal rs →
       Console.value (run more) = Normal ms →
       Console.value (run (entries ++ more)) = Normal (rs ++ ms))
  ∧ Console.output (run (entries ++ more))
    = Console.output (run entries) ++ Console.output (run more).
Proof.
  intros run. subst run. cbv beta. unfold transformCollection.
  rewrite !tryMap_value.
  rewrite !tryMap_output by apply transformEntry_throw_or_print.
  split_and!.
  - done.
  - intros rs. apply sequence_Normal.
  - rewrite sequence_TypeError, list_elem_of_fmap.
    split; intros (entry & ? & ?); eauto.
  - done.
  - intros rs Hrs%sequence_Normal.
    apply (f_equal length) in Hrs. by rewrite !length_fmap in Hrs.
  - intros rs ms Hrs Hms. rewrite fmap_app. by apply sequence_app.
  - by rewrite bind_app.
Qed.

(** * Properties of the configuration resolver *)

(** X13. [resolveConfig] merges whole entries: an id that the operator
    defines gets the operator's definition, every member of it, and any
    other id keeps the shipped definition, so every shipped id stays
    defined.  The collections are passed on untouched and the level
    definitions are the operator's when given, the five shipped ones
    otherwise.  Resolving again what was resolved changes nothing. *)
Theorem resolveConfig_merge config :
  let resolved := resolveConfig config in
  (∀ id, rc_attributes resolved !! id
         = match cfg_attributes config ≫= (λ user, user !! id) with
           | Some attr => Some attr
           | None => DEFAULT_ATTRIBUTES !! id
           end)
  ∧ dom DEFAULT_ATTRIBUTES ⊆ dom (rc_attributes resolved)
  ∧ rc_collections resolved = cfg_collections config
  ∧ rc_levels resolved = default DEFAULT_PRIVACY_LEVELS (cfg_levels config)
  ∧ resolveConfig {| cfg_levels := Some (rc_levels resolved);
                     cfg_attributes := Some (rc_attributes resolved);
                     cfg_collections := rc_collections resolved |}
    = resolved.
Proof.
  intros resolved. subst resolved. split_and!.
  - apply resolveConfig_lookup.
  - intros id [attr Hattr]%elem_of_dom. apply elem_of_dom.
    rewrite resolveConfig_lookup, Hattr.
    by destruct (cfg_attributes config ≫= (λ user, user !! id)).
  - done.
  - done.
  - unfold resolveConfig. simpl. f_equal.
    by rewrite <-(assoc (∪)), (idemp (∪) DEFAULT_ATTRIBUTES).
Qed.

Lemma readPrivacyLevel_unset_range env :
  0 ≤ Console.value (readPrivacyLevel env None) ≤ 4
  ∧ (length (Console.output (readPrivacyLevel env None)) ≤ 1)%nat
  ∧ (env = None ∨ env = Some EmptyString → readPrivacyLevel env None = (4, [])).
Proof.
  unfold readPrivacyLevel. destruct env as [envVal|]; simpl.
  - case_decide as Hempty; simpl.
    + repeat split; lia.
    + assert (Some envVal = None ∨ Some envVal = Some EmptyString → False) as Hex.
      { intros [|[=]]; done. }
      destruct (parseInt10 envVal) as [n|]; simpl.
      * destruct ((n <? 0) || (n >? 4)) eqn:Hn; simpl.
        -- repeat split; try lia. intros []%Hex.
        -- apply orb_false_iff in Hn as [H0 H4]. rewrite Z.gtb_ltb in H4.
           apply Z.ltb_ge in H0, H4. repeat split; try lia. intros []%Hex.
      * repeat split; try lia. intros []%Hex.
  - repeat split; lia.
Qed.

(** X14. [createContext] resolves the configuration in every case.  A level
    passed to it is taken as it is, without validation, and then neither
    the environment is read nor anything printed.  Without a level, the
    level comes from the environment and is within 0..4 whatever the
    variable holds, and at most one warning is printed. *)
Theorem createContext_level env config (level : option PrivacyLevel) :
  let r := createContext env config level in
  ctx_config (Console.value r) = resolveConfig config
  ∧ (∀ l, level = Some l →
       r = ({| ctx_currentLevel := l; ctx_config := resolveConfig config |}, []))
  ∧ (level = None →
       0 ≤ ctx_currentLevel (Console.value r) ≤ 4
       ∧ (length (Console.output r) ≤ 1)%nat
       ∧ (env = None ∨ env = Some EmptyString →
          ctx_currentLevel (Console.value r) = 4 ∧ Console.output r = [])).
Proof.
  intros r. subst r. split_and!.
  - by rewrite createContext_value.
  - intros l ->. done.
  - intros ->. rewrite createContext_value. unfold createContext.
    rewrite bind_output. cbn [levelOrEnv ctx_currentLevel Console.ret Console.output snd].
    rewrite app_nil_r.
    destruct (readPrivacyLevel_unset_range env) as (Hrange & Hone & Hunset).
    split; [exact Hrange|]. split; [exact Hone|].
    intros Henv. by rewrite (Hunset Henv).
Qed.

Lemma createContext_level_witness :
  createContext (Some "1") testConfig (Some 7)
  = ({| ctx_currentLevel := 7; ctx_config := resolveConfig testConfig |}, [])
  ∧ 0 ≤ ctx_currentLevel (Console.value (createContext (Some "9") testConfig None)) ≤ 4.
Proof.
  split.
  - exact (proj1 (proj2 (createContext_level (Some "1") testConfig (Some 7)))
             7 eq_refl).
  - exact (proj1 (proj2 (proj2 (createContext_level (Some "9") testConfig None))
                    eq_refl)).
Defined.

(** * Properties of the Astro helpers *)

Lemma helper_context env config level :
  Console.value (createContext env config
                   (Some (Console.value (levelOrEnv env level))))
  = Console.value (createContext env config level).
Proof. by rewrite !createContext_value. Qed.

(** X15. [shouldShow] answers [true] for a collection name that is neither
    configured nor the name of a member of [Object.prototype], and throws
    for one that is not configured and is such a name.  In a configured
    collection it answers [true] for a field for which the mapping yields
    nothing or the empty string; for a field with a non-empty mapping it
    answers what [isAttributeVisible] answers for the mapped id, the level
    and the resolved catalog.  Once it shows a field at a level, it shows it
    at every higher level.  With a level passed to it, it prints nothing. *)
Theorem shouldShow_cases env config (level : option PrivacyLevel) c f :
  let ctx := Console.value (createContext env config level) in
  let answer := Console.value (shouldShow env c f config level) in
  (rc_collections (ctx_config ctx) !! c = None → isPrototypeName c = false →
     answer = Normal true)
  ∧ (rc_collections (ctx_config ctx) !! c = None → isPrototypeName c = true →
       answer = TypeError)
  ∧ (∀ cc, rc_collections (ctx_config ctx) !! c = Some cc →
       readProp (cc_fields cc) f = Undefined ∨ cc_fields cc !! f = Some EmptyString →
       answer = Normal true)
  ∧ (∀ cc id, rc_collections (ctx_config ctx) !! c = Some cc →
       cc_fields cc !! f = Some id → id ≠ EmptyString →
       answer = Normal (isAttributeVisible id (ctx_currentLevel ctx)
                          (rc_attributes (ctx_config ctx))))
  ∧ (∀ L1 L2 : PrivacyLevel, L1 ≤ L2 →
       Console.value (shouldShow env c f config (Some L1)) = Normal true →
       Console.value (shouldShow env c f config (Some L2)) = Normal true)
  ∧ (∀ l, level = Some l → Console.output (shouldShow env c f config level) = []).
Proof.
  intros ctx answer. subst answer. split_and!.
  - intros Hc Hp. rewrite shouldShow_value. fold ctx. cbv zeta.
    by rewrite (readProp_None _ _ Hc Hp).
  - intros Hc Hp. rewrite shouldShow_value. fold ctx. cbv zeta.
    unfold readProp. by rewrite Hc, Hp.
  - intros cc Hc Hmap. rewrite shouldShow_value. fold ctx. cbv zeta.
    rewrite (readProp_Some _ _ _ Hc).
    destruct Hmap as [-> | Hmap]; [done|]. by rewrite (readProp_Some _ _ _ Hmap).
  - intros cc id Hc Hmap Hid. rewrite shouldShow_value. fold ctx. cbv zeta.
    rewrite (readProp_Some _ _ _ Hc), (readProp_Some _ _ _ Hmap).
    cbn [isFalsy toPropertyKey]. rewrite bool_decide_eq_false_2 by done.
    unfold isAttributeVisible.
    by destruct (readProp (rc_attributes (ctx_config ctx)) id).
  - intros L1 L2 Hle. rewrite !shouldShow_value, !createContext_value. simpl.
    destruct (readProp (cfg_collections config) c) as [cc| |]; [|done|done].
    destruct (isFalsy (readProp (cc_fields cc) f)); [done|].
    destruct (readProp _ (toPropertyKey _)) as [attr| |]; [|done|done].
    intros [= H1]. f_equal. apply Z.geb_le. apply Z.geb_le in H1. lia.
  - intros l ->. unfold shouldShow. rewrite !bind_output. simpl.
    repeat case_match; done.
Qed.

Lemma shouldShow_cases_witness :
  Console.value (shouldShow None "team" "email" testConfig (Some 2))
  = Normal (isAttributeVisible "CV-01" 2 (rc_attributes (resolveConfig testConfig))).
Proof.
  refine (proj1 (proj2 (proj2 (proj2
    (shouldShow_cases None testConfig (Some 2) "team" "email"))))
    teamCollection "CV-01" _ _ _).
  - vm_compute. reflexivity.
  - vm_compute. reflexivity.
  - discriminate.
Defined.

Lemma filterEntry_value env c entry config level :
  Console.value (filterEntry env c entry config level)
  = match Console.value (transformEntry c (ce_data entry)
                           (Console.value (createContext env config level))) with
    | Normal result => Normal (attachPrivacy entry result)
    | TypeError => TypeError
    end.
Proof.
  unfold filterEntry. rewrite !bind_value, tryBind_value, helper_context.
  by destruct (Console.value (transformEntry _ _ _)).
Qed.

(** X16. [filterCollection] returns, entry by entry and in order, what
    [filterEntry] returns for the same configuration and level, and throws
    when [filterEntry] throws for some entry.  [filterEntry] throws when
    [transformEntry] does; in the entry that it returns otherwise,
    [_privacy] is the result of [transformEntry] on the data of the entry
    under the context created from that configuration and level, [data] is
    the filtered record of that result, and the other members of the entry
    are unchanged. *)
Theorem filterCollection_entrywise env c (entries : list CollectionEntry)
    config (level : option PrivacyLevel) :
  let ctx := Console.value (createContext env config level) in
  Console.value (filterCollection env c entries config level)
  = sequence ((λ entry, Console.value (filterEntry env c entry config level))
              <$> entries)
  ∧ (∀ filtered, Console.value (filterCollection env c entries config level)
                 = Normal filtered → length filtered = length entries)
  ∧ (∀ entry,
       (Console.value (filterEntry env c entry config level) = TypeError
        ↔ Console.value (transformEntry c (ce_data entry) ctx) = TypeError)
       ∧ ∀ filtered,
           Console.value (filterEntry env c entry config level) = Normal filtered →
           Console.value (transformEntry c (ce_data entry) ctx)
           = Normal (fe_privacy filtered)
           ∧ fe_data filtered = tr_data (fe_privacy filtered)
           ∧ fe_rest filtered = ce_rest entry).
Proof.
  intros ctx. subst ctx.
  assert (Console.value (filterCollection env c entries config level)
          = sequence ((λ entry, Console.value (filterEntry env c entry config level))
                      <$> entries)) as Hmap.
  { unfold filterCollection. rewrite !bind_value, tryMap_value, helper_context.
    f_equal. apply list_fmap_ext. intros i entry _.
    rewrite filterEntry_value, tryBind_value.
    by destruct (Console.value (transformEntry _ _ _)). }
  split_and!.
  - exact Hmap.
  - intros filtered. rewrite Hmap. intros Hs%sequence_Normal.
    apply (f_equal length) in Hs. by rewrite !length_fmap in Hs.
  - intros entry. rewrite filterEntry_value.
    destruct (Console.value (transformEntry _ _ _)) as [result|]; [|done].
    split; [done|]. by intros filtered <-%Normal_inj.
Qed.

(** X17. [filterCollection] settles the level once for the whole
    collection: its console output is what settling the level prints (the
    warning about an invalid [PRIVACY_LEVEL], if any, and nothing when a
    level is passed), followed by what [transformEntry] prints for each
    entry in turn.  [filterEntry] settles the level at each call, so its
    output starts with that warning each time. *)
Theorem filterCollection_output env c (entries : list CollectionEntry)
    config (level : option PrivacyLevel) :
  let ctx := Console.value (createContext env config level) in
  let settle := Console.output (levelOrEnv env level) in
  Console.output (filterCollection env c entries config level)
  = settle ++ (entries ≫= (λ entry,
                 Console.output (transformEntry c (ce_data entry) ctx)))
  ∧ (∀ entry,
       Console.output (filterEntry env c entry config level)
       = settle ++ Console.output (transformEntry c (ce_data entry) ctx))
  ∧ (∀ l, level = Some l → settle = [])
  ∧ (length settle ≤ 1)%nat.
Proof.
  intros ctx settle. subst ctx settle.
  assert (∀ ctx (entry : CollectionEntry),
            Console.output
              (result ←ᵗ transformEntry c (ce_data entry) ctx;
               Console.ret (Normal (attachPrivacy entry result)))
            = Console.output (transformEntry c (ce_data entry) ctx)) as Hout.
  { intros ctx entry. rewrite tryBind_output.
    destruct (Console.value (transformEntry _ _ _)); simpl; by rewrite app_nil_r. }
  assert (∀ ctx (entry : CollectionEntry),
            Console.value
              (result ←ᵗ transformEntry c (ce_data entry) ctx;
               Console.ret (Normal (attachPrivacy entry result))) = TypeError
            ↔ Console.value (transformEntry c (ce_data entry) ctx) = TypeError)
    as Hval.
  { intros ctx entry. rewrite tryBind_value.
    by destruct (Console.value (transformEntry _ _ _)). }
  split_and!.
  - unfold filterCollection. rewrite !bind_output.
    rewrite helper_context. f_equal.
    change (Console.output (createContext env config
                              (Some (Console.value (levelOrEnv env level)))))
      with (@nil string).
    rewrite app_nil_l. rewrite ?bind_value, ?helper_context.
    rewrite tryMap_output.
    + apply list_bind_ext; [|done]. intros entry. apply Hout.
    + destruct (transformEntry_throw_or_print c
                  (Console.value (createContext env config level))
                  (ce_data <$> entries)) as [H|H]; [left|right]; intros entry He.
      * rewrite Hval. apply H. apply list_elem_of_fmap. eauto.
      * rewrite Hout. apply H. apply list_elem_of_fmap. eauto.
  - intros entry. unfold filterEntry. rewrite !bind_output.
    rewrite ?bind_value, helper_context.
    change (Console.output (createContext env config
                              (Some (Console.value (levelOrEnv env level)))))
      with (@nil string).
    by rewrite app_nil_l, Hout.
  - by intros l ->.
  - destruct level as [l|]; simpl; [lia|].
    apply readPrivacyLevel_unset_range.
Qed.

Lemma findLevel_default (l : PrivacyLevel) :
  0 ≤ l ≤ 4 →
  ∃ d, findLevel DEFAULT_PRIVACY_LEVELS l = Some d ∧ pld_level d = l
       ∧ d ∈ DEFAULT_PRIVACY_LEVELS ∧ pld_name d ≠ "Unknown".
Proof.
  intros Hl.
  assert (l = 0 ∨ l = 1 ∨ l = 2 ∨ l = 3 ∨ l = 4) as Hcases by lia.
  destruct Hcases as [->|[->|[->|[->| ->]]]]; eexists;
    (split; [vm_compute; reflexivity|]); (split; [done|]);
    (split; [solve_in|discriminate]).
Qed.

Lemma findLevel_None levels (l : PrivacyLevel) :
  findLevel levels l = None ↔ ∀ d, d ∈ levels → pld_level d ≠ l.
Proof.
  unfold findLevel. induction levels as [|d levels IH]; simpl.
  - split; [|done]. by intros _ d ?%elem_of_nil.
  - case_bool_decide as Hd.
    + split; [done|]. intros H. destruct (H d); [by left|done].
    + rewrite IH. split.
      * intros H d' [->|?]%elem_of_cons; auto.
      * intros H d' Hd'. apply H. by right.
Qed.

(** X18. [getPrivacyStatus] reports the level of the context, flags it as
    reduced exactly when it is below 4, and takes the name and description
    from the first level definition for that level, falling back to
    "Unknown" and the empty description when there is none.  With the
    shipped level definitions and no level passed, the level is within 0..4
    and the name is never "Unknown", whatever the environment holds. *)
Theorem getPrivacyStatus_spec env config (level : option PrivacyLevel) :
  let ctx := Console.value (createContext env config level) in
  let status := Console.value (getPrivacyStatus env config level) in
  ps_level status = ctx_currentLevel ctx
  ∧ (ps_isReduced status = true ↔ ps_level status < 4)
  ∧ ((∀ d, d ∈ rc_levels (ctx_config ctx) → pld_level d ≠ ps_level status) →
     ps_name status = "Unknown" ∧ ps_description status = EmptyString)
  ∧ (∀ d, findLevel (rc_levels (ctx_config ctx)) (ps_level status) = Some d →
       ps_name status = pld_name d ∧ ps_description status = pld_description d)
  ∧ (cfg_levels config = None → level = None →
     0 ≤ ps_level status ≤ 4 ∧ ps_name status ≠ "Unknown").
Proof.
  intros ctx status.
  assert (status
          = let levelDef := findLevel (rc_levels (ctx_config ctx))
                              (ctx_currentLevel ctx) in
            {| ps_level := ctx_currentLevel ctx;
               ps_name := default "Unknown" (pld_name <$> levelDef);
               ps_description := default EmptyString (pld_description <$> levelDef);
               ps_isReduced := ctx_currentLevel ctx <? 4 |}) as ->.
  { subst status ctx. unfold getPrivacyStatus.
    by rewrite !bind_value, helper_context. }
  cbv zeta. cbn [ps_level ps_name ps_description ps_isReduced].
  split; [done|]. split; [apply Z.ltb_lt|]. split; [|split].
  - intros Hnone. apply findLevel_None in Hnone. by rewrite Hnone.
  - intros d Hd. by rewrite Hd.
  - intros Hlevels ->.
    assert (0 ≤ ctx_currentLevel ctx ≤ 4) as Hrange.
    { subst ctx. rewrite createContext_value. simpl.
      apply readPrivacyLevel_unset_range. }
    split; [exact Hrange|].
    assert (rc_levels (ctx_config ctx) = DEFAULT_PRIVACY_LEVELS) as ->.
    { subst ctx. rewrite createContext_value. simpl. by rewrite Hlevels. }
    destruct (findLevel_default _ Hrange) as (d & -> & _ & _ & Hname). done.
Qed.

Lemma getPrivacyStatus_spec_witness :
  0 ≤ ps_level (Console.value (getPrivacyStatus (Some "12") testConfig None)) ≤ 4
  ∧ ps_name (Console.value (getPrivacyStatus (Some "12") testConfig None))
    ≠ "Unknown".
Proof.
  exact (proj2 (proj2 (proj2 (proj2
           (getPrivacyStatus_spec (Some "12") testConfig None)))) eq_refl eq_refl).
Defined.

(** * Properties of the build summary *)

Lemma string_app_nil_r (s : string) : s +:+ EmptyString = s.
Proof. induction s as [|a s IH]; [done|]. by rewrite string_app_cons, IH. Qed.

Lemma mentions_refl part : mentions part part.
Proof. exists EmptyString, EmptyString. by rewrite string_app_nil_r. Qed.

Lemma mentions_trans a b c : mentions a b → mentions b c → mentions a c.
Proof.
  intros (b1 & b2 & ->) (c1 & c2 & ->).
  exists (c1 +:+ b1), (b2 +:+ c2). by rewrite !string_app_assoc.
Qed.

Lemma mentions_join sep (lines : list string) line :
  line ∈ lines → mentions line (join sep lines).
Proof.
  unfold join. induction lines as [|x lines IH]; [by intros ?%elem_of_nil|].
  intros [->|Hin]%elem_of_cons.
  - destruct lines; [apply mentions_refl|apply mentions_head].
  - destruct lines as [|y lines]; [by apply elem_of_nil in Hin|].
    change (mentions line (x +:+ sep +:+ String.concat sep (y :: lines))).
    do 2 apply mentions_append_l. by apply IH.
Qed.

Lemma foldl_sum_lengths {A B} (g : A → list B) (rs : list A) (n : nat) :
  foldl (λ sum r, sum + length (g r))%nat n rs = (n + length (rs ≫= g))%nat.
Proof.
  revert n. induction rs as [|r rs IH]; intros n.
  - symmetry. apply Nat.add_0_r.
  - cbn [foldl]. rewrite IH, bind_cons, length_app. lia.
Qed.

Lemma foldl_setAdd_nested {A} (g : A → list string) (rs : list A) (s : list string) :
  foldl (λ s r, foldl setAdd s (g r)) s rs = foldl setAdd s (rs ≫= g).
Proof.
  revert s. induction rs as [|r rs IH]; intros s; [done|].
  rewrite bind_cons, foldl_app. apply IH.
Qed.

Lemma foldl_setAdd_NoDup (l s : list string) :
  NoDup s → NoDup (foldl setAdd s l).
Proof.
  revert s. induction l as [|x l IH]; intros s Hs; [done|].
  simpl. apply IH. unfold setAdd. case_decide; [done|].
  apply NoDup_app. split_and!; [done| |apply NoDup_singleton].
  intros y Hy ->%list_elem_of_singleton. done.
Qed.

Lemma elem_of_foldl_setAdd (l s : list string) x :
  x ∈ foldl setAdd s l ↔ x ∈ s ∨ x ∈ l.
Proof.
  revert s. induction l as [|y l IH]; intros s; simpl.
  - rewrite elem_of_nil. tauto.
  - rewrite IH, elem_of_cons. unfold setAdd. case_decide.
    + split; [tauto|]. intros [?|[->|?]]; auto.
    + rewrite elem_of_app, list_elem_of_singleton. tauto.
Qed.

Lemma foldl_warningLines {A} (g : A → list string) (rs : list A) (ls : list string) :
  foldl (λ ls r, foldl (λ ls w, ls ++ [ warningLine w ]) ls (g r)) ls rs
  = ls ++ (warningLine <$> (rs ≫= g)).
Proof.
  assert (∀ ws ls, foldl (λ ls w, ls ++ [ warningLine w ]) ls ws
                   = ls ++ (warningLine <$> ws)) as Hinner.
  { induction ws as [|w ws IH]; intros ls'; simpl; [by rewrite app_nil_r|].
    by rewrite IH, <-app_assoc. }
  revert ls. induction rs as [|r rs IH]; intros ls.
  - simpl. by rewrite app_nil_r.
  - cbn [foldl]. by rewrite IH, Hinner, bind_cons, fmap_app, app_assoc.
Qed.

Lemma summarizeCollection_extend st entry :
  summarizeCollection st entry
  = {| sa_lines := sa_lines st ++ collectionLines entry;
       sa_totalHidden :=
         (sa_totalHidden st + length (entry.2 ≫= tr_hiddenFields))%nat;
       sa_totalWarnings :=
         (sa_totalWarnings st + length (entry.2 ≫= tr_warnings))%nat |}.
Proof.
  unfold collectionLines, summarizeCollection. cbn [sa_lines sa_totalHidden
    sa_totalWarnings]. rewrite !foldl_sum_lengths, !foldl_warningLines. simpl.
  f_equal. destruct (0 <? length (entry.2 ≫= tr_hiddenFields))%nat; simpl.
  - by rewrite <-!app_assoc.
  - done.
Qed.

Lemma foldl_summarizeCollection results st :
  foldl summarizeCollection st results
  = {| sa_lines := sa_lines st ++ (results ≫= collectionLines);
       sa_totalHidden :=
         (sa_totalHidden st
          + length (results ≫= (λ entry, entry.2 ≫= tr_hiddenFields)))%nat;
       sa_totalWarnings :=
         (sa_totalWarnings st
          + length (results ≫= (λ entry, entry.2 ≫= tr_warnings)))%nat |}.
Proof.
  revert st. induction results as [|entry results IH]; intros st.
  - destruct st. simpl. f_equal; [by rewrite app_nil_r|lia|lia].
  - cbn [foldl]. rewrite IH, summarizeCollection_extend, !bind_cons, !length_app.
    simpl. f_equal; [by rewrite app_assoc|lia|lia].
Qed.

Lemma summaryLines_eq (results : list (string * list TransformResult)) ctx :
  summaryLines results ctx
  = summaryHeader ctx ++ (results ≫= collectionLines)
    ++ [ EmptyString;
         totalLine (length ((results ≫= (λ entry, entry.2)) ≫= tr_hiddenFields))
                   (length ((results ≫= (λ entry, entry.2)) ≫= tr_warnings));
         EmptyString ].
Proof.
  unfold summaryLines. rewrite foldl_summarizeCollection. simpl.
  assert (∀ (g : TransformResult → list string),
            results ≫= (λ entry, entry.2 ≫= g)
            = (results ≫= (λ entry, entry.2)) ≫= g) as Hbind.
  { intros g. induction results as [|e rs IH]; [done|].
    by rewrite !bind_cons, bind_app, IH. }
  rewrite !Hbind, <-!app_assoc. done.
Qed.

Lemma collectionLines_eq (collection : string) (rs : list TransformResult) :
  collectionLines (collection, rs)
  = (if decide (rs ≫= tr_hiddenFields = []) then []
     else [ collectionLine collection (length rs) (length (rs ≫= tr_hiddenFields));
            hiddenLine (foldl setAdd [] (rs ≫= tr_hiddenFields)) ])
    ++ (warningLine <$> (rs ≫= tr_warnings)).
Proof.
  unfold collectionLines, summarizeCollection.
  cbn [sa_lines fst snd]. rewrite !foldl_sum_lengths, foldl_warningLines,
    foldl_setAdd_nested. simpl.
  destruct (rs ≫= tr_hiddenFields) as [|x hidden] eqn:Hh; simpl; done.
Qed.

(** X19. The report is the three header lines, then the lines of each
    collection in the order of the map, then an empty line, the total line
    and an empty line.  The totals are the number of hidden field names and
    the number of warnings over all results of all collections, whether or
    not the collection got lines of its own. *)
Theorem summaryLines_structure (results : list (string * list TransformResult)) ctx :
  let allResults := results ≫= (λ entry, entry.2) in
  summaryLines results ctx
  = summaryHeader ctx ++ (results ≫= collectionLines)
    ++ [ EmptyString;
         totalLine (length (allResults ≫= tr_hiddenFields))
                   (length (allResults ≫= tr_warnings));
         EmptyString ]
  ∧ length (summaryHeader ctx) = 3%nat.
Proof. intros allResults. split; [apply summaryLines_eq|done]. Qed.

(** X20. A collection gets its two lines, the one with its name, number
    of entries and number of hidden fields and the one listing the hidden
    names, exactly when some entry has a hidden field; the names are listed
    once each, and they are those hidden in some entry.  After them, or
    alone, comes one line per warning of the entries, in order, each holding
    the text of the warning. *)
Theorem collectionLines_spec (collection : string) (rs : list TransformResult) :
  let hidden := rs ≫= tr_hiddenFields in
  ∃ names,
    NoDup names ∧ (∀ x, x ∈ names ↔ x ∈ hidden)
    ∧ collectionLines (collection, rs)
      = (if decide (hidden = []) then []
         else [ collectionLine collection (length rs) (length hidden);
                hiddenLine names ])
        ++ (warningLine <$> (rs ≫= tr_warnings))
    ∧ ∀ w, w ∈ rs ≫= tr_warnings → mentions w (warningLine w).
Proof.
  intros hidden. subst hidden.
  exists (foldl setAdd [] (rs ≫= tr_hiddenFields)). split_and!.
  - apply foldl_setAdd_NoDup. constructor.
  - intros x. rewrite elem_of_foldl_setAdd, elem_of_nil. tauto.
  - apply collectionLines_eq.
  - intros w _. unfold warningLine. solve_mentions. apply mentions_refl.
Qed.

Lemma collectionLines_in_summary results ctx collection rs line :
  (collection, rs) ∈ results → line ∈ collectionLines (collection, rs) →
  line ∈ summaryLines results ctx.
Proof.
  intros Hin Hline. rewrite summaryLines_eq, !elem_of_app. right. left.
  apply list_elem_of_bind. by exists (collection, rs).
Qed.

(** X21. What the report can be searched for.  The joined report contains
    the text "Level: " followed by the level, the name of the first level
    definition for that level or "Unknown" when there is none, the total
    line, and the text of every warning of every result.  For every
    collection with a hidden field it contains the name of the collection
    and every hidden field name. *)
Theorem buildSummary_contains (results : list (string * list TransformResult)) ctx :
  let report := buildSummary results ctx in
  let allResults := results ≫= (λ entry, entry.2) in
  mentions ("Level: " +:+ showNumber (ctx_currentLevel ctx)) report
  ∧ mentions (default "Unknown"
                (pld_name <$> findLevel (rc_levels (ctx_config ctx))
                                (ctx_currentLevel ctx))) report
  ∧ mentions (totalLine (length (allResults ≫= tr_hiddenFields))
                        (length (allResults ≫= tr_warnings))) report
  ∧ (∀ collection rs w, (collection, rs) ∈ results → w ∈ rs ≫= tr_warnings →
       mentions w report)
  ∧ (∀ collection rs f, (collection, rs) ∈ results → f ∈ rs ≫= tr_hiddenFields →
       mentions collection report ∧ mentions f report).
Proof.
  intros report allResults. subst report allResults. unfold buildSummary.
  assert (∀ part line, line ∈ summaryLines results ctx → mentions part line →
            mentions part (join newline (summaryLines results ctx))) as Hline.
  { intros part line Hin Hpart.
    eapply mentions_trans; [exact Hpart|by apply mentions_join]. }
  split_and!.
  - apply (Hline _ ("   Level: " +:+ showNumber (ctx_currentLevel ctx) +:+ " "
                    +:+ levelDash +:+ " "
                    +:+ default "Unknown"
                          (pld_name <$> findLevel (rc_levels (ctx_config ctx))
                                          (ctx_currentLevel ctx)))).
    + rewrite summaryLines_eq. apply elem_of_app. left. right. left.
    + exists "   ", (" " +:+ levelDash +:+ " "
                     +:+ default "Unknown"
                           (pld_name <$> findLevel (rc_levels (ctx_config ctx))
                                           (ctx_currentLevel ctx))).
      rewrite string_app_assoc. reflexivity.
  - eapply Hline.
    + rewrite summaryLines_eq. apply elem_of_app. left. right. left.
    + do 5 apply mentions_append_l. apply mentions_refl.
  - eapply Hline; [|apply mentions_refl].
    rewrite summaryLines_eq, !elem_of_app. right. right. right. left.
  - intros collection rs w Hin Hw. apply (Hline _ (warningLine w)).
    + apply (collectionLines_in_summary _ _ collection rs); [done|].
      rewrite collectionLines_eq. apply elem_of_app. right.
      by apply list_elem_of_fmap_2.
    + unfold warningLine. solve_mentions. apply mentions_refl.
  - intros collection rs f Hin Hf.
    assert (rs ≫= tr_hiddenFields ≠ []) as Hne.
    { intros Hnil. rewrite Hnil in Hf. by apply elem_of_nil in Hf. }
    split.
    + apply (Hline _ (collectionLine collection (length rs)
                                     (length (rs ≫= tr_hiddenFields)))).
      * apply (collectionLines_in_summary _ _ collection rs); [done|].
        rewrite collectionLines_eq, decide_False by done.
        apply elem_of_app. left. left.
      * unfold collectionLine. solve_mentions.
    + apply (Hline _ (hiddenLine (foldl setAdd [] (rs ≫= tr_hiddenFields)))).
      * apply (collectionLines_in_summary _ _ collection rs); [done|].
        rewrite collectionLines_eq, decide_False by done.
        apply elem_of_app. left. right. left.
      * unfold hiddenLine. apply mentions_append_l, mentions_join.
        apply elem_of_foldl_setAdd. by right.
Qed.

(** * Decisions go by field name *)

Lemma delta_by_name cc ctx k (v1 v2 : JsValue) :
  acc_hiddenFields (delta cc ctx (k, v1)) = acc_hiddenFields (delta cc ctx (k, v2))
  ∧ acc_warnings (delta cc ctx (k, v1)) = acc_warnings (delta cc ctx (k, v2))
  ∧ acc_console (delta cc ctx (k, v1)) = acc_console (delta cc ctx (k, v2))
  ∧ Obj.keys (acc_result (delta cc ctx (k, v1)))
    = Obj.keys (acc_result (delta cc ctx (k, v2)))
  ∧ (λ fr, (fr_field fr, fr_attributeId fr, fr_visible fr, fr_redactionApplied fr))
      <$> acc_fields (delta cc ctx (k, v1))
    = (λ fr, (fr_field fr, fr_attributeId fr, fr_visible fr, fr_redactionApplied fr))
      <$> acc_fields (delta cc ctx (k, v2)).
Proof.
  unfold delta, applyField. simpl. rewrite !put_nil.
  destruct (decide (k = "__proto__"));
    (destruct (isFalsy (readProp (cc_fields cc) k)); [done|]);
    (destruct (readProp (rc_attributes (ctx_config ctx)) _) as [attr|name|];
     [|done|done]);
    (destruct (ctx_currentLevel ctx >=? ad_threshold attr); [done|]);
    unfold getRedactedValue; by destruct (ad_redaction attr) as [[|]|].
Qed.

Lemma bind_by_name {B} (g : string * JsValue → list B) (d1 d2 : JsObject) :
  (∀ k v1 v2, g (k, v1) = g (k, v2)) →
  Obj.keys d1 = Obj.keys d2 → d1 ≫= g = d2 ≫= g.
Proof.
  intros Hg. unfold Obj.keys. revert d2.
  induction d1 as [|[k v1] d1 IH]; intros [|[k' v2] d2]; try done.
  rewrite !fmap_cons. intros [= <- Hk]. rewrite !bind_cons.
  by rewrite (Hg k v1 v2), (IH d2 Hk).
Qed.

(** X22. What is hidden is decided by the names of the fields, never by
    their values: on two records with the same keys in the same order,
    [transformEntry] throws for both or for neither and prints the same;
    when it returns, the two results have the same hidden field names, the
    same warnings, the same keys in the filtered record, and field results
    that agree on field, attribute id, visibility and redaction. *)
Theorem decisions_by_field_name c (d1 d2 : JsObject) ctx :
  Obj.wf d1 → Obj.keys d1 = Obj.keys d2 →
  let result1 := Console.value (transformEntry c d1 ctx) in
  let result2 := Console.value (transformEntry c d2 ctx) in
  let decision := λ fr, (fr_field fr, fr_attributeId fr, fr_visible fr,
                         fr_redactionApplied fr) in
  (result1 = TypeError ↔ result2 = TypeError)
  ∧ ((∃ r1, result1 = Normal r1) ↔ (∃ r2, result2 = Normal r2))
  ∧ Console.output (transformEntry c d1 ctx) = Console.output (transformEntry c d2 ctx)
  ∧ ∀ r1 r2, result1 = Normal r1 → result2 = Normal r2 →
      tr_hiddenFields r1 = tr_hiddenFields r2
      ∧ tr_warnings r1 = tr_warnings r2
      ∧ Obj.keys (tr_data r1) = Obj.keys (tr_data r2)
      ∧ decision <$> tr_fields r1 = decision <$> tr_fields r2.
Proof.
  intros Hwf1 Hkeys result1 result2 decision. subst result1 result2 decision.
  assert (Obj.wf d2) as Hwf2 by (unfold Obj.wf; by rewrite <-Hkeys).
  destruct (transformEntry_cases c d1 ctx Hwf1)
    as [(cc & Hc & ->)|[(Hc & ->)|(name & Hc & ->)]].
  - rewrite (transformEntry_configured c d2 ctx cc) by done.
    rewrite !value_pair, !output_pair.
    split; [done|]. split; [split; eauto|]. split.
    { rewrite !applyLoop_console. apply bind_by_name; [|done].
      intros. apply delta_by_name. }
    intros r1 r2 <-%Normal_inj <-%Normal_inj.
    rewrite !applyLoop_data, !applyLoop_hiddenFields, !applyLoop_warnings,
      !applyLoop_fields, !keys_bind by done.
    split_and!.
    + apply bind_by_name; [|done]. intros. apply delta_by_name.
    + apply bind_by_name; [|done]. intros. apply delta_by_name.
    + apply bind_by_name; [|done]. intros. apply delta_by_name.
    + assert (∀ (d : JsObject),
                (λ fr, (fr_field fr, fr_attributeId fr, fr_visible fr,
                        fr_redactionApplied fr))
                  <$> (d ≫= (λ e, acc_fields (delta cc ctx e)))
                = d ≫= (λ e, (λ fr, (fr_field fr, fr_attributeId fr, fr_visible fr,
                                      fr_redactionApplied fr))
                               <$> acc_fields (delta cc ctx e))) as Hfmap.
      { intros d. induction d as [|e d IH]; [done|].
        by rewrite !bind_cons, fmap_app, IH. }
      rewrite !Hfmap. apply bind_by_name; [|done]. intros. apply delta_by_name.
  - rewrite (transformEntry_absent c d2 ctx Hc).
    rewrite !value_pair, !output_pair.
    split; [done|]. split; [split; eauto|]. split; [done|].
    intros r1 r2 <-%Normal_inj <-%Normal_inj.
    cbn [tr_hiddenFields tr_warnings tr_data tr_fields].
    rewrite (spread_wf d2 Hwf2).
    split_and!; try done.
    rewrite <-!list_fmap_compose, Hkeys. done.
  - rewrite (transformEntry_inherited c d2 ctx name Hc).
    rewrite !value_pair, !output_pair.
    destruct d1, d2; try done.
    split; [done|]. split; [split; eauto|]. split; [done|].
    by intros r1 r2 <-%Normal_inj <-%Normal_inj.
Qed.

Lemma decisions_by_field_name_witness :
  tr_hiddenFields (Console.value
    (applyLoop [("name", VStr "Jane Smith"); ("slug", VStr "jane")] teamCollection
       (testContext 1)))
  = tr_hiddenFields (Console.value
      (applyLoop [("name", VNull); ("slug", VNum 7)] teamCollection (testContext 1))).
Proof.
  refine (proj1 (proj2 (proj2 (proj2 (decisions_by_field_name "team"
                   [("name", VStr "Jane Smith"); ("slug", VStr "jane")]
                   [("name", VNull); ("slug", VNum 7)] (testContext 1) _ _)))
                 _ _ _ _)).
  - solve_wf.
  - reflexivity.
  - vm_compute. reflexivity.
  - vm_compute. reflexivity.
Defined.

(** * Names of [Object.prototype] *)

(** A field that the mapping does not mention and that is named
    [constructor]: the mapping yields the inherited function, the catalog
    has nothing under its text, and the field passes through with the
    unknown-attribute message. *)
Example test_inherited_mapping :
  transformEntry "team" [("constructor", VStr "x")] (testContext 4)
  = (Normal
       {| tr_data := [("constructor", VStr "x")];
          tr_fields := [ {| fr_field := "constructor";
                            fr_attributeId := InheritedMember "constructor";
                            fr_visible := true; fr_value := VStr "x";
                            fr_redactionApplied := None |} ];
          tr_hiddenFields := []; tr_warnings := [] |},
     [ unknownAttributeMessage "constructor" "function Object() { [native code] }" ]).
Proof. by vm_compute. Qed.

(** A record with an own key [__proto__]: the assignment to the result
    adds no property, so the field is kept in no list but the field
    results. *)
Example test_proto_key :
  Console.value (transformEntry "team" [("__proto__", VStr "x"); ("slug", VStr "j")]
                   (testContext 4))
  = Normal
      {| tr_data := [("slug", VStr "j")];
         tr_fields := [ {| fr_field := "__proto__";
                           fr_attributeId := InheritedMember "__proto__";
                           fr_visible := true; fr_value := VStr "x";
                           fr_redactionApplied := None |};
                        {| fr_field := "slug"; fr_attributeId := EmptyString;
                           fr_visible := true; fr_value := VStr "j";
                           fr_redactionApplied := None |} ];
         tr_hiddenFields := []; tr_warnings := [] |}.
Proof. by vm_compute. Qed.

(** X23. [isAttributeVisible] on every id, level and catalog: for an id
    that the catalog binds, it answers [true] exactly when the level is at
    least the threshold of the attribute; for an id that the catalog does
    not bind, it answers [true] unless the id is the name of a member of
    [Object.prototype], and [false] for such a name, at every level. *)
Theorem isAttributeVisible_cases attributeId (level : PrivacyLevel)
    (catalog : gmap string AttributeDefinition) :
  (∀ attr, catalog !! attributeId = Some attr →
     (isAttributeVisible attributeId level catalog = true
      ↔ ad_threshold attr ≤ level))
  ∧ (catalog !! attributeId = None →
       isAttributeVisible attributeId level catalog
       = negb (isPrototypeName attributeId))
  ∧ (catalog !! attributeId = None → isPrototypeName attributeId = false →
       isAttributeVisible attributeId 0 catalog = true).
Proof.
  split_and!.
  - intros attr H. by apply isAttributeVisible_known.
  - intros H. unfold isAttributeVisible, readProp. rewrite H.
    by destruct (isPrototypeName attributeId).
  - intros H1 H2. apply isAttributeVisible_unknown. by apply readProp_None.
Qed.

(** X24. For a collection name that the context does not configure and
    that is not the name of a member of [Object.prototype], at every level
    and for every record, [transformEntry] returns a filtered record equal
    to the input, one field result per field, in order, marked visible,
    with the empty attribute id and the value of the field; no hidden field,
    no warning, and nothing on the console. *)
Theorem transformEntry_passthrough c (data : JsObject) ctx :
  rc_collections (ctx_config ctx) !! c = None →
  isPrototypeName c = false →
  Obj.wf data →
  transformEntry c data ctx
  = (Normal
       {| tr_data := data;
          tr_fields :=
            (λ e, {| fr_field := e.1; fr_attributeId := EmptyString;
                     fr_visible := true; fr_value := e.2;
                     fr_redactionApplied := None |}) <$> data;
          tr_hiddenFields := [];
          tr_warnings := [] |}, []).
Proof.
  intros Hc Hp Hwf. rewrite (transformEntry_absent c data ctx).
  - by rewrite passthrough_fields, spread_wf.
  - by apply readProp_None.
Qed.

Lemma transformEntry_passthrough_witness :
  ∃ r, transformEntry "unknown-collection" teamMember (testContext 0) = (Normal r, [])
       ∧ tr_data r = teamMember ∧ tr_hiddenFields r = [].
Proof.
  eexists. split.
  - apply (transformEntry_passthrough "unknown-collection" teamMember (testContext 0)).
    + reflexivity.
    + reflexivity.
    + solve_wf.
  - split; reflexivity.
Defined.
